(** * Boolean retrieval over an inverted index

    A shallow embedding of [build_inverted_index.py] and
    [boolean_search.py]: the index builder and the text it writes, the
    index loader, the query tokenizer and the recursive-descent parser
    that evaluates a query while it parses it; and of the programs around
    them: the table of addresses and the command line program of
    [boolean_search.py], the crawler ([crawler.py]) and the extraction of
    words and lemmas from the pages ([lemma_token_builder.py]).

    Python values are modelled as follows.
    - A [str] is the list of its Unicode code points ([list N]).
    - A [set] of document ids is a [gset Z]; a [dict] from lemma to set is
      a [gmap (list N) (gset Z)]. Where it matters that sets and
      dictionaries are mutable objects that may be shared, the parser is
      given a second time over a store of objects ([Store]).
    - An exception is a value of [exn]; a function that may raise returns
      a [result].
    - The parser object keeps [tokens] and [pos]; every method takes the
      position and returns the new one. The methods count the calls and
      loop iterations they may still make, so that they are functions by
      structural recursion; the properties show how many are enough.
      That count says what a call returns when it returns. Whether it
      returns depends on how deep the interpreter lets calls nest: the
      methods are given a second time under that limit ([Frames]), where
      a call returns or raises [RecursionError].
    - A file is the text in it; the directory of the lemma source is the
      list of its entries.
    - The part of the Unicode character database that the code consults
      through [re] and the [str] methods is a parameter ([unicode]); the
      laws the proofs need from it are collected in [unicode_laws].
    - The network (the calls of [urllib], which return or raise), the
      HTML parser of the standard library and the morphological analyser
      are parameters of the functions that use them. The file system is
      taken to accept what is written.

    Not modelled: the encoding of text as bytes, the limits of the
    interpreter other than the recursion limit (memory, the length of an
    integer literal), and the progress messages of the crawler, the lemma
    builder and the index builder.

    The first part of the file holds the definitions, the second part the
    properties. *)

From Stdlib Require Import ZArith Lia DecimalZ.
From stdpp Require Import gmap sorting list strings.

Set Warnings "-clear-no-such-hyp".

Abbreviation str := (list N) (only parsing).

(** ** Characters and string literals *)

Fixpoint lit (s : String.string) : str :=
  match s with
  | String.EmptyString => []
  | String.String a s' => Ascii.N_of_ascii a :: lit s'
  end.
Arguments lit s%_string.

(** [Py_UNICODE_ISSPACE]: the code points for which [str.isspace] holds,
    which are also the ones [\s] matches in a [str] pattern and the ones
    [str.strip()] and [str.split()] treat as separators. *)
Definition is_space (c : N) : bool :=
  ((9 <=? c) && (c <=? 13) || (28 <=? c) && (c <=? 32)
   || (c =? 133) || (c =? 160) || (c =? 5760)
   || (8192 <=? c) && (c <=? 8202)
   || (c =? 8232) || (c =? 8233) || (c =? 8239) || (c =? 8287)
   || (c =? 12288))%N.

(** The tables of the Unicode database that are not written out here. *)
Record unicode := {
  (** [\w] of a [str] pattern: alphanumeric or underscore *)
  u_word : N → bool;
  (** [Py_UNICODE_TODECIMAL]: the value of a decimal digit *)
  u_decimal : N → option N;
  (** [str.lower] and [str.upper] (full case mapping, on whole strings) *)
  u_lower : str → str;
  u_upper : str → str
}.

Definition LPAREN : N := 40.
Definition RPAREN : N := 41.

Definition is_paren (c : N) : bool := (c =? LPAREN)%N || (c =? RPAREN)%N.

(** ** [str] methods *)

Fixpoint take_while {A} (p : A → bool) (l : list A) : list A :=
  match l with
  | [] => []
  | x :: l' => if p x then x :: take_while p l' else []
  end.

Fixpoint drop_while {A} (p : A → bool) (l : list A) : list A :=
  match l with
  | [] => []
  | x :: l' => if p x then drop_while p l' else l
  end.

(** [s.strip()] *)
Definition lstrip (s : str) : str := drop_while is_space s.
Definition rstrip (s : str) : str := reverse (drop_while is_space (reverse s)).
Definition strip (s : str) : str := rstrip (lstrip s).

(** [s.split()]: the maximal runs of non-whitespace characters.
    [cur] is the run being read, in reverse. *)
Fixpoint split_from (cur : str) (s : str) : list str :=
  match s with
  | [] => match cur with [] => [] | _ => [reverse cur] end
  | c :: s' =>
      if is_space c
      then match cur with
           | [] => split_from [] s'
           | _ => reverse cur :: split_from [] s'
           end
      else split_from (c :: cur) s'
  end.

Definition split (s : str) : list str := split_from [] s.

(** [sep.join(parts)] *)
Fixpoint join (sep : str) (parts : list str) : str :=
  match parts with
  | [] => []
  | [p] => p
  | p :: ps => p ++ sep ++ join sep ps
  end.

(** [t in s] for strings: [t] occurs in [s] as a substring. *)
Fixpoint is_prefix (t s : str) : bool :=
  match t, s with
  | [], _ => true
  | _ :: _, [] => false
  | a :: t', b :: s' => (a =? b)%N && is_prefix t' s'
  end.

Fixpoint str_in (t s : str) : bool :=
  is_prefix t s || match s with [] => false | _ :: s' => str_in t s' end.

(** ** The query tokenizer *)

Definition AND_OP : str := Eval cbv in lit "and".
Definition OR_OP : str := Eval cbv in lit "or".
Definition NOT_OP : str := Eval cbv in lit "not".
Definition LPAREN_TOK : str := [LPAREN].
Definition RPAREN_TOK : str := [RPAREN].

Section Tokenizer.
Context (ucd : unicode).

Definition is_word (c : option N) : bool :=
  match c with Some c => u_word ucd c | None => false end.

(** [\b] between the character before and the character after the
    current position; the ends of the string count as non-word. *)
Definition word_boundary (before after : option N) : bool :=
  xorb (is_word before) (is_word after).

(** A literal letter under [re.IGNORECASE]. The engine lowers the
    subject character with the simple lowercase mapping and compares it
    with the lowered literal; the only code points mapped to one of
    a, d, n, o, r, t are the letter itself and its ASCII capital.
    [l] is the capital. *)
Definition ci_literal (l c : N) : bool := ((c =? l) || (c =? l + 32))%N.

Fixpoint ci_prefix (w s : str) : bool :=
  match w, s with
  | [], _ => true
  | _ :: _, [] => false
  | l :: w', c :: s' => ci_literal l c && ci_prefix w' s'
  end.

(** [\bW\b] at the current position, for a keyword [W] in capitals:
    the length of the match. *)
Definition match_keyword (w : str) (prev : option N) (s : str) : option nat :=
  if word_boundary prev (head s) && ci_prefix w s
     && word_boundary (last (take (length w) s)) (head (drop (length w) s))
  then Some (length w) else None.

(** [[^\s()]+]: the longest run, at least one character. *)
Definition term_char (c : N) : bool := negb (is_space c) && negb (is_paren c).

Definition match_run (s : str) : option nat :=
  match length (take_while term_char s) with
  | 0 => None
  | n => Some n
  end.

(** The pattern [[()]|\bAND\b|\bOR\b|\bNOT\b|[^\s()]+] at the current
    position: the alternatives are tried from left to right and the first
    one that matches wins. *)
Definition match_at (prev : option N) (s : str) : option nat :=
  match s with
  | [] => None
  | c :: _ =>
      if is_paren c then Some 1
      else match match_keyword (lit "AND") prev s with
           | Some n => Some n
           | None =>
           match match_keyword (lit "OR") prev s with
           | Some n => Some n
           | None =>
           match match_keyword (lit "NOT") prev s with
           | Some n => Some n
           | None => match_run s
           end end end
  end.

(** [re.findall]: scan from the left; a match is collected and the scan
    resumes after it, otherwise the scan moves one character on.
    [prev] is the character before the current position. Every step
    consumes a character, so [length s] steps are enough. *)
Fixpoint findall_from (fuel : nat) (prev : option N) (s : str) : list str :=
  match fuel with
  | 0 => []
  | S fuel =>
      match s with
      | [] => []
      | c :: s' =>
          match match_at prev s with
          | Some n =>
              take n s :: findall_from fuel (last (take n s)) (drop n s)
          | None => findall_from fuel (Some c) s'
          end
      end
  end.

Definition findall (s : str) : list str := findall_from (length s) None s.

(** The loop body of [tokenize_query]. *)
Definition classify (t : str) : list str :=
  let t := strip t in
  match t with
  | [] => []
  | _ =>
      let upper := u_upper ucd t in
      if decide (upper = lit "AND") then [AND_OP]
      else if decide (upper = lit "OR") then [OR_OP]
      else if decide (upper = lit "NOT") then [NOT_OP]
      else if str_in t (lit "()") then [t]
      else [u_lower ucd t]
  end.

Definition tokenize_query (s : str) : list str :=
  let s := strip s in
  match s with
  | [] => []
  | _ => concat (map classify (findall s))
  end.
End Tokenizer.

(** ** What the proofs need from the Unicode database

    The database agrees with the ASCII tables below on the code points
    under 128; no whitespace character is a word character; lower-casing
    is idempotent and keeps a string free of whitespace and non-empty. *)

Definition ascii_upper_letter (c : N) : bool := ((65 <=? c) && (c <=? 90))%N.
Definition ascii_lower_letter (c : N) : bool := ((97 <=? c) && (c <=? 122))%N.
Definition ascii_digit (c : N) : bool := ((48 <=? c) && (c <=? 57))%N.

Definition ascii_word (c : N) : bool :=
  ascii_upper_letter c || ascii_lower_letter c || ascii_digit c || (c =? 95)%N.

Definition ascii_decimal (c : N) : option N :=
  if ascii_digit c then Some (c - 48)%N else None.

Definition ascii_lower_char (c : N) : N :=
  if ascii_upper_letter c then (c + 32)%N else c.

Definition ascii_upper_char (c : N) : N :=
  if ascii_lower_letter c then (c - 32)%N else c.

Definition is_ascii (s : str) : Prop := Forall (λ c, (c < 128)%N) s.

Definition no_space (s : str) : Prop := Forall (λ c, is_space c = false) s.

Record unicode_laws (ucd : unicode) : Prop := {
  word_ascii : ∀ c, (c < 128)%N → u_word ucd c = ascii_word c;
  word_not_space : ∀ c, is_space c = true → u_word ucd c = false;
  decimal_ascii : ∀ c, (c < 128)%N → u_decimal ucd c = ascii_decimal c;
  upper_ascii : ∀ s, is_ascii s → u_upper ucd s = map ascii_upper_char s;
  lower_ascii : ∀ s, is_ascii s → u_lower ucd s = map ascii_lower_char s;
  lower_lower : ∀ s, u_lower ucd (u_lower ucd s) = u_lower ucd s;
  lower_no_space : ∀ s, no_space s → no_space (u_lower ucd s);
  lower_nonempty : ∀ s, s ≠ [] → u_lower ucd s ≠ []
}.

(** The ASCII tables alone: every code point from 128 on is a caseless
    symbol. *)
Definition ascii_only : unicode :=
  {| u_word := ascii_word;
     u_decimal := ascii_decimal;
     u_lower := map ascii_lower_char;
     u_upper := map ascii_upper_char |}.

(** ** A table for ASCII and the Russian alphabet

    It agrees with the Unicode database on the code points below 128 and
    on the Cyrillic block U+0400..U+045F, and treats every other code
    point as a caseless symbol. It is used to run the code on concrete
    queries. *)

Definition ru_word (c : N) : bool :=
  ascii_word c || ((1024 <=? c) && (c <=? 1119))%N.

Definition ru_lower_char (c : N) : N :=
  if ascii_upper_letter c then (c + 32)%N
  else if ((1040 <=? c) && (c <=? 1071))%N then (c + 32)%N
  else if ((1024 <=? c) && (c <=? 1039))%N then (c + 80)%N
  else c.

Definition ru_upper_char (c : N) : N :=
  if ascii_lower_letter c then (c - 32)%N
  else if ((1072 <=? c) && (c <=? 1103))%N then (c - 32)%N
  else if ((1104 <=? c) && (c <=? 1119))%N then (c - 80)%N
  else c.

Definition ru : unicode :=
  {| u_word := ru_word;
     u_decimal := ascii_decimal;
     u_lower := map ru_lower_char;
     u_upper := map ru_upper_char |}.

(** ** The parser and evaluator: [class QueryParser]

    [self.tokens], [self.index] and [self.all_doc_ids] never change after
    [__init__]; [self.pos] is threaded through the methods. The methods
    call each other recursively and loop, so each takes the number [n] of
    nested calls and loop iterations it may still spend, and returns
    [None] when that number is used up. *)

Section QueryParser.
Context (tokens : list str) (index : gmap str (gset Z)) (all_doc_ids : gset Z).

Definition peek (pos : nat) : option str := tokens !! pos.

Definition consume (pos : nat) : nat :=
  if decide (pos < length tokens) then S pos else pos.

(** [self.index.get(term, set()).copy()] *)
Definition term_set (term : str) : gset Z := default ∅ (index !! term).

Fixpoint parse_primary (n : nat) (pos : nat) : option (gset Z * nat) :=
  match n with
  | 0 => None
  | S n =>
      match peek pos with
      | None => Some (∅, pos)
      | Some t =>
          if decide (t = LPAREN_TOK) then
            match parse_or n (consume pos) with
            | None => None
            | Some (s, pos) =>
                if decide (peek pos = Some RPAREN_TOK)
                then Some (s, consume pos)
                else Some (s, pos)
            end
          else if decide (t = NOT_OP) then
            match parse_primary n (consume pos) with
            | None => None
            | Some (inner, pos) => Some (all_doc_ids ∖ inner, pos)
            end
          else if decide (Some t ∉ [Some AND_OP; Some OR_OP; Some RPAREN_TOK; None])
          then Some (term_set t, consume pos)
          else Some (∅, pos)
      end
  end
(** the [while] loop of [parse_and], entered with [left] *)
with parse_and_loop (n : nat) (left_ : gset Z) (pos : nat) : option (gset Z * nat) :=
  match n with
  | 0 => None
  | S n =>
      if decide (peek pos = Some AND_OP) then
        match parse_primary n (consume pos) with
        | None => None
        | Some (right_, pos) => parse_and_loop n (left_ ∩ right_) pos
        end
      else Some (left_, pos)
  end
with parse_and (n : nat) (pos : nat) : option (gset Z * nat) :=
  match n with
  | 0 => None
  | S n =>
      match parse_primary n pos with
      | None => None
      | Some (left_, pos) => parse_and_loop n left_ pos
      end
  end
(** the [while] loop of [parse_or], entered with [left] *)
with parse_or_loop (n : nat) (left_ : gset Z) (pos : nat) : option (gset Z * nat) :=
  match n with
  | 0 => None
  | S n =>
      if decide (peek pos = Some OR_OP) then
        match parse_and n (consume pos) with
        | None => None
        | Some (right_, pos) => parse_or_loop n (left_ ∪ right_) pos
        end
      else Some (left_, pos)
  end
with parse_or (n : nat) (pos : nat) : option (gset Z * nat) :=
  match n with
  | 0 => None
  | S n =>
      match parse_and n pos with
      | None => None
      | Some (left_, pos) => parse_or_loop n left_ pos
      end
  end.

(** [parse]: the parser starts at [pos = 0]; the final position is
    dropped. *)
Definition parse (n : nat) : option (gset Z) := fst <$> parse_or n 0.
End QueryParser.

(** [n] bounds the steps of the evaluation, not the depth of the calls:
    for the recursion limit see [Frames.boolean_search]. *)
Definition boolean_search (ucd : unicode) (n : nat) (query_str : str)
    (index : gmap str (gset Z)) (all_doc_ids : gset Z) : option (gset Z) :=
  let tokens := tokenize_query ucd query_str in
  match tokens with
  | [] => Some ∅
  | _ => parse tokens index all_doc_ids n
  end.

(** The call returns [v]: some number of steps is enough for it. *)
Definition parses (tokens : list str) (index : gmap str (gset Z))
    (all_doc_ids : gset Z) (v : gset Z) : Prop :=
  ∃ n, parse tokens index all_doc_ids n = Some v.

Definition searches (ucd : unicode) (index : gmap str (gset Z))
    (all_doc_ids : gset Z) (query_str : str) (v : gset Z) : Prop :=
  ∃ n, boolean_search ucd n query_str index all_doc_ids = Some v.

(** The index and universe of the scenarios: кот -> {1,2}, пёс -> {2,3}. *)
Definition kot : str := [1082; 1086; 1090]%N.
Definition pyos : str := [1087; 1105; 1089]%N.
Definition slon : str := [1089; 1083; 1086; 1085]%N.
Definition zoo_index : gmap str (gset Z) :=
  <[kot := {[1%Z; 2%Z]}]> (<[pyos := {[2%Z; 3%Z]}]> ∅).
Definition zoo_docs : gset Z := {[1%Z; 2%Z; 3%Z]}.

(** ** The parser under the recursion limit of the interpreter

    The three methods call one another: [parse_or] calls [parse_and],
    [parse_and] calls [parse_primary], and [parse_primary] calls
    [parse_or] for a group and itself for the operand of NOT. Python
    keeps a frame for every call that has not returned, and raises
    [RecursionError] when the calls nest deeper than the interpreter
    allows ([sys.getrecursionlimit()], 1000 unless it is changed, less
    the frames of the callers). Nothing in the program catches it.

    Here the methods are given once more, with the number [depth] of
    nested calls of the three methods that the interpreter still allows:
    its limit, less the frames of the callers of [parse_or], less the
    frames that a method needs for the calls that return at once
    ([peek], [consume], [term_set] and what they call). A [while] loop
    runs in the frame of its method and takes no frame of its own. *)

Module Frames.

(** What a call does: it returns, or [RecursionError] passes through
    it. *)
Inductive outcome (A : Type) : Type :=
  | Returns (a : A)
  | RecursionError.
Arguments Returns {A} a.
Arguments RecursionError {A}.

Section QueryParser.
Context (tokens : list str) (index : gmap str (gset Z)) (all_doc_ids : gset Z).

(** The [while] loop of [parse_and], entered with [left]; [parse_primary]
    is the method at the depth at which the loop calls it. Every
    iteration consumes the operator it has seen, so the loop makes at most
    [length tokens] iterations; [k] counts the ones that are left, and
    when none is left no token is left either, so that the condition of
    the loop is false. *)
Fixpoint parse_and_loop (parse_primary : nat → outcome (gset Z * nat))
    (k : nat) (left_ : gset Z) (pos : nat) : outcome (gset Z * nat) :=
  match k with
  | 0 => Returns (left_, pos)
  | S k =>
      if decide (peek tokens pos = Some AND_OP) then
        match parse_primary (consume tokens pos) with
        | RecursionError => RecursionError
        | Returns (right_, pos) =>
            parse_and_loop parse_primary k (left_ ∩ right_) pos
        end
      else Returns (left_, pos)
  end.

(** The [while] loop of [parse_or], entered with [left]. *)
Fixpoint parse_or_loop (parse_and : nat → outcome (gset Z * nat))
    (k : nat) (left_ : gset Z) (pos : nat) : outcome (gset Z * nat) :=
  match k with
  | 0 => Returns (left_, pos)
  | S k =>
      if decide (peek tokens pos = Some OR_OP) then
        match parse_and (consume tokens pos) with
        | RecursionError => RecursionError
        | Returns (right_, pos) =>
            parse_or_loop parse_and k (left_ ∪ right_) pos
        end
      else Returns (left_, pos)
  end.

Fixpoint parse_primary (depth : nat) (pos : nat) : outcome (gset Z * nat) :=
  match depth with
  | 0 => RecursionError
  | S depth =>
      match peek tokens pos with
      | None => Returns (∅, pos)
      | Some t =>
          if decide (t = LPAREN_TOK) then
            match parse_or depth (consume tokens pos) with
            | RecursionError => RecursionError
            | Returns (s, pos) =>
                if decide (peek tokens pos = Some RPAREN_TOK)
                then Returns (s, consume tokens pos)
                else Returns (s, pos)
            end
          else if decide (t = NOT_OP) then
            match parse_primary depth (consume tokens pos) with
            | RecursionError => RecursionError
            | Returns (inner, pos) => Returns (all_doc_ids ∖ inner, pos)
            end
          else if decide (Some t ∉ [Some AND_OP; Some OR_OP; Some RPAREN_TOK; None])
          then Returns (term_set index t, consume tokens pos)
          else Returns (∅, pos)
      end
  end
with parse_and (depth : nat) (pos : nat) : outcome (gset Z * nat) :=
  match depth with
  | 0 => RecursionError
  | S depth =>
      match parse_primary depth pos with
      | RecursionError => RecursionError
      | Returns (left_, pos) =>
          parse_and_loop (parse_primary depth) (length tokens) left_ pos
      end
  end
with parse_or (depth : nat) (pos : nat) : outcome (gset Z * nat) :=
  match depth with
  | 0 => RecursionError
  | S depth =>
      match parse_and depth pos with
      | RecursionError => RecursionError
      | Returns (left_, pos) =>
          parse_or_loop (parse_and depth) (length tokens) left_ pos
      end
  end.

(** [parse], where [parse_or] and the calls below it may nest [depth]
    deep. *)
Definition parse (depth : nat) : outcome (gset Z) :=
  match parse_or depth 0 with
  | RecursionError => RecursionError
  | Returns (s, _) => Returns s
  end.
End QueryParser.

Definition boolean_search (ucd : unicode) (depth : nat) (query_str : str)
    (index : gmap str (gset Z)) (all_doc_ids : gset Z) : outcome (gset Z) :=
  let tokens := tokenize_query ucd query_str in
  match tokens with
  | [] => Returns ∅
  | _ => parse tokens index all_doc_ids depth
  end.

End Frames.

(** The calls that the tokens [ts] can make nest: an opening parenthesis
    takes [parse_primary] through [parse_or] and [parse_and] to the next
    [parse_primary], NOT takes it to the next [parse_primary] at once. *)
Fixpoint nesting (ts : list str) : nat :=
  match ts with
  | [] => 0
  | t :: ts =>
      (if decide (t = LPAREN_TOK) then 3
       else if decide (t = NOT_OP) then 1 else 0) + nesting ts
  end.

(** A method that never moves the position back. *)
Definition forward (f : nat → Frames.outcome (gset Z * nat)) : Prop :=
  ∀ pos v pos', f pos = Frames.Returns (v, pos') → pos ≤ pos'.

(** ** The parser over a store of objects

    The same methods with Python's objects made explicit. A [set] or a
    [dict] is an object in a store and a value is a reference to one; the
    index is a [dict] object whose values are references to [set] objects,
    and the universe is a [set] object. Creating a set allocates; an
    object that exists is changed only by a method that mutates it. *)

Module Store.

Inductive obj :=
  | OSet (s : gset Z)
  | ODict (d : gmap str nat).

(** References are positions in the list of allocated objects. *)
Abbreviation store := (list obj) (only parsing).

Definition alloc (o : obj) (h : store) : nat * store := (length h, h ++ [o]).

Definition get_set (l : nat) (h : store) : option (gset Z) :=
  match h !! l with Some (OSet s) => Some s | _ => None end.

Definition get_dict (l : nat) (h : store) : option (gmap str nat) :=
  match h !! l with Some (ODict d) => Some d | _ => None end.

(** [a & b], [a | b] and [a - b] build a new set from two sets. *)
Definition binop (f : gset Z → gset Z → gset Z) (a b : nat) (h : store)
    : option (nat * store) :=
  match get_set a h, get_set b h with
  | Some x, Some y => Some (alloc (OSet (f x y)) h)
  | _, _ => None
  end.

Section QueryParser.
Context (tokens : list str) (index : nat) (all_doc_ids : nat).

(** [self.index.get(term, set()).copy()]: the default is built before
    the lookup, and the result is a copy of the set that was found. *)
Definition term_set (term : str) (h : store) : option (nat * store) :=
  let '(dflt, h) := alloc (OSet ∅) h in
  match get_dict index h with
  | None => None
  | Some d =>
      match get_set (default dflt (d !! term)) h with
      | None => None
      | Some s => Some (alloc (OSet s) h)
      end
  end.

Fixpoint parse_primary (n : nat) (pos : nat) (h : store)
    : option (nat * nat * store) :=
  match n with
  | 0 => None
  | S n =>
      match peek tokens pos with
      | None => let '(s, h) := alloc (OSet ∅) h in Some (s, pos, h)
      | Some t =>
          if decide (t = LPAREN_TOK) then
            match parse_or n (consume tokens pos) h with
            | None => None
            | Some (s, pos, h) =>
                if decide (peek tokens pos = Some RPAREN_TOK)
                then Some (s, consume tokens pos, h)
                else Some (s, pos, h)
            end
          else if decide (t = NOT_OP) then
            match parse_primary n (consume tokens pos) h with
            | None => None
            | Some (inner, pos, h) =>
                match binop (∖) all_doc_ids inner h with
                | None => None
                | Some (s, h) => Some (s, pos, h)
                end
            end
          else if decide (Some t ∉ [Some AND_OP; Some OR_OP; Some RPAREN_TOK; None])
          then
            match term_set t h with
            | None => None
            | Some (s, h) => Some (s, consume tokens pos, h)
            end
          else let '(s, h) := alloc (OSet ∅) h in Some (s, pos, h)
      end
  end
with parse_and_loop (n : nat) (left_ : nat) (pos : nat) (h : store)
    : option (nat * nat * store) :=
  match n with
  | 0 => None
  | S n =>
      if decide (peek tokens pos = Some AND_OP) then
        match parse_primary n (consume tokens pos) h with
        | None => None
        | Some (right_, pos, h) =>
            match binop (∩) left_ right_ h with
            | None => None
            | Some (left_, h) => parse_and_loop n left_ pos h
            end
        end
      else Some (left_, pos, h)
  end
with parse_and (n : nat) (pos : nat) (h : store)
    : option (nat * nat * store) :=
  match n with
  | 0 => None
  | S n =>
      match parse_primary n pos h with
      | None => None
      | Some (left_, pos, h) => parse_and_loop n left_ pos h
      end
  end
with parse_or_loop (n : nat) (left_ : nat) (pos : nat) (h : store)
    : option (nat * nat * store) :=
  match n with
  | 0 => None
  | S n =>
      if decide (peek tokens pos = Some OR_OP) then
        match parse_and n (consume tokens pos) h with
        | None => None
        | Some (right_, pos, h) =>
            match binop (∪) left_ right_ h with
            | None => None
            | Some (left_, h) => parse_or_loop n left_ pos h
            end
        end
      else Some (left_, pos, h)
  end
with parse_or (n : nat) (pos : nat) (h : store)
    : option (nat * nat * store) :=
  match n with
  | 0 => None
  | S n =>
      match parse_and n pos h with
      | None => None
      | Some (left_, pos, h) => parse_or_loop n left_ pos h
      end
  end.

Definition parse (n : nat) (h : store) : option (nat * store) :=
  match parse_or n 0 h with
  | None => None
  | Some (s, _, h) => Some (s, h)
  end.
End QueryParser.

Definition boolean_search (ucd : unicode) (n : nat) (query_str : str)
    (index : nat) (all_doc_ids : nat) (h : store) : option (nat * store) :=
  let tokens := tokenize_query ucd query_str in
  match tokens with
  | [] => Some (alloc (OSet ∅) h)
  | _ => parse tokens index all_doc_ids n h
  end.

(** The store holds the index [index] at [index_ref] and the universe
    [all_doc_ids] at [docs_ref]. *)
Definition holds (h : store) (index_ref docs_ref : nat)
    (index : gmap str (gset Z)) (all_doc_ids : gset Z) : Prop :=
  ∃ d, get_dict index_ref h = Some d ∧
       get_set docs_ref h = Some all_doc_ids ∧
       (∀ term l, d !! term = Some l → is_Some (get_set l h)) ∧
       (∀ term, index !! term = d !! term ≫= λ l, get_set l h).

End Store.

(** The index of the scenarios as objects: the dictionary at 0, the two
    posting sets at 1 and 2, the universe at 3. *)
Definition zoo_store : list Store.obj :=
  [Store.ODict (<[kot := 1]> (<[pyos := 2]> ∅));
   Store.OSet {[1%Z; 2%Z]}; Store.OSet {[2%Z; 3%Z]};
   Store.OSet {[1%Z; 2%Z; 3%Z]}].

(** ** Exceptions, text files, integers *)

Inductive exn :=
  | FileNotFoundError (path : str)
  (** [int(x)] on a string that is no integer literal: the message of the
      exception quotes [x] and nothing else *)
  | ValueError (literal : str).

Inductive result (A : Type) :=
  | Ok (a : A)
  | Raise (e : exn).
Arguments Ok {A} a.
Arguments Raise {A} e.

(** Iterating over a file opened in text mode: the lines, each with its
    line end, where a line ends at "\n", "\r" or "\r\n" and the line end
    is handed over as "\n". [cur] is the line being read, in reverse. *)
Fixpoint readlines_from (cur : str) (s : str) : list str :=
  match s with
  | [] => match cur with [] => [] | _ => [reverse cur] end
  | c :: s' =>
      if (c =? 10)%N then reverse (10%N :: cur) :: readlines_from [] s'
      else if (c =? 13)%N then
        match s' with
        | c' :: s'' =>
            if (c' =? 10)%N
            then reverse (10%N :: cur) :: readlines_from [] s''
            else reverse (10%N :: cur) :: readlines_from [] s'
        | [] => [reverse (10%N :: cur)]
        end
      else readlines_from (c :: cur) s'
  end.

Definition readlines (s : str) : list str := readlines_from [] s.

(** [str(d)] for an integer: decimal digits, a minus sign for a negative
    number, no leading zeros. *)
Fixpoint str_of_uint (u : Decimal.uint) : str :=
  match u with
  | Decimal.Nil => []
  | Decimal.D0 u => 48%N :: str_of_uint u
  | Decimal.D1 u => 49%N :: str_of_uint u
  | Decimal.D2 u => 50%N :: str_of_uint u
  | Decimal.D3 u => 51%N :: str_of_uint u
  | Decimal.D4 u => 52%N :: str_of_uint u
  | Decimal.D5 u => 53%N :: str_of_uint u
  | Decimal.D6 u => 54%N :: str_of_uint u
  | Decimal.D7 u => 55%N :: str_of_uint u
  | Decimal.D8 u => 56%N :: str_of_uint u
  | Decimal.D9 u => 57%N :: str_of_uint u
  end.

Definition str_of_int (d : Z) : str :=
  match Z.to_int d with
  | Decimal.Pos u => str_of_uint u
  | Decimal.Neg u => 45%N :: str_of_uint u
  end.

(** [int(x)] for a string. The string is first brought to ASCII: a
    character from 127 on becomes a space if it is whitespace, the ASCII
    digit of its value if it is a decimal digit, and "?" otherwise. Then:
    optional ASCII whitespace, an optional sign, digits with single
    underscores allowed between them, optional ASCII whitespace. *)
Definition to_ascii (ucd : unicode) (c : N) : N :=
  if (c <? 127)%N then c
  else if is_space c then 32%N
  else match u_decimal ucd c with
       | Some d => (48 + d)%N
       | None => 63%N
       end.

Definition c_space (c : N) : bool :=
  ((9 <=? c) && (c <=? 13) || (c =? 32))%N.

Definition digit_of (c : N) : option (Decimal.uint → Decimal.uint) :=
  if (c =? 48)%N then Some Decimal.D0
  else if (c =? 49)%N then Some Decimal.D1
  else if (c =? 50)%N then Some Decimal.D2
  else if (c =? 51)%N then Some Decimal.D3
  else if (c =? 52)%N then Some Decimal.D4
  else if (c =? 53)%N then Some Decimal.D5
  else if (c =? 54)%N then Some Decimal.D6
  else if (c =? 55)%N then Some Decimal.D7
  else if (c =? 56)%N then Some Decimal.D8
  else if (c =? 57)%N then Some Decimal.D9
  else None.

(** Digits, with an underscore allowed where a digit follows. *)
Fixpoint digits (s : str) : option Decimal.uint :=
  match s with
  | [] => Some Decimal.Nil
  | c :: s' =>
      if (c =? 95)%N then
        match s' with
        | c' :: _ =>
            match digit_of c' with Some _ => digits s' | None => None end
        | [] => None
        end
      else match digit_of c with
           | Some d => d <$> digits s'
           | None => None
           end
  end.

(** An unsigned literal: it starts with a digit. *)
Definition unsigned (s : str) : option Decimal.uint :=
  match s with
  | c :: _ => match digit_of c with Some _ => digits s | None => None end
  | [] => None
  end.

Definition py_int (ucd : unicode) (x : str) : option Z :=
  let s := map (to_ascii ucd) x in
  let s := reverse (drop_while c_space (reverse (drop_while c_space s))) in
  match s with
  | c :: s' =>
      if (c =? 45)%N then (λ u, Z.of_int (Decimal.Neg u)) <$> unsigned s'
      else if (c =? 43)%N then (λ u, Z.of_int (Decimal.Pos u)) <$> unsigned s'
      else (λ u, Z.of_int (Decimal.Pos u)) <$> unsigned s
  | [] => None
  end.

(** ** The index loader: [load_inverted_index]

    [file] is the text of the file at [path], if there is one. *)

(** [set(int(x) for x in parts[1:])]: the fields are converted from left
    to right and the first one that is no integer raises. *)
Fixpoint ints (ucd : unicode) (xs : list str) : result (list Z) :=
  match xs with
  | [] => Ok []
  | x :: xs' =>
      match py_int ucd x with
      | None => Raise (ValueError x)
      | Some d =>
          match ints ucd xs' with
          | Ok ds => Ok (d :: ds)
          | Raise e => Raise e
          end
      end
  end.

(** The body of the loop over the lines. *)
Definition load_line (ucd : unicode) (index : gmap str (gset Z)) (line : str)
    : result (gmap str (gset Z)) :=
  let line := strip line in
  match line with
  | [] => Ok index
  | _ =>
      match split line with
      | [] => Ok index
      | p :: rest =>
          let term := u_lower ucd p in
          match ints ucd rest with
          | Raise e => Raise e
          | Ok doc_ids => Ok (<[term := list_to_set doc_ids]> index)
          end
      end
  end.

Fixpoint load_lines (ucd : unicode) (index : gmap str (gset Z))
    (lines : list str) : result (gmap str (gset Z)) :=
  match lines with
  | [] => Ok index
  | line :: lines' =>
      match load_line ucd index line with
      | Raise e => Raise e
      | Ok index => load_lines ucd index lines'
      end
  end.

Definition load_inverted_index (ucd : unicode) (path : str) (file : option str)
    : result (gmap str (gset Z)) :=
  match file with
  | None => Raise (FileNotFoundError path)
  | Some text => load_lines ucd ∅ (readlines text)
  end.

(** ** The index builder: [build_inverted_index]

    The directory [tokenized_pages] is given by the list of its entries
    [page*] in the order in which [glob] lists them. An entry is given by
    the number that [PAGE_DIR_PATTERN] finds at the end of its name (if it
    finds one) and by the text of its [lemmas.txt] (if there is one). *)

Record page_dir := {
  page_number : option Z;
  lemmas_txt : option str
}.

Definition TOKENIZED_DIR : str := Eval cbv in lit "tokenized_pages".

(** The sort key of [page_dirs]. *)
Definition page_key (p : page_dir) : Z := default 0%Z (page_number p).

Definition page_key_le (p q : page_dir) : Prop := (page_key p ≤ page_key q)%Z.

Global Instance page_key_le_dec p q : Decision (page_key_le p q).
Proof. unfold page_key_le. apply _. Defined.

(** Comparison of strings: by code points, the first difference decides,
    and a proper prefix is smaller. *)
Fixpoint str_leb (s t : str) : bool :=
  match s, t with
  | [], _ => true
  | _ :: _, [] => false
  | a :: s', b :: t' => (a <? b)%N || ((a =? b)%N && str_leb s' t')
  end.

Definition str_le (s t : str) : Prop := str_leb s t = true.
Definition str_lt (s t : str) : Prop := str_le s t ∧ s ≠ t.

Global Instance str_le_dec s t : Decision (str_le s t).
Proof. unfold str_le. apply _. Defined.

(** The body of the loop over the lines of one [lemmas.txt]. *)
Definition add_line (ucd : unicode) (doc_id : Z) (index : gmap str (gset Z))
    (line : str) : gmap str (gset Z) :=
  let line := strip line in
  match line with
  | [] => index
  | _ =>
      match split line with
      | [] => index
      | p :: _ =>
          let lemma := u_lower ucd p in
          <[lemma := default ∅ (index !! lemma) ∪ {[doc_id]}]> index
      end
  end.

(** The body of the loop over [page_dirs]. *)
Definition add_page (ucd : unicode) (index : gmap str (gset Z)) (p : page_dir)
    : gmap str (gset Z) :=
  match page_number p with
  | None => index
  | Some doc_id =>
      match lemmas_txt p with
      | None => index
      | Some text => foldl (add_line ucd doc_id) index (readlines text)
      end
  end.

(** One line of the output file. *)
Definition index_line (index : gmap str (gset Z)) (term : str) : str :=
  let doc_ids := merge_sort Z.le (elements (default ∅ (index !! term))) in
  term ++ lit " " ++ join (lit " ") (map str_of_int doc_ids) ++ [10%N].

(** What is written to [OUTPUT_FILE]. *)
Definition index_text (index : gmap str (gset Z)) : str :=
  let sorted_terms := merge_sort str_le (map fst (map_to_list index)) in
  concat (map (index_line index) sorted_terms).

(** The result is the returned index together with the text written to
    the output file. *)
Definition build_inverted_index (ucd : unicode)
    (tokenized_dir : option (list page_dir))
    : result (gmap str (gset Z) * str) :=
  match tokenized_dir with
  | None => Raise (FileNotFoundError TOKENIZED_DIR)
  | Some entries =>
      let page_dirs := merge_sort page_key_le entries in
      let index := foldl (add_page ucd) ∅ page_dirs in
      Ok (index, index_text index)
  end.

(** Two pages: page 2 holds "Кот" and "пёс", page 1 holds "кот". The
    glob order is arbitrary; the output is sorted. *)
Definition zoo_pages : list page_dir :=
  [ {| page_number := Some 2%Z;
       lemmas_txt := Some ([1050; 1086; 1090; 32] ++ kot ++ [10]
                           ++ pyos ++ [32; 32] ++ pyos ++ [13; 10; 10])%N |};
    {| page_number := None; lemmas_txt := Some kot |};
    {| page_number := Some 1%Z; lemmas_txt := Some (kot ++ [10])%N |};
    {| page_number := Some 3%Z; lemmas_txt := None |} ].

(** ** The grammar of well-formed queries

    The grammar of the query language with the value of each production,
    as a relation between a token sequence and the set it denotes:
<<
    orExpr  := andExpr (OR andExpr)*
    andExpr := primary (AND primary)*
    primary := TERM | '(' orExpr ')' | NOT primary
>>
    [andExpr] folds intersection and [orExpr] folds union from the left. *)

Definition is_term (t : str) : Prop :=
  t ∉ [LPAREN_TOK; RPAREN_TOK; AND_OP; OR_OP; NOT_OP].

Section Grammar.
Context (index : gmap str (gset Z)) (all_doc_ids : gset Z).

Inductive primary_val : list str → gset Z → Prop :=
  | pv_term t :
      is_term t → primary_val [t] (term_set index t)
  | pv_group ts v :
      or_val ts v → primary_val (LPAREN_TOK :: ts ++ [RPAREN_TOK]) v
  | pv_not ts v :
      primary_val ts v → primary_val (NOT_OP :: ts) (all_doc_ids ∖ v)
with and_val : list str → gset Z → Prop :=
  | av_primary ts v :
      primary_val ts v → and_val ts v
  | av_and ts1 v1 ts2 v2 :
      and_val ts1 v1 → primary_val ts2 v2 →
      and_val (ts1 ++ AND_OP :: ts2) (v1 ∩ v2)
with or_val : list str → gset Z → Prop :=
  | ov_and ts v :
      and_val ts v → or_val ts v
  | ov_or ts1 v1 ts2 v2 :
      or_val ts1 v1 → and_val ts2 v2 →
      or_val (ts1 ++ OR_OP :: ts2) (v1 ∪ v2).

Scheme primary_val_mut := Minimality for primary_val Sort Prop
  with and_val_mut := Minimality for and_val Sort Prop
  with or_val_mut := Minimality for or_val Sort Prop.
Combined Scheme grammar_mutind
  from primary_val_mut, and_val_mut, or_val_mut.
End Grammar.

(** The token sequence is derivable from the production. *)
Definition is_primary (ts : list str) : Prop :=
  ∃ index all_doc_ids v, primary_val index all_doc_ids ts v.
Definition is_and_expr (ts : list str) : Prop :=
  ∃ index all_doc_ids v, and_val index all_doc_ids ts v.
Definition is_or_expr (ts : list str) : Prop :=
  ∃ index all_doc_ids v, or_val index all_doc_ids ts v.

(** ** Notions used in the statements and proofs *)

(** What a method may do to the position: never move it back, never move
    it past the end of the tokens. *)
Definition advances (tokens : list str) (pos : nat)
    (r : option (gset Z * nat)) : Prop :=
  ∀ v pos', r = Some (v, pos') →
    pos ≤ pos' ∧ pos' ≤ pos `max` length tokens.

(** A call that returns with [n] steps returns the same with more. *)
Definition stable (f : nat → option (gset Z * nat)) (n : nat) : Prop :=
  ∀ r m, f n = Some r → n ≤ m → f m = Some r.

(** The tokens [ts] stand at positions [pos], [pos + 1], ... *)
Definition occurs_at (tokens : list str) (pos : nat) (ts : list str) : Prop :=
  ∀ i t, ts !! i = Some t → peek tokens (pos + i) = Some t.

(** Two token lists are the same up to and including position [p]. *)
Definition agree_upto (tokens tokens' : list str) (p : nat) : Prop :=
  ∀ i, i ≤ p → tokens !! i = tokens' !! i.

(** A position in [tokens] and the position that corresponds to it when
    one more token follows the last: the same position, or the end of the
    one and the end of the other. *)
Definition same_place (tokens : list str) (p p' : nat) : Prop :=
  (p = p' ∧ p ≤ length tokens) ∨ (p = length tokens ∧ p' = S (length tokens)).

(** A character of a string, or the end of the string, is ASCII. *)
Definition ascii_opt (x : option N) : Prop :=
  match x with Some c => (c < 128)%N | None => True end.

(** A keyword of the pattern: capital ASCII letters. *)
Definition keyword (w : str) : Prop :=
  w ≠ [] ∧ forallb ascii_upper_letter w = true.

(** The content of the lemma source, of the index and of the output
    file. *)

(** The lemma that a line of [lemmas.txt] contributes: its first field,
    lower-cased; nothing for a blank line. *)
Definition line_lemma (ucd : unicode) (line : str) : option str :=
  match split (strip line) with
  | f :: _ => Some (u_lower ucd f)
  | [] => None
  end.

(** The document [doc_id] of the lemma source contains [lemma]: some
    entry with that number has a line with that lemma. *)
Definition contains (ucd : unicode) (entries : list page_dir)
    (lemma : str) (doc_id : Z) : Prop :=
  ∃ p text line,
    p ∈ entries ∧ page_number p = Some doc_id ∧ lemmas_txt p = Some text ∧
    line ∈ readlines text ∧ line_lemma ucd line = Some lemma.

(** The posting set of a lemma: empty for a lemma that is no key. *)
Definition posting (index : gmap str (gset Z)) (lemma : str) : gset Z :=
  default ∅ (index !! lemma).

(** A field: not empty, no whitespace in it. *)
Definition field (w : str) : Prop := w ≠ [] ∧ no_space w.

(** The index after the loop over the sorted [page_dirs]. *)
Definition index_of_pages (ucd : unicode) (entries : list page_dir)
    : gmap str (gset Z) :=
  foldl (add_page ucd) ∅ (merge_sort page_key_le entries).

(** One line of the output file, from the lemma and its sorted ids. *)
Definition row_text (r : str * list Z) : str :=
  r.1 ++ lit " " ++ join (lit " ") (map str_of_int r.2) ++ [10%N].

(** The lines of the output file for an index. *)
Definition rows (index : gmap str (gset Z)) : list (str * list Z) :=
  map (λ term, (term, merge_sort Z.le (elements (posting index term))))
      (merge_sort str_le (map fst (map_to_list index))).

(** What the loops guarantee about the index: a key is a lower-cased
    field, and a posting set has an element. *)
Definition well_keyed (ucd : unicode) (index : gmap str (gset Z)) : Prop :=
  ∀ term s, index !! term = Some s →
    (∃ f, field f ∧ term = u_lower ucd f) ∧ s ≠ ∅.

(** What loading one line of the output file does to the index. *)
Definition put_row (acc : gmap str (gset Z)) (r : str * list Z)
    : gmap str (gset Z) :=
  <[r.1 := list_to_set r.2]> acc.

(** [x] is a field after the lemma, on some line, and [int(x)] fails. *)
Definition bad_field (ucd : unicode) (lines : list str) (x : str) : Prop :=
  ∃ line, line ∈ lines ∧ x ∈ tail (split (strip line)) ∧ py_int ucd x = None.

(** The characters of [str(d)]: the digits 0 to 9 and the minus sign. *)
Definition digit_char (c : N) : Prop := (48 ≤ c ≤ 57)%N.

Definition int_char (c : N) : Prop := c = 45%N ∨ digit_char c.

(** No line end in the string. *)
Definition no_newline (s : str) : Prop := Forall (λ c, c ≠ 10%N ∧ c ≠ 13%N) s.

(** ** The table of document addresses: [load_doc_urls]

    [index.txt] has one line per document: the number of the document, a
    tab, the address. *)

Definition INVERTED_INDEX_FILE : str := Eval cbv in lit "inverted_index.txt".

(** [s.split(sep, 1)] for a separator of one character: the text before
    the first separator and the text after it, or the string itself when
    it has no separator. [cur] is the text read so far, in reverse. *)
Fixpoint split_once_from (sep : N) (cur : str) (s : str) : list str :=
  match s with
  | [] => [reverse cur]
  | c :: s' =>
      if (c =? sep)%N then [reverse cur; s']
      else split_once_from sep (c :: cur) s'
  end.

Definition split_once (sep : N) (s : str) : list str := split_once_from sep [] s.

(** [s.isdigit()]: at least one character, and every character a digit.
    [u_digit] is the table [Py_UNICODE_ISDIGIT] of the Unicode database;
    it holds for the decimal digits and for some more characters, such as
    the superscript digits. *)
Definition isdigit (u_digit : N → bool) (s : str) : bool :=
  match s with
  | [] => false
  | _ => forallb u_digit s
  end.

(** The body of the loop over the lines. *)
Definition load_url_line (ucd : unicode) (u_digit : N → bool)
    (urls : gmap Z str) (line : str) : result (gmap Z str) :=
  let line := strip line in
  match line with
  | [] => Ok urls
  | _ =>
      match split_once 9 line with
      | p0 :: p1 :: _ =>
          match py_int ucd p0 with
          | None => Raise (ValueError p0)
          | Some doc_id => Ok (<[doc_id := strip p1]> urls)
          end
      | [p0] =>
          if isdigit u_digit p0 then
            match py_int ucd p0 with
            | None => Raise (ValueError p0)
            | Some doc_id => Ok (<[doc_id := []]> urls)
            end
          else Ok urls
      | [] => Ok urls
      end
  end.

Fixpoint load_url_lines (ucd : unicode) (u_digit : N → bool)
    (urls : gmap Z str) (lines : list str) : result (gmap Z str) :=
  match lines with
  | [] => Ok urls
  | line :: lines' =>
      match load_url_line ucd u_digit urls line with
      | Raise e => Raise e
      | Ok urls => load_url_lines ucd u_digit urls lines'
      end
  end.

(** [file] is the text of the file at [path], if there is one; a missing
    file is an empty table. *)
Definition load_doc_urls (ucd : unicode) (u_digit : N → bool)
    (file : option str) : result (gmap Z str) :=
  match file with
  | None => Ok ∅
  | Some text => load_url_lines ucd u_digit ∅ (readlines text)
  end.

(** The digits of the ASCII and Latin-1 blocks: 0 to 9 and the
    superscripts 1, 2 and 3. *)
Definition latin1_digit (c : N) : bool :=
  ascii_digit c || (c =? 178)%N || (c =? 179)%N || (c =? 185)%N.

(** ** The command line program: [main] of [boolean_search.py] *)

(** The universe of the search: the documents of [index.txt], or, when
    that table is empty, every document of some posting set. *)
Definition universe (index : gmap str (gset Z)) (doc_urls : gmap Z str)
    : gset Z :=
  let all_doc_ids :=
    if decide (doc_urls = ∅) then (∅ : gset Z) else dom doc_urls in
  if decide (all_doc_ids = ∅)
  then foldl (λ all_doc_ids doc_set, all_doc_ids ∪ doc_set) all_doc_ids
         (map snd (map_to_list index))
  else all_doc_ids.

Definition BANNER : list str :=
  [ [1041; 1091; 1083; 1077; 1074; 32; 1087; 1086; 1080; 1089; 1082; 46; 32;
     1054; 1087; 1077; 1088; 1072; 1090; 1086; 1088; 1099; 58; 32; 65; 78;
     68; 44; 32; 79; 82; 44; 32; 78; 79; 84; 46; 32; 1057; 1082; 1086; 1073;
     1082; 1080; 32; 1076; 1083; 1103; 32; 1075; 1088; 1091; 1087; 1087;
     1080; 1088; 1086; 1074; 1082; 1080; 46];
    [1055; 1088; 1080; 1084; 1077; 1088; 58; 32; 40; 1050; 1083; 1077; 1086;
     1087; 1072; 1090; 1088; 1072; 32; 65; 78; 68; 32; 1062; 1077; 1079;
     1072; 1088; 1100; 41; 32; 79; 82; 32; 40; 1040; 1085; 1090; 1086; 1085;
     1080; 1081; 32; 65; 78; 68; 32; 1062; 1080; 1094; 1077; 1088; 1086;
     1085; 41; 32; 79; 82; 32; 1055; 1086; 1084; 1087; 1077; 1081];
    [] ]%N.

(** "Запрос пустой." *)
Definition EMPTY_QUERY : str :=
  [1047; 1072; 1087; 1088; 1086; 1089; 32; 1087; 1091; 1089; 1090; 1086;
   1081; 46]%N.

(** A line end and "Найдено документов: " *)
Definition FOUND : str :=
  [10; 1053; 1072; 1081; 1076; 1077; 1085; 1086; 32; 1076; 1086; 1082; 1091;
   1084; 1077; 1085; 1090; 1086; 1074; 58; 32]%N.

(** The query and what is printed before it is known. With arguments on
    the command line the query is the arguments joined by spaces; without,
    the program prints its banner and reads a line. [stdin] is the line
    that [input] returns, or [None] at the end of the input. *)
Definition read_query (argv : list str) (stdin : option str)
    : list str * str :=
  if decide (1 < length argv)
  then ([], join (lit " ") (drop 1 argv))
  else (BANNER, match stdin with Some line => strip line | None => [] end).

(** One line of the result list. *)
Definition result_line (doc_urls : gmap Z str) (doc_id : Z) : str :=
  lit "  " ++ str_of_int doc_id ++ [9%N] ++ default [] (doc_urls !! doc_id).

(** The program. The two files are given by their text, if they exist.
    The result is the list of the strings that [print] is called with, or
    the exception that ends the program; the prompt of [input] is not
    part of it. [n] is the number of steps the parser may take. *)
Definition main (ucd : unicode) (u_digit : N → bool) (n : nat)
    (inverted_index_file index_txt : option str)
    (argv : list str) (stdin : option str) : option (result (list str)) :=
  match load_inverted_index ucd INVERTED_INDEX_FILE inverted_index_file with
  | Raise e => Some (Raise e)
  | Ok index =>
      match load_doc_urls ucd u_digit index_txt with
      | Raise e => Some (Raise e)
      | Ok doc_urls =>
          let all_doc_ids := universe index doc_urls in
          let '(printed, query_str) := read_query argv stdin in
          match query_str with
          | [] => Some (Ok (printed ++ [EMPTY_QUERY]))
          | _ =>
              match boolean_search ucd n query_str index all_doc_ids with
              | None => None
              | Some doc_ids =>
                  let doc_ids_sorted := merge_sort Z.le (elements doc_ids) in
                  Some (Ok (printed
                    ++ [FOUND ++ str_of_int (Z.of_nat (length doc_ids_sorted))]
                    ++ map (result_line doc_urls) doc_ids_sorted))
              end
          end
      end
  end.

(** ** The crawler: [crawler.py]

    The calls of [urllib] are parameters of the model ([Request],
    [urlopen]): each returns or raises, and [fetch_url] handles some of
    the exceptions and lets the others pass through [run]. The progress
    messages and the pauses between the requests are not modelled, and
    the directory [pages] is taken to exist once a file is written into
    it. *)

Module Crawler.

Definition PAGES_DIR : str := Eval cbv in lit "pages".
Definition URLS_FILE : str := Eval cbv in lit "urls.txt".
Definition INDEX_FILE : str := Eval cbv in lit "index.txt".
Definition MIN_PAGES : Z := 100.

(** [os.path.join(a, b)] for a relative [b] and a non-empty [a] that does
    not end in a slash. *)
Definition path_join (a b : str) : str := a ++ lit "/" ++ b.

(** [file] is the text of the file at [path], if there is one. *)
Definition load_urls (path : str) (file : option str) : result (list str) :=
  match file with
  | None => Raise (FileNotFoundError path)
  | Some text =>
      Ok (map strip (filter (λ line, strip line ≠ []) (readlines text)))
  end.

Definition safe_filename (index : Z) : str := str_of_int index ++ lit ".txt".

(** The variables of the loop of [run], and the files written so far
    (path and text, in the order of writing). *)
Record crawl := {
  written : list (str * str);
  index_entries : list (Z * str);
  file_index : Z;
  saved : Z
}.

(** An exception that a call of the library raises, as far as the
    handler of [fetch_url] tells exceptions apart: by whether it is an
    instance of [urllib.error.URLError] or of [OSError]. *)
Record exception := {
  class_name : str;
  isinstance_URLError : bool;
  isinstance_OSError : bool
}.

(** How [run] ends, and the files written until then, in the order of
    writing. *)
Inductive ending :=
  | Finished (files : list (str * str))
  | NoUrls (e : exn)
  | Aborted (files : list (str * str)) (e : exception).

Section Run.
(** The library. [Request url] is the exception that
    [urllib.request.Request(url, headers=REQUEST_HEADERS)] raises, if it
    raises one (a [ValueError] for an address without a scheme).
    [urlopen i url] is what the [with] statement does at the [i]-th
    request: it comes to its [return] with the decoded body, the final
    address and the content type, or one of its calls raises. *)
Context (Request : str → option exception).
Context (urlopen : nat → str → (str * str * str) + exception).

(** The request is built before the [try] statement, so that an exception
    of [Request] is not handled; of the exceptions of the [with]
    statement the handler turns those of the two classes into [None] and
    lets the others pass. *)
Definition fetch_url (i : nat) (url : str)
    : option (str * str * str) + exception :=
  match Request url with
  | Some e => inr e
  | None =>
      match urlopen i url with
      | inl (body, final_url, content_type) =>
          inl (Some (body, final_url, content_type))
      | inr e =>
          if isinstance_URLError e || isinstance_OSError e then inl None
          else inr e
      end
  end.

(** The loop over [enumerate(urls, start=i)], entered with the variables
    [st]: the variables when the loop is left, and the exception that
    leaves it, if one does. *)
Fixpoint run_loop (i : nat) (urls : list str) (st : crawl)
    : crawl * option exception :=
  match urls with
  | [] => (st, None)
  | url :: urls' =>
      if decide (MIN_PAGES ≤ saved st)%Z then (st, None)
      else
        match fetch_url i url with
        | inr e => (st, Some e)
        | inl None => run_loop (S i) urls' st
        | inl (Some (body, final_url, content_type)) =>
            let file_index := (file_index st + 1)%Z in
            let path := path_join PAGES_DIR (safe_filename file_index) in
            run_loop (S i) urls'
              {| written := written st ++ [(path, body)];
                 index_entries := index_entries st ++ [(file_index, url)];
                 file_index := file_index;
                 saved := (saved st + 1)%Z |}
        end
  end.

(** What is written to [INDEX_FILE]. *)
Definition index_txt (index_entries : list (Z * str)) : str :=
  concat (map (λ e, str_of_int e.1 ++ [9%N] ++ e.2 ++ [10%N]) index_entries).

(** [urls_file] is the text of [URLS_FILE], if there is one. [INDEX_FILE]
    is written after the loop: an exception that leaves the loop leaves
    [run] before that. *)
Definition run (urls_file : option str) : ending :=
  match load_urls URLS_FILE urls_file with
  | Raise e => NoUrls e
  | Ok urls =>
      match run_loop 1 urls
              {| written := []; index_entries := []; file_index := 0;
                 saved := 0 |} with
      | (st, Some e) => Aborted (written st) e
      | (st, None) =>
          Finished (written st ++ [(INDEX_FILE, index_txt (index_entries st))])
      end
  end.
End Run.

End Crawler.

(** ** The names of the page directories: [PAGE_DIR_PATTERN]

    [build_inverted_index] takes the number of a document from the name
    of its directory. *)

(** [\d] in a [str] pattern: a decimal digit of the Unicode database. *)
Definition is_decimal (ucd : unicode) (c : N) : bool :=
  match u_decimal ucd c with Some _ => true | None => false end.

(** [$]: the end of the string, or a line end that ends the string. *)
Definition at_end (s : str) : bool :=
  match s with
  | [] => true
  | [c] => (c =? 10)%N
  | _ => false
  end.

(** [(\d+)$] at the start of [s]: the group. The run of digits is taken
    as long as possible, and shortened when [$] does not hold behind
    it. *)
Fixpoint match_digits (ucd : unicode) (s : str) : option str :=
  match s with
  | [] => None
  | c :: s' =>
      if is_decimal ucd c then
        match match_digits ucd s' with
        | Some g => Some (c :: g)
        | None => if at_end s' then Some [c] else None
        end
      else None
  end.

(** [page(\d+)$] at the start of [s]: group 1. *)
Definition match_page (ucd : unicode) (s : str) : option str :=
  if is_prefix (lit "page") s then match_digits ucd (drop 4 s) else None.

(** [PAGE_DIR_PATTERN.search(p)]: group 1 of the leftmost match. *)
Fixpoint PAGE_DIR_PATTERN_search (ucd : unicode) (p : str) : option str :=
  match p with
  | [] => None
  | _ :: p' =>
      match match_page ucd p with
      | Some g => Some g
      | None => PAGE_DIR_PATTERN_search ucd p'
      end
  end.

(** The number of the document at [page_path]:
    [int(match.group(1))], or nothing when the pattern does not match.
    The group is made of decimal digits, for which [int] does not
    fail. *)
Definition page_number_of (ucd : unicode) (page_path : str) : option Z :=
  match PAGE_DIR_PATTERN_search ucd page_path with
  | None => None
  | Some g => py_int ucd g
  end.

(** [glob.glob(os.path.join(TOKENIZED_DIR, "page*"))] and what the loop
    reads of each path. The directory is given by its entries: the name,
    and the text of the [lemmas.txt] in it (if the entry is a directory
    with such a file). *)
Definition page_dirs (ucd : unicode) (tokenized_dir : list (str * option str))
    : list page_dir :=
  map (λ e, {| page_number :=
                 page_number_of ucd (TOKENIZED_DIR ++ lit "/" ++ e.1);
               lemmas_txt := e.2 |})
      (filter (λ e, is_prefix (lit "page") e.1 = true) tokenized_dir).

(** ** From pages to lemma files: [lemma_token_builder.py]

    Two libraries are parameters of the model. [HTMLParser.feed] is given
    by the calls of the three handlers that it makes for a text
    ([feed]). The morphological analyser is given by the list of parses
    that [morph.parse] returns for a word, each with its part of speech
    ([tag.POS], which may be [None]) and its normal form
    ([morph_parse]). The messages that the program prints when it is
    done are not modelled. *)

Module LemmaTokenBuilder.

Definition PAGES_DIR : str := Eval cbv in lit "pages".
Definition OUTPUT_DIR : str := Eval cbv in lit "tokenized_pages".

(** A character of the class [[а-яё]] under [re.IGNORECASE]: the letters
    а to я and ё, their capitals, and the letters U+1C80 to U+1C86, which
    are further small forms of в, д, о, с, т and ъ and share their
    capitals. *)
Definition ru_letter (c : N) : bool :=
  ((1072 <=? c) && (c <=? 1103) || (c =? 1105)
   || (1040 <=? c) && (c <=? 1071) || (c =? 1025)
   || (7296 <=? c) && (c <=? 7302))%N.

(** [RE_RU_WORD] at the start of [s]: the length of the longest run of
    letters, when it has two letters or more. *)
Definition match_word (s : str) : option nat :=
  let n := length (take_while ru_letter s) in
  if decide (2 ≤ n) then Some n else None.

(** [RE_RU_WORD.findall]: scan from the left; a match is collected and
    the scan resumes after it, otherwise the scan moves one character
    on. [length s] steps are enough. *)
Fixpoint findall_from (fuel : nat) (s : str) : list str :=
  match fuel with
  | 0 => []
  | S fuel =>
      match s with
      | [] => []
      | _ :: s' =>
          match match_word s with
          | Some n => take n s :: findall_from fuel (drop n s)
          | None => findall_from fuel s'
          end
      end
  end.

Definition findall (s : str) : list str := findall_from (length s) s.

(** [RE_RU_WORD.fullmatch(s)] *)
Definition fullmatch (s : str) : bool :=
  (2 <=? length s) && forallb ru_letter s.

Definition tokenize (ucd : unicode) (text : str) : list str :=
  let text := u_lower ucd text in
  let tokens := findall text in
  filter (λ t, 2 ≤ length t ≤ 40) tokens.

(** The calls that [HTMLParser.feed] makes; the attributes of a start
    tag are not looked at. *)
Inductive event :=
  | handle_starttag (tag : str)
  | handle_endtag (tag : str)
  | handle_data (data : str).

Record HTMLTextExtractor := {
  _parts : list str;
  _skip : Z
}.

Definition SKIPPED : list str := [lit "script"; lit "style"; lit "noscript"].

(** The three handlers. *)
Definition handle (ucd : unicode) (self : HTMLTextExtractor) (e : event)
    : HTMLTextExtractor :=
  match e with
  | handle_starttag tag =>
      let t := u_lower ucd tag in
      if decide (t ∈ SKIPPED)
      then {| _parts := _parts self; _skip := (_skip self + 1)%Z |}
      else self
  | handle_endtag tag =>
      let t := u_lower ucd tag in
      if decide (t ∈ SKIPPED ∧ (0 < _skip self)%Z)
      then {| _parts := _parts self; _skip := (_skip self - 1)%Z |}
      else self
  | handle_data data =>
      if decide (_skip self = 0%Z ∧ data ≠ [])
      then {| _parts := _parts self ++ [data]; _skip := _skip self |}
      else self
  end.

Definition get_text (self : HTMLTextExtractor) : str :=
  join (lit " ") (_parts self).

(** [tokens.txt] and [lemmas.txt] for the result of [process_page]. *)
Definition tokens_txt (tokens_list : list str) : str :=
  concat (map (λ t, t ++ [10%N]) tokens_list).

Definition lemmas_line (lemma_to_tokens : gmap str (gset str)) (lemma : str)
    : str :=
  let toks := merge_sort str_le (elements (default ∅ (lemma_to_tokens !! lemma))) in
  lemma ++ lit " " ++ join (lit " ") toks ++ [10%N].

Definition lemmas_txt (lemma_to_tokens : gmap str (gset str)) : str :=
  concat (map (lemmas_line lemma_to_tokens)
              (merge_sort str_le (map fst (map_to_list lemma_to_tokens)))).

(** [p.rfind(c)]: the position of the last [c] in [p]. [i] is the
    position of the first character of [p]. *)
Fixpoint rfind_from (c : N) (i : nat) (p : str) : option nat :=
  match p with
  | [] => None
  | x :: p' =>
      match rfind_from c (S i) p' with
      | Some j => Some j
      | None => if (x =? c)%N then Some i else None
      end
  end.

Definition rfind (c : N) (p : str) : option nat := rfind_from c 0 p.

(** [os.path.basename(p)] *)
Definition basename (p : str) : str :=
  match rfind 47 p with
  | Some i => drop (S i) p
  | None => p
  end.

(** [os.path.splitext(p)]: the extension starts at the last dot of the
    last component, unless only dots stand before it there. *)
Definition splitext (p : str) : str * str :=
  match rfind 46 p with
  | None => (p, [])
  | Some dotIndex =>
      let filenameIndex :=
        match rfind 47 p with Some sepIndex => S sepIndex | None => 0 end in
      if decide (filenameIndex ≤ dotIndex) then
        if forallb (λ c, (c =? 46)%N)
             (take (dotIndex - filenameIndex) (drop filenameIndex p))
        then (p, [])
        else (take dotIndex p, drop dotIndex p)
      else (p, [])
  end.

(** [os.path.join(a, b)] for a relative [b] and a non-empty [a] that does
    not end in a slash. *)
Definition path_join (a b : str) : str := a ++ lit "/" ++ b.

(** [glob.glob(os.path.join(dir, "*.txt"))] for the entries of [dir],
    each with its name first: the entries whose name ends in ".txt" and
    does not start with a dot, under their paths. *)
Definition glob_txt {A} (dir : str) (entries : list (str * A))
    : list (str * A) :=
  map (λ e, (path_join dir e.1, e.2))
    (filter (λ e, head e.1 ≠ Some 46%N ∧
                  is_prefix (reverse (lit ".txt")) (reverse e.1) = true)
            entries).

(** [sorted(l, key=key)]: elements with the same key keep their
    order. *)
Fixpoint insert_by {A} (key : A → Z) (x : A) (l : list A) : list A :=
  match l with
  | [] => [x]
  | y :: l' =>
      if decide (key y ≤ key x)%Z then y :: insert_by key x l' else x :: l
  end.

Definition sorted_by {A} (key : A → Z) (l : list A) : list A :=
  foldl (λ acc x, insert_by key x acc) [] l.

(** The two uses of the name of a page file in [main]. *)
Definition base (path : str) : str := (splitext (basename path)).1.

Definition page_number (ucd : unicode) (path : str) : Z :=
  match py_int ucd (base path) with
  | Some d => d
  | None => 0%Z
  end.

Definition page_dir (path : str) : str :=
  path_join OUTPUT_DIR (lit "page" ++ base path).

(** [pos in bad_pos], where [pos] may be [None] *)
Definition pos_in (pos : option str) (bad_pos : gset str) : bool :=
  match pos with
  | Some pos => bool_decide (pos ∈ bad_pos)
  | None => false
  end.

Definition BAD_POS : gset str :=
  {[lit "PREP"; lit "CONJ"; lit "PRCL"; lit "INTJ"]}.

Section Libraries.
Context (ucd : unicode) (u_digit : N → bool).
Context (feed : str → list event).
Context (morph_parse : str → list (option str * str)).

Definition html_to_text (html : str) : str :=
  get_text (foldl (handle ucd) {| _parts := []; _skip := 0 |} (feed html)).

(** The body of the loop of [process_page]; the state is [tokens_set]
    and [lemma_to_tokens]. *)
Definition process_token (bad_pos : gset str)
    (st : gset str * gmap str (gset str)) (tok : str)
    : gset str * gmap str (gset str) :=
  let '(tokens_set, lemma_to_tokens) := st in
  if existsb u_digit tok then st
  else
    match morph_parse tok with
    | [] => st
    | (pos, lemma) :: _ =>
        if pos_in pos bad_pos then st
        else if negb (fullmatch lemma)
                || negb (bool_decide (2 ≤ length lemma ≤ 40))
        then st
        else (tokens_set ∪ {[tok]},
              <[lemma := default ∅ (lemma_to_tokens !! lemma) ∪ {[tok]}]>
                lemma_to_tokens)
    end.

Definition process_page (html : str) (bad_pos : gset str)
    : list str * gmap str (gset str) :=
  let text := html_to_text html in
  let raw_tokens := tokenize ucd text in
  let '(tokens_set, lemma_to_tokens) :=
    foldl (process_token bad_pos) (∅, ∅) raw_tokens in
  (merge_sort str_le (elements tokens_set), lemma_to_tokens).

(** What the loop of [main] writes for the page file at [path] with the
    text [file]: the paths and the texts. Reading the file hands over
    every line end as "\n". *)
Definition page_output (path file : str) : list (str * str) :=
  let html := concat (readlines file) in
  let '(tokens_list, lemma_to_tokens) := process_page html BAD_POS in
  [ (path_join (page_dir path) (lit "tokens.txt"), tokens_txt tokens_list);
    (path_join (page_dir path) (lit "lemmas.txt"), lemmas_txt lemma_to_tokens) ].

(** [pages_dir] is the directory [pages], if there is one: the names of
    its entries with the text of each. The result is the list of the
    files written, in the order of writing. *)
Definition main (pages_dir : option (list (str * str)))
    : result (list (str * str)) :=
  match pages_dir with
  | None => Raise (FileNotFoundError PAGES_DIR)
  | Some entries =>
      let files :=
        sorted_by (λ f, page_number ucd f.1) (glob_txt PAGES_DIR entries) in
      match files with
      | [] => Raise (FileNotFoundError (path_join PAGES_DIR (lit "*.txt")))
      | _ => Ok (concat (map (λ f, page_output f.1 f.2) files))
      end
  end.
End Libraries.

End LemmaTokenBuilder.

(** ** Further notions used in the statements *)

(** A string that does not start and does not end with whitespace. *)
Definition trimmed (s : str) : Prop :=
  (∀ c, head s = Some c → is_space c = false) ∧
  (∀ c, last s = Some c → is_space c = false).

(** An address as [load_urls] returns it: not empty, no whitespace at its
    ends, no line end in it. *)
Definition clean (u : str) : Prop := u ≠ [] ∧ trimmed u ∧ no_newline u.

(** The pages downloaded, in the order of the requests, until a download
    raises an exception: the address and the body. [i] is the number of
    the first request. *)
Fixpoint fetched
    (fetch_url : nat → str → option (str * str * str) + Crawler.exception)
    (i : nat) (urls : list str) : list (str * str) :=
  match urls with
  | [] => []
  | url :: urls' =>
      match fetch_url i url with
      | inl (Some (body, _, _)) => (url, body) :: fetched fetch_url (S i) urls'
      | inl None => fetched fetch_url (S i) urls'
      | inr _ => []
      end
  end.


(** The path of the [k]-th page file. *)
Definition page_path (k : nat) : str :=
  Crawler.path_join Crawler.PAGES_DIR (Crawler.safe_filename (Z.of_nat k)).

(** The files and the table that the crawler writes for the downloads
    [pages], numbering them from [S m]. *)
Definition page_files (m : nat) (pages : list (str * str)) : list (str * str) :=
  imap (λ k p, (page_path (S (m + k)), p.2)) pages.

Definition page_entries (m : nat) (pages : list (str * str)) : list (Z * str) :=
  imap (λ k p, (Z.of_nat (S (m + k)), p.1)) pages.

(** The files of the scenarios: the inverted index кот -> {1,2},
    пёс -> {2} and the table of the addresses of the documents 1 and 2. *)
Definition zoo_inverted_index_txt : str :=
  kot ++ lit " 1 2" ++ [10%N] ++ pyos ++ lit " 2" ++ [10%N].
Definition zoo_index_txt : str :=
  lit "1" ++ [9%N] ++ lit "http://a" ++ [10%N]
  ++ lit "2" ++ [9%N] ++ lit "http://b" ++ [10%N].
Definition zoo_loaded : gmap str (gset Z) :=
  <[kot := {[1%Z; 2%Z]}]> (<[pyos := {[2%Z]}]> ∅).
Definition zoo_urls : gmap Z str :=
  <[1%Z := lit "http://a"]> (<[2%Z := lit "http://b"]> ∅).

(** What a line of the inverted index file says: the lemma, lower-cased,
    and the set of the numbers after it; nothing for a blank line or when
    some field after the lemma is no integer. *)
Definition line_entry (ucd : unicode) (line : str) : option (str * gset Z) :=
  match split (strip line) with
  | f :: rest =>
      match ints ucd rest with
      | Ok ds => Some (u_lower ucd f, list_to_set ds)
      | Raise _ => None
      end
  | [] => None
  end.

(** Every document of [v] is in the universe or in the posting set of
    one of the tokens. *)
Definition within (tokens : list str) (index : gmap str (gset Z))
    (all_doc_ids : gset Z) (v : gset Z) : Prop :=
  ∀ d, d ∈ v → d ∈ all_doc_ids ∨ ∃ t, t ∈ tokens ∧ d ∈ term_set index t.

(** What the Unicode database guarantees about decimal digits beyond
    [unicode_laws]: the value of a digit is at most 9, and no digit is a
    whitespace character. *)
Definition decimal_table (ucd : unicode) : Prop :=
  ∀ c d, u_decimal ucd c = Some d → (d ≤ 9)%N ∧ is_space c = false.

(** [t] is a maximal run of letters of [s]: it stands in [s] between
    [pre] and [post], it is made of letters, and no letter stands next
    to it. *)
Definition word_start (pre : str) : Prop :=
  ∀ c, last pre = Some c → LemmaTokenBuilder.ru_letter c = false.

Definition word_end (post : str) : Prop :=
  ∀ c, head post = Some c → LemmaTokenBuilder.ru_letter c = false.

Definition run_of_letters (s t : str) : Prop :=
  ∃ pre post,
    s = pre ++ t ++ post ∧
    Forall (λ c, LemmaTokenBuilder.ru_letter c = true) t ∧
    word_start pre ∧ word_end post.

(** The events of an HTML text. An event opens a skipped element when it
    is a start tag of [script], [style] or [noscript] (in any case), and
    closes one when it is such an end tag; [plain] events do neither.
    [data_of] is the text between the tags: the data that is not
    empty. *)
Definition opens (ucd : unicode) (e : LemmaTokenBuilder.event) : Prop :=
  match e with
  | LemmaTokenBuilder.handle_starttag tag =>
      u_lower ucd tag ∈ LemmaTokenBuilder.SKIPPED
  | _ => False
  end.

Definition closes (ucd : unicode) (e : LemmaTokenBuilder.event) : Prop :=
  match e with
  | LemmaTokenBuilder.handle_endtag tag =>
      u_lower ucd tag ∈ LemmaTokenBuilder.SKIPPED
  | _ => False
  end.

Definition plain (ucd : unicode) (e : LemmaTokenBuilder.event) : Prop :=
  ¬ opens ucd e ∧ ¬ closes ucd e.

Fixpoint data_of (evs : list LemmaTokenBuilder.event) : list str :=
  match evs with
  | [] => []
  | LemmaTokenBuilder.handle_data data :: evs' =>
      match data with
      | [] => data_of evs'
      | _ => data :: data_of evs'
      end
  | _ :: evs' => data_of evs'
  end.

(** [process_page] files the word [tok] under [lemma]: the word has no
    digit in it, its first parse has the normal form [lemma] and a part
    of speech that is not excluded, and the lemma is a run of two to
    forty letters. *)
Definition kept (u_digit : N → bool)
    (morph_parse : str → list (option str * str)) (bad_pos : gset str)
    (tok lemma : str) : Prop :=
  existsb u_digit tok = false ∧
  ∃ pos rest,
    morph_parse tok = (pos, lemma) :: rest ∧
    LemmaTokenBuilder.pos_in pos bad_pos = false ∧
    LemmaTokenBuilder.fullmatch lemma = true ∧ length lemma ≤ 40.

(** The words filed under a lemma: none for a lemma that is no key. *)
Definition group (lemma_to_tokens : gmap str (gset str)) (lemma : str)
    : gset str :=
  default ∅ (lemma_to_tokens !! lemma).

(** A tactic for goals about the character tables: case analysis on
    every comparison of code points. *)
Ltac cases_on_tests :=
  repeat match goal with
    | |- context [(?a <=? ?b)%N] =>
        destruct (N.leb_spec a b); cbn [andb orb negb]; try lia
    | |- context [(?a =? ?b)%N] =>
        destruct (N.eqb_spec a b); cbn [andb orb negb]; try lia
    end; try done.

(** * Properties *)

(** ** The code on concrete inputs *)

Example tokenize_ex1 :
  tokenize_query ru (lit "(a AND b) or   Not band") =
  [lit "("; lit "a"; lit "and"; lit "b"; lit ")"; lit "or"; lit "not"; lit "band"].
Proof. vm_compute. reflexivity. Qed.

Example tokenize_ex2 :
  tokenize_query ru (lit "android not-x oregon") =
  [lit "android"; lit "not"; lit "-x"; lit "oregon"].
Proof. vm_compute. reflexivity. Qed.

Example scenario1 :
  boolean_search ru 20 (kot ++ lit " AND " ++ pyos) zoo_index zoo_docs
    = Some {[2%Z]}.
Proof. vm_compute. reflexivity. Qed.

Example scenario2 :
  boolean_search ru 20 (kot ++ lit " OR " ++ pyos) zoo_index zoo_docs
    = Some {[1%Z; 2%Z; 3%Z]}.
Proof. vm_compute. reflexivity. Qed.

Example scenario3 :
  boolean_search ru 20 (lit "NOT " ++ kot) zoo_index zoo_docs = Some {[3%Z]}.
Proof. vm_compute. reflexivity. Qed.

Example scenario4 :
  boolean_search ru 30
    (lit "(" ++ kot ++ lit " AND " ++ pyos ++ lit ") OR NOT " ++ pyos)
    zoo_index zoo_docs = Some {[1%Z; 2%Z]}.
Proof. vm_compute. reflexivity. Qed.

Example scenario5 :
  boolean_search ru 20 slon zoo_index zoo_docs = Some ∅.
Proof. vm_compute. reflexivity. Qed.

(** The operators in any case and with any spacing. *)
Example operator_case_and_spacing :
  tokenize_query ru (lit "a AND b") = [lit "a"; AND_OP; lit "b"] ∧
  tokenize_query ru (lit "a and b") = [lit "a"; AND_OP; lit "b"] ∧
  tokenize_query ru (lit "a   And  b") = [lit "a"; AND_OP; lit "b"].
Proof. split_and!; reflexivity. Qed.

Example py_int_ex1 : py_int ru (lit "-1_000") = Some (-1000)%Z.
Proof. reflexivity. Qed.
Example py_int_ex2 : py_int ru (lit "007") = Some 7%Z.
Proof. reflexivity. Qed.
Example py_int_ex3 : py_int ru (lit "1__0") = None.
Proof. reflexivity. Qed.
Example py_int_ex4 : py_int ru (lit "12a") = None.
Proof. reflexivity. Qed.
Example str_of_int_ex : str_of_int (-120) = lit "-120" ∧ str_of_int 0 = lit "0".
Proof. split; reflexivity. Qed.
Example readlines_ex :
  readlines (lit "ab") = [lit "ab"] ∧
  readlines [97; 10; 98; 13; 10; 99; 13; 100; 10]%N =
    [[97; 10]; [98; 10]; [99; 10]; [100; 10]]%N.
Proof. split; reflexivity. Qed.

Example build_ex :
  build_inverted_index ru (Some zoo_pages) =
  Ok (<[kot := {[1%Z; 2%Z]}]> (<[pyos := {[2%Z]}]> ∅),
      kot ++ lit " 1 2" ++ [10%N] ++ pyos ++ lit " 2" ++ [10%N]).
Proof. vm_compute. reflexivity. Qed.

Example load_ex :
  load_inverted_index ru (lit "inverted_index.txt")
    (Some (kot ++ lit " 1 2" ++ [10%N] ++ pyos ++ lit " 2" ++ [10%N])) =
  Ok (<[kot := {[1%Z; 2%Z]}]> (<[pyos := {[2%Z]}]> ∅)).
Proof. vm_compute. reflexivity. Qed.

(** ** The parser: unfolding, positions, steps *)

Section QueryParserFacts.
Context (tokens : list str) (index : gmap str (gset Z)) (all_doc_ids : gset Z).

Lemma peek_Some_lt pos t : peek tokens pos = Some t → pos < length tokens.
Proof. apply lookup_lt_Some. Qed.

Lemma consume_peek pos t : peek tokens pos = Some t → consume tokens pos = S pos.
Proof. intros H%peek_Some_lt. unfold consume. by rewrite decide_True. Qed.

Lemma consume_bounds pos :
  pos ≤ consume tokens pos ∧ consume tokens pos ≤ pos `max` length tokens.
Proof. unfold consume. case_decide; lia. Qed.

Local Abbreviation peek := (peek tokens).
Local Abbreviation consume := (consume tokens).
Local Abbreviation parse_primary := (parse_primary tokens index all_doc_ids).
Local Abbreviation parse_and_loop := (parse_and_loop tokens index all_doc_ids).
Local Abbreviation parse_and := (parse_and tokens index all_doc_ids).
Local Abbreviation parse_or_loop := (parse_or_loop tokens index all_doc_ids).
Local Abbreviation parse_or := (parse_or tokens index all_doc_ids).

Lemma parse_primary_S n pos :
  parse_primary (S n) pos =
  match peek pos with
  | None => Some (∅, pos)
  | Some t =>
      if decide (t = LPAREN_TOK) then
        match parse_or n (consume pos) with
        | None => None
        | Some (s, pos) =>
            if decide (peek pos = Some RPAREN_TOK)
            then Some (s, consume pos)
            else Some (s, pos)
        end
      else if decide (t = NOT_OP) then
        match parse_primary n (consume pos) with
        | None => None
        | Some (inner, pos) => Some (all_doc_ids ∖ inner, pos)
        end
      else if decide (Some t ∉ [Some AND_OP; Some OR_OP; Some RPAREN_TOK; None])
      then Some (term_set index t, consume pos)
      else Some (∅, pos)
  end.
Proof. reflexivity. Qed.

Lemma parse_and_loop_S n left_ pos :
  parse_and_loop (S n) left_ pos =
  if decide (peek pos = Some AND_OP) then
    match parse_primary n (consume pos) with
    | None => None
    | Some (right_, pos) => parse_and_loop n (left_ ∩ right_) pos
    end
  else Some (left_, pos).
Proof. reflexivity. Qed.

Lemma parse_and_S n pos :
  parse_and (S n) pos =
  match parse_primary n pos with
  | None => None
  | Some (left_, pos) => parse_and_loop n left_ pos
  end.
Proof. reflexivity. Qed.

Lemma parse_or_loop_S n left_ pos :
  parse_or_loop (S n) left_ pos =
  if decide (peek pos = Some OR_OP) then
    match parse_and n (consume pos) with
    | None => None
    | Some (right_, pos) => parse_or_loop n (left_ ∪ right_) pos
    end
  else Some (left_, pos).
Proof. reflexivity. Qed.

Lemma parse_or_S n pos :
  parse_or (S n) pos =
  match parse_and n pos with
  | None => None
  | Some (left_, pos) => parse_or_loop n left_ pos
  end.
Proof. reflexivity. Qed.

Local Abbreviation advances := (advances tokens).

Lemma methods_advance n :
  (∀ pos, advances pos (parse_primary n pos)) ∧
  (∀ l pos, advances pos (parse_and_loop n l pos)) ∧
  (∀ pos, advances pos (parse_and n pos)) ∧
  (∀ l pos, advances pos (parse_or_loop n l pos)) ∧
  (∀ pos, advances pos (parse_or n pos)).
Proof.
  induction n as [|n (IHp & IHal & IHa & IHol & IHo)];
    [by split_and!; intros; intros ???|].
  assert (Hc := consume_bounds).
  split_and!; intros; intros v pos' Hr.
  - rewrite parse_primary_S in Hr.
    repeat (case_match || case_decide); simplify_eq; try lia;
      try (pose proof (Hc pos); lia).
    + match goal with H : parse_or _ _ = Some _ |- _ =>
        apply IHo in H end.
      pose proof (Hc pos); pose proof (Hc n0); lia.
    + match goal with H : parse_or _ _ = Some _ |- _ =>
        apply IHo in H end.
      pose proof (Hc pos); lia.
    + match goal with H : parse_primary _ _ = Some _ |- _ =>
        apply IHp in H end.
      pose proof (Hc pos); lia.
  - rewrite parse_and_loop_S in Hr.
    repeat (case_match || case_decide); simplify_eq; try lia.
    match goal with H : parse_primary _ _ = Some _ |- _ =>
      apply IHp in H end.
    apply IHal in Hr. pose proof (Hc pos); lia.
  - rewrite parse_and_S in Hr.
    repeat (case_match || case_decide); simplify_eq.
    match goal with H : parse_primary _ _ = Some _ |- _ =>
      apply IHp in H end.
    apply IHal in Hr. lia.
  - rewrite parse_or_loop_S in Hr.
    repeat (case_match || case_decide); simplify_eq; try lia.
    match goal with H : parse_and _ _ = Some _ |- _ =>
      apply IHa in H end.
    apply IHol in Hr. pose proof (Hc pos); lia.
  - rewrite parse_or_S in Hr.
    repeat (case_match || case_decide); simplify_eq.
    match goal with H : parse_and _ _ = Some _ |- _ =>
      apply IHa in H end.
    apply IHol in Hr. lia.
Qed.

Lemma methods_stable n :
  (∀ pos, stable (λ n, parse_primary n pos) n) ∧
  (∀ l pos, stable (λ n, parse_and_loop n l pos) n) ∧
  (∀ pos, stable (λ n, parse_and n pos) n) ∧
  (∀ l pos, stable (λ n, parse_or_loop n l pos) n) ∧
  (∀ pos, stable (λ n, parse_or n pos) n).
Proof.
  induction n as [|n (IHp & IHal & IHa & IHol & IHo)];
    [by split_and!; intros; intros ?? [=]|].
  split_and!; intros; intros r [|m] Hr Hm; try lia.
  - rewrite parse_primary_S in *.
    repeat (case_match || case_decide); simplify_eq; try done.
    all: repeat match goal with
         | H : parse_or ?k _ = Some _ |- _ =>
             apply (IHo _ _ m) in H; [|lia]
         | H : parse_primary ?k _ = Some _ |- _ =>
             apply (IHp _ _ m) in H; [|lia]
         end; simplify_eq; try done.
    all: repeat case_decide; simplify_eq; done.
  - rewrite parse_and_loop_S in *.
    repeat (case_match || case_decide); simplify_eq; try done.
    all: repeat match goal with
         | H : parse_primary ?k _ = Some _ |- _ =>
             apply (IHp _ _ m) in H; [|lia]
         end; simplify_eq.
    by apply (IHal _ _ _ m) in Hr; [|lia].
  - rewrite parse_and_S in *.
    repeat (case_match || case_decide); simplify_eq; try done.
    all: repeat match goal with
         | H : parse_primary ?k _ = Some _ |- _ =>
             apply (IHp _ _ m) in H; [|lia]
         end; simplify_eq.
    by apply (IHal _ _ _ m) in Hr; [|lia].
  - rewrite parse_or_loop_S in *.
    repeat (case_match || case_decide); simplify_eq; try done.
    all: repeat match goal with
         | H : parse_and ?k _ = Some _ |- _ =>
             apply (IHa _ _ m) in H; [|lia]
         end; simplify_eq.
    by apply (IHol _ _ _ m) in Hr; [|lia].
  - rewrite parse_or_S in *.
    repeat (case_match || case_decide); simplify_eq; try done.
    all: repeat match goal with
         | H : parse_and ?k _ = Some _ |- _ =>
             apply (IHa _ _ m) in H; [|lia]
         end; simplify_eq.
    by apply (IHol _ _ _ m) in Hr; [|lia].
Qed.

(** Three steps for every token that is left, and a few more, are
    always enough. *)
Lemma methods_return n :
  (∀ pos, 3 * (length tokens - pos) + 1 ≤ n → is_Some (parse_primary n pos)) ∧
  (∀ l pos, 3 * (length tokens - pos) + 1 ≤ n →
     is_Some (parse_and_loop n l pos)) ∧
  (∀ pos, 3 * (length tokens - pos) + 2 ≤ n → is_Some (parse_and n pos)) ∧
  (∀ l pos, 3 * (length tokens - pos) + 2 ≤ n →
     is_Some (parse_or_loop n l pos)) ∧
  (∀ pos, 3 * (length tokens - pos) + 3 ≤ n → is_Some (parse_or n pos)).
Proof.
  induction n as [|n (IHp & IHal & IHa & IHol & IHo)];
    [split_and!; intros; lia|].
  destruct (methods_advance n) as (Ap & _ & Aa & _ & Ao).
  split_and!; intros.
  - rewrite parse_primary_S.
    destruct (peek pos) as [t|] eqn:Hpk; [|done].
    pose proof (peek_Some_lt _ _ Hpk). rewrite (consume_peek _ _ Hpk).
    case_decide.
    { destruct (IHo (S pos)) as [[s p] Hs]; [lia|].
      rewrite Hs. by case_decide. }
    case_decide; [|by case_decide].
    destruct (IHp (S pos)) as [[s p] Hs]; [lia|]. by rewrite Hs.
  - rewrite parse_and_loop_S. case_decide as Hpk; [|done].
    pose proof (peek_Some_lt _ _ Hpk). rewrite (consume_peek _ _ Hpk).
    destruct (IHp (S pos)) as [[s p] Hs]; [lia|]. rewrite Hs.
    apply Ap in Hs. apply IHal. lia.
  - rewrite parse_and_S.
    destruct (IHp pos) as [[s p] Hs]; [lia|]. rewrite Hs.
    apply Ap in Hs. apply IHal. lia.
  - rewrite parse_or_loop_S. case_decide as Hpk; [|done].
    pose proof (peek_Some_lt _ _ Hpk). rewrite (consume_peek _ _ Hpk).
    destruct (IHa (S pos)) as [[s p] Hs]; [lia|]. rewrite Hs.
    apply Aa in Hs. apply IHol. lia.
  - rewrite parse_or_S.
    destruct (IHa pos) as [[s p] Hs]; [lia|]. rewrite Hs.
    apply Aa in Hs. apply IHol. lia.
Qed.

Lemma parse_primary_stable n m pos r :
  parse_primary n pos = Some r → n ≤ m → parse_primary m pos = Some r.
Proof. intros. by eapply (proj1 (methods_stable n)). Qed.

Lemma parse_and_loop_stable n m l pos r :
  parse_and_loop n l pos = Some r → n ≤ m → parse_and_loop m l pos = Some r.
Proof.
  intros. by eapply (proj1 (proj2 (methods_stable n)) l pos).
Qed.

Lemma parse_and_stable n m pos r :
  parse_and n pos = Some r → n ≤ m → parse_and m pos = Some r.
Proof.
  intros. by eapply (proj1 (proj2 (proj2 (methods_stable n))) pos).
Qed.

Lemma parse_or_loop_stable n m l pos r :
  parse_or_loop n l pos = Some r → n ≤ m → parse_or_loop m l pos = Some r.
Proof.
  intros. by eapply (proj1 (proj2 (proj2 (proj2 (methods_stable n)))) l pos).
Qed.

Lemma parse_or_stable n m pos r :
  parse_or n pos = Some r → n ≤ m → parse_or m pos = Some r.
Proof.
  intros. by eapply (proj2 (proj2 (proj2 (proj2 (methods_stable n)))) pos).
Qed.

Local Abbreviation occurs_at := (occurs_at tokens).

Lemma occurs_at_cons pos t ts :
  occurs_at pos (t :: ts) → peek pos = Some t ∧ occurs_at (S pos) ts.
Proof.
  intros H. split.
  - specialize (H 0 t). rewrite Nat.add_0_r in H. by apply H.
  - intros i u Hi. specialize (H (S i) u).
    rewrite Nat.add_succ_r in H. by apply H.
Qed.

Lemma occurs_at_app pos ts1 ts2 :
  occurs_at pos (ts1 ++ ts2) →
  occurs_at pos ts1 ∧ occurs_at (pos + length ts1) ts2.
Proof.
  intros H. split; intros i u Hi.
  - apply H. by apply lookup_app_l_Some.
  - rewrite <-Nat.add_assoc. apply H.
    by rewrite lookup_app_r, Nat.add_comm, Nat.add_sub by lia.
Qed.

Lemma is_term_primary n pos t :
  is_term t → peek pos = Some t →
  parse_primary (S n) pos = Some (term_set index t, S pos).
Proof.
  unfold is_term. rewrite !not_elem_of_cons.
  intros (? & ? & ? & ? & ? & _) Hpk. rewrite parse_primary_S, Hpk.
  rewrite (consume_peek _ _ Hpk).
  rewrite decide_False, decide_False, decide_True; [done| |done..].
  rewrite !not_elem_of_cons. split_and!; [congruence..|apply not_elem_of_nil].
Qed.

Lemma and_loop_exit n l pos :
  peek pos ≠ Some AND_OP → parse_and_loop (S n) l pos = Some (l, pos).
Proof. intros. by rewrite parse_and_loop_S, decide_False. Qed.

Lemma or_loop_exit n l pos :
  peek pos ≠ Some OR_OP → parse_or_loop (S n) l pos = Some (l, pos).
Proof. intros. by rewrite parse_or_loop_S, decide_False. Qed.

(** The parser accepts the grammar, and computes the value the grammar
    gives. An [andExpr] or [orExpr] may be continued by the loop that
    reads it, so its statement is about the loop that follows. *)
Lemma parser_accepts_grammar :
  (∀ ts v, primary_val index all_doc_ids ts v →
     ∀ pos, occurs_at pos ts →
       ∃ n, parse_primary n pos = Some (v, pos + length ts)) ∧
  (∀ ts v, and_val index all_doc_ids ts v →
     ∀ pos r, occurs_at pos ts →
       (∃ n, parse_and_loop n v (pos + length ts) = Some r) →
       ∃ n, parse_and n pos = Some r) ∧
  (∀ ts v, or_val index all_doc_ids ts v →
     ∀ pos r, occurs_at pos ts →
       peek (pos + length ts) ≠ Some AND_OP →
       (∃ n, parse_or_loop n v (pos + length ts) = Some r) →
       ∃ n, parse_or n pos = Some r).
Proof.
  apply grammar_mutind.
  - intros t Ht pos [Hpk _]%occurs_at_cons. exists 1.
    rewrite (is_term_primary _ _ _ Ht Hpk). simpl. do 2 f_equal. lia.
  - intros ts v _ IH pos [Hpk [Hts Hclose]%occurs_at_app]%occurs_at_cons.
    apply occurs_at_cons in Hclose as [Hclose _].
    destruct (IH (S pos) (v, S pos + length ts)) as [n Hn]; [done|..].
    { rewrite Hclose. discriminate. }
    { exists 1. apply or_loop_exit. rewrite Hclose. discriminate. }
    exists (S n). rewrite parse_primary_S, Hpk, decide_True by done.
    rewrite (consume_peek _ _ Hpk), Hn, decide_True by done.
    rewrite (consume_peek _ _ Hclose). do 2 f_equal.
    simpl. rewrite length_app. simpl. lia.
  - intros ts v _ IH pos [Hpk Hts]%occurs_at_cons.
    destruct (IH _ Hts) as [n Hn]. exists (S n).
    rewrite parse_primary_S, Hpk, decide_False, decide_True by done.
    rewrite (consume_peek _ _ Hpk), Hn. do 2 f_equal. simpl. lia.
  - intros ts v _ IH pos r Hts [n2 Hloop].
    destruct (IH _ Hts) as [n1 Hn1]. exists (S (n1 `max` n2)).
    rewrite parse_and_S.
    rewrite (parse_primary_stable _ (n1 `max` n2) _ _ Hn1) by lia.
    apply (parse_and_loop_stable _ _ _ _ _ Hloop). lia.
  - intros ts1 v1 ts2 v2 _ IH1 _ IH2 pos r [Hts1 Hts2]%occurs_at_app
      [n3 Hloop].
    apply occurs_at_cons in Hts2 as [Hop Hts2].
    apply IH1; [done|].
    destruct (IH2 _ Hts2) as [n2 Hn2].
    exists (S (n2 `max` n3)).
    rewrite parse_and_loop_S, decide_True by done.
    rewrite (consume_peek _ _ Hop).
    rewrite (parse_primary_stable _ (n2 `max` n3) _ _ Hn2) by lia.
    rewrite length_app in Hloop. simpl in Hloop.
    replace (S (pos + length ts1) + length ts2)
      with (pos + (length ts1 + S (length ts2))) by lia.
    apply (parse_and_loop_stable _ _ _ _ _ Hloop). lia.
  - intros ts v _ IH pos r Hts Hnext [n2 Hloop].
    destruct (IH pos (v, pos + length ts) Hts) as [n1 Hn1].
    { exists 1. by apply and_loop_exit. }
    exists (S (n1 `max` n2)). rewrite parse_or_S.
    rewrite (parse_and_stable _ (n1 `max` n2) _ _ Hn1) by lia.
    apply (parse_or_loop_stable _ _ _ _ _ Hloop). lia.
  - intros ts1 v1 ts2 v2 _ IH1 _ IH2 pos r [Hts1 Hts2]%occurs_at_app
      Hnext [n3 Hloop].
    apply occurs_at_cons in Hts2 as [Hop Hts2].
    rewrite length_app in Hloop, Hnext. simpl in Hloop, Hnext.
    replace (pos + (length ts1 + S (length ts2)))
      with (S (pos + length ts1) + length ts2) in Hloop, Hnext by lia.
    apply IH1; [done|by rewrite Hop|].
    destruct (IH2 _ (v2, S (pos + length ts1) + length ts2) Hts2)
      as [n2 Hn2].
    { exists 1. by apply and_loop_exit. }
    exists (S (n2 `max` n3)).
    rewrite parse_or_loop_S, decide_True by done.
    rewrite (consume_peek _ _ Hop).
    rewrite (parse_and_stable _ (n2 `max` n3) _ _ Hn2) by lia.
    apply (parse_or_loop_stable _ _ _ _ _ Hloop). lia.
Qed.
End QueryParserFacts.

(** ** Consequences for [parse] *)

Lemma parse_stable tokens index all_doc_ids n m v :
  parse tokens index all_doc_ids n = Some v → n ≤ m →
  parse tokens index all_doc_ids m = Some v.
Proof.
  unfold parse. intros H Hm.
  destruct (parse_or _ _ _ n 0) as [r|] eqn:Hr; [|done].
  by rewrite (parse_or_stable _ _ _ _ _ _ _ Hr Hm).
Qed.

Lemma parse_returns tokens index all_doc_ids n :
  3 * length tokens + 3 ≤ n → is_Some (parse tokens index all_doc_ids n).
Proof.
  intros Hn. unfold parse. apply fmap_is_Some.
  apply (methods_return tokens index all_doc_ids n). lia.
Qed.

Lemma parses_total tokens index all_doc_ids :
  ∃ v, parses tokens index all_doc_ids v.
Proof.
  destruct (parse_returns tokens index all_doc_ids _ (le_n _)) as [v Hv].
  by exists v, (3 * length tokens + 3).
Qed.

Lemma parses_det tokens index all_doc_ids v1 v2 :
  parses tokens index all_doc_ids v1 → parses tokens index all_doc_ids v2 →
  v1 = v2.
Proof.
  intros [n1 H1] [n2 H2].
  apply (parse_stable _ _ _ _ (n1 `max` n2)) in H1, H2; [|lia..]. congruence.
Qed.

Lemma occurs_at_0 (tokens : list str) : occurs_at tokens 0 tokens.
Proof. by intros i t Hi. Qed.

Lemma or_val_parses index all_doc_ids tokens v :
  or_val index all_doc_ids tokens v → parses tokens index all_doc_ids v.
Proof.
  intros Hv.
  destruct (parser_accepts_grammar tokens index all_doc_ids) as (_ & _ & Ho).
  destruct (Ho _ _ Hv 0 (v, length tokens) (occurs_at_0 _)) as [n Hn].
  - unfold peek. simpl. by rewrite lookup_ge_None_2.
  - exists 1. apply or_loop_exit. unfold peek. simpl.
    by rewrite lookup_ge_None_2.
  - exists n. unfold parse. by rewrite Hn.
Qed.

(** Joining two expressions of the same level with that level's
    operator. *)
Lemma and_val_join index all_doc_ids ts1 v1 ts2 v2 :
  and_val index all_doc_ids ts1 v1 → and_val index all_doc_ids ts2 v2 →
  and_val index all_doc_ids (ts1 ++ AND_OP :: ts2) (v1 ∩ v2).
Proof.
  intros H1 H2. revert ts1 v1 H1.
  induction H2 as [ts v Hp|ts2 v2 ts3 v3 H2 IH H3] using and_val_ind;
    intros ts1 v1 H1.
  - by constructor.
  - replace (ts1 ++ AND_OP :: ts2 ++ AND_OP :: ts3)
      with ((ts1 ++ AND_OP :: ts2) ++ AND_OP :: ts3)
      by (by rewrite <-app_assoc).
    replace (v1 ∩ (v2 ∩ v3)) with ((v1 ∩ v2) ∩ v3)
      by (by rewrite (assoc_L (∩))).
    constructor; [by apply IH|done].
Qed.

Lemma or_val_join index all_doc_ids ts1 v1 ts2 v2 :
  or_val index all_doc_ids ts1 v1 → or_val index all_doc_ids ts2 v2 →
  or_val index all_doc_ids (ts1 ++ OR_OP :: ts2) (v1 ∪ v2).
Proof.
  intros H1 H2. revert ts1 v1 H1.
  induction H2 as [ts v Hp|ts2 v2 ts3 v3 H2 IH H3] using or_val_ind;
    intros ts1 v1 H1.
  - by constructor.
  - replace (ts1 ++ OR_OP :: ts2 ++ OR_OP :: ts3)
      with ((ts1 ++ OR_OP :: ts2) ++ OR_OP :: ts3)
      by (by rewrite <-app_assoc).
    replace (v1 ∪ (v2 ∪ v3)) with ((v1 ∪ v2) ∪ v3)
      by (by rewrite (assoc_L (∪))).
    constructor; [by apply IH|done].
Qed.

(** The shape of a query does not depend on the index it is run on. *)
Lemma grammar_any_index index all_doc_ids index' all_doc_ids' :
  (∀ ts v, primary_val index all_doc_ids ts v →
     ∃ v', primary_val index' all_doc_ids' ts v') ∧
  (∀ ts v, and_val index all_doc_ids ts v →
     ∃ v', and_val index' all_doc_ids' ts v') ∧
  (∀ ts v, or_val index all_doc_ids ts v →
     ∃ v', or_val index' all_doc_ids' ts v').
Proof.
  apply grammar_mutind.
  - intros t Ht. eexists. by constructor.
  - intros ts v _ [v' IH]. eexists. constructor. apply IH.
  - intros ts v _ [v' IH]. eexists. constructor. apply IH.
  - intros ts v _ [v' IH]. eexists. constructor. apply IH.
  - intros ts1 v1 ts2 v2 _ [v1' IH1] _ [v2' IH2]. eexists.
    constructor; [apply IH1|apply IH2].
  - intros ts v _ [v' IH]. eexists. constructor. apply IH.
  - intros ts1 v1 ts2 v2 _ [v1' IH1] _ [v2' IH2]. eexists.
    constructor; [apply IH1|apply IH2].
Qed.

(** ** Tokens the parser does not reach

    Two token lists that agree up to and including the position where a
    method stops make the method do the same. *)

Section Locality.
Context (tokens tokens' : list str).
Context (index : gmap str (gset Z)) (all_doc_ids : gset Z).

Local Abbreviation agree_upto := (agree_upto tokens tokens').

Lemma agree_upto_le p q : agree_upto p → q ≤ p → agree_upto q.
Proof. intros H Hq i Hi. apply H. lia. Qed.

Lemma agree_peek p pos :
  agree_upto p → pos ≤ p → peek tokens' pos = peek tokens pos.
Proof. intros H Hp. symmetry. by apply H. Qed.

Local Abbreviation local f f' :=
  (∀ v p, f = Some (v, p) → agree_upto p → f' = Some (v, p)).

Lemma methods_local n :
  (∀ pos, local (parse_primary tokens index all_doc_ids n pos)
                (parse_primary tokens' index all_doc_ids n pos)) ∧
  (∀ l pos, local (parse_and_loop tokens index all_doc_ids n l pos)
                  (parse_and_loop tokens' index all_doc_ids n l pos)) ∧
  (∀ pos, local (parse_and tokens index all_doc_ids n pos)
                (parse_and tokens' index all_doc_ids n pos)) ∧
  (∀ l pos, local (parse_or_loop tokens index all_doc_ids n l pos)
                  (parse_or_loop tokens' index all_doc_ids n l pos)) ∧
  (∀ pos, local (parse_or tokens index all_doc_ids n pos)
                (parse_or tokens' index all_doc_ids n pos)).
Proof.
  induction n as [|n (IHp & IHal & IHa & IHol & IHo)];
    [by split_and!; intros|].
  destruct (methods_advance tokens index all_doc_ids n)
    as (Ap & Aal & Aa & Aol & Ao).
  destruct (methods_advance tokens index all_doc_ids (S n))
    as (Ap' & Aal' & Aa' & Aol' & Ao').
  split_and!;
    [intros pos v p Hr Hag|intros l pos v p Hr Hag|intros pos v p Hr Hag
    |intros l pos v p Hr Hag|intros pos v p Hr Hag].
  - pose proof (Ap' _ _ _ Hr) as [Hle _].
    rewrite parse_primary_S in *. rewrite (agree_peek p) by done.
    destruct (peek tokens pos) as [t|] eqn:Hpk; [|done].
    assert (Hpk' : peek tokens' pos = Some t)
      by (by rewrite (agree_peek p)).
    rewrite (consume_peek _ _ _ Hpk) in Hr. rewrite (consume_peek _ _ _ Hpk').
    repeat case_decide; try done.
    + destruct (parse_or tokens _ _ n (S pos)) as [[s q]|] eqn:Hs; [|done].
      pose proof (Ao _ _ _ Hs) as [Hq _].
      assert (q ≤ p).
      { case_decide as Hc; simplify_eq; [|done].
        rewrite (consume_peek _ _ _ Hc). lia. }
      rewrite (IHo _ _ _ Hs) by (by eapply agree_upto_le).
      rewrite (agree_peek p) by done.
      case_decide as Hc; simplify_eq; [|done].
      assert (Hc' : peek tokens' q = Some RPAREN_TOK).
      { rewrite (agree_peek (consume tokens q)); [done..|].
        rewrite (consume_peek _ _ _ Hc). lia. }
      by rewrite (consume_peek _ _ _ Hc), (consume_peek _ _ _ Hc').
    + destruct (parse_primary tokens _ _ n (S pos)) as [[s q]|] eqn:Hs;
        [|done].
      simplify_eq. by rewrite (IHp _ _ _ Hs).
  - pose proof (Aal' _ _ _ _ Hr) as [Hle _].
    rewrite parse_and_loop_S in *. rewrite (agree_peek p) by done.
    case_decide as Hpk; [|done].
    assert (Hpk' : peek tokens' pos = Some AND_OP)
      by (by rewrite (agree_peek p)).
    rewrite (consume_peek _ _ _ Hpk) in Hr. rewrite (consume_peek _ _ _ Hpk').
    destruct (parse_primary tokens _ _ n (S pos)) as [[s q]|] eqn:Hs;
      [|done].
    pose proof (Aal _ _ _ _ Hr) as [Hq _].
    rewrite (IHp _ _ _ Hs) by (by eapply agree_upto_le). by apply IHal.
  - rewrite parse_and_S in *.
    destruct (parse_primary tokens _ _ n pos) as [[s q]|] eqn:Hs; [|done].
    pose proof (Aal _ _ _ _ Hr) as [Hq _].
    rewrite (IHp _ _ _ Hs) by (by eapply agree_upto_le). by apply IHal.
  - pose proof (Aol' _ _ _ _ Hr) as [Hle _].
    rewrite parse_or_loop_S in *. rewrite (agree_peek p) by done.
    case_decide as Hpk; [|done].
    assert (Hpk' : peek tokens' pos = Some OR_OP)
      by (by rewrite (agree_peek p)).
    rewrite (consume_peek _ _ _ Hpk) in Hr. rewrite (consume_peek _ _ _ Hpk').
    destruct (parse_and tokens _ _ n (S pos)) as [[s q]|] eqn:Hs; [|done].
    pose proof (Aol _ _ _ _ Hr) as [Hq _].
    rewrite (IHa _ _ _ Hs) by (by eapply agree_upto_le). by apply IHol.
  - rewrite parse_or_S in *.
    destruct (parse_and tokens _ _ n pos) as [[s q]|] eqn:Hs; [|done].
    pose proof (Aol _ _ _ _ Hr) as [Hq _].
    rewrite (IHa _ _ _ Hs) by (by eapply agree_upto_le). by apply IHol.
Qed.
End Locality.

(** ** A closing parenthesis at the end of the input

    With one more [")"] after the last token every method returns the
    same set; only the final position may differ, by that token. *)

Section ImplicitClose.
Context (tokens : list str).
Context (index : gmap str (gset Z)) (all_doc_ids : gset Z).

Local Abbreviation tokens' := (tokens ++ [RPAREN_TOK]).

Local Abbreviation same_place := (same_place tokens).

Lemma peek_same_place p p' :
  same_place p p' →
  (p' = p ∧ p < length tokens ∧ peek tokens' p = peek tokens p ∧
     is_Some (peek tokens p)) ∨
  (p' = p ∧ p = length tokens ∧ peek tokens p = None ∧
     peek tokens' p' = Some RPAREN_TOK) ∨
  (p = length tokens ∧ p' = S p ∧ peek tokens p = None ∧
     peek tokens' p' = None).
Proof.
  unfold peek. intros [[-> Hp]|[-> ->]].
  - destruct (decide (p' < length tokens)).
    + left. split_and!; [done..| |by apply lookup_lt_is_Some].
      by rewrite lookup_app_l.
    + right; left. assert (p' = length tokens) as -> by lia.
      split_and!; [done..|by apply lookup_ge_None|].
      by rewrite lookup_app_r, Nat.sub_diag.
  - right; right. split_and!; [done..|by apply lookup_ge_None|].
    apply lookup_ge_None. rewrite length_app. simpl. lia.
Qed.

Local Abbreviation close f f' :=
  (∀ v p, f = Some (v, p) → ∃ p', f' = Some (v, p') ∧ same_place p p').

Lemma methods_close n :
  (∀ pos pos', same_place pos pos' →
     close (parse_primary tokens index all_doc_ids n pos)
           (parse_primary tokens' index all_doc_ids n pos')) ∧
  (∀ l pos pos', same_place pos pos' →
     close (parse_and_loop tokens index all_doc_ids n l pos)
           (parse_and_loop tokens' index all_doc_ids n l pos')) ∧
  (∀ pos pos', same_place pos pos' →
     close (parse_and tokens index all_doc_ids n pos)
           (parse_and tokens' index all_doc_ids n pos')) ∧
  (∀ l pos pos', same_place pos pos' →
     close (parse_or_loop tokens index all_doc_ids n l pos)
           (parse_or_loop tokens' index all_doc_ids n l pos')) ∧
  (∀ pos pos', same_place pos pos' →
     close (parse_or tokens index all_doc_ids n pos)
           (parse_or tokens' index all_doc_ids n pos')).
Proof.
  induction n as [|n (IHp & IHal & IHa & IHol & IHo)];
    [by split_and!; intros|].
  assert (Hnext : ∀ pos t, peek tokens pos = Some t →
            same_place (S pos) (S pos)).
  { intros pos t Hpk%peek_Some_lt. left. split; [done|lia]. }
  split_and!;
    [intros pos pos' HR v p Hr|intros l pos pos' HR v p Hr
    |intros pos pos' HR v p Hr|intros l pos pos' HR v p Hr
    |intros pos pos' HR v p Hr].
  - rewrite parse_primary_S in *.
    destruct (peek_same_place _ _ HR)
      as [(-> & Hlt & Hpk' & [t Hpk])|[(-> & -> & Hpk & Hpk')
         |(-> & -> & Hpk & Hpk')]].
    2,3: rewrite Hpk in Hr; rewrite Hpk'; simplify_eq;
         eexists; split; [done|done].
    rewrite Hpk in Hpk'. rewrite Hpk in Hr. rewrite Hpk'.
    rewrite (consume_peek _ _ _ Hpk) in Hr.
    rewrite (consume_peek _ _ _ Hpk').
    repeat case_decide; simplify_eq.
    + destruct (parse_or tokens _ _ n (S pos)) as [[s q]|] eqn:Hs; [|done].
      destruct (IHo _ _ (Hnext _ _ Hpk) _ _ Hs) as (q' & -> & HRq).
      destruct (peek_same_place _ _ HRq)
        as [(-> & Hqlt & Hq' & [u Hq])|[(-> & -> & Hq & Hq')
           |(-> & -> & Hq & Hq')]].
      * rewrite Hq in Hq'. rewrite Hq'. rewrite Hq in Hr.
        case_decide; simplify_eq.
        -- rewrite (consume_peek _ _ _ Hq), (consume_peek _ _ _ Hq').
           eexists; split; [done|]. by eapply Hnext.
        -- eexists; split; [done|]. left. split; [done|lia].
      * rewrite Hq in Hr. rewrite Hq'. rewrite decide_True by done.
        rewrite decide_False in Hr by done. simplify_eq.
        rewrite (consume_peek _ _ _ Hq'). eexists; split; [done|].
        by right.
      * rewrite Hq in Hr. rewrite Hq'.
        rewrite decide_False in Hr by done. rewrite decide_False by done.
        simplify_eq. eexists; split; [done|]. by right.
    + destruct (parse_primary tokens _ _ n (S pos)) as [[s q]|] eqn:Hs;
        [|done].
      destruct (IHp _ _ (Hnext _ _ Hpk) _ _ Hs) as (q' & -> & HRq).
      simplify_eq. by eexists.
    + eexists; split; [done|]. by eapply Hnext.
    + eexists; split; [done|]. left. split; [done|lia].
  - rewrite parse_and_loop_S in *.
    destruct (peek_same_place _ _ HR)
      as [(-> & Hlt & Hpk' & [t Hpk])|[(-> & -> & Hpk & Hpk')
         |(-> & -> & Hpk & Hpk')]].
    2,3: rewrite Hpk in Hr; rewrite Hpk';
         rewrite decide_False in Hr by done; rewrite decide_False by done;
         simplify_eq; eexists; split; [done|done].
    rewrite Hpk in Hpk'. rewrite Hpk in Hr. rewrite Hpk'.
    case_decide; simplify_eq; [|by eexists].
    rewrite (consume_peek _ _ _ Hpk) in Hr.
    rewrite (consume_peek _ _ _ Hpk').
    destruct (parse_primary tokens _ _ n (S pos)) as [[s q]|] eqn:Hs;
      [|done].
    destruct (IHp _ _ (Hnext _ _ Hpk) _ _ Hs) as (q' & -> & HRq).
    by apply (IHal _ _ _ HRq).
  - rewrite parse_and_S in *.
    destruct (parse_primary tokens _ _ n pos) as [[s q]|] eqn:Hs; [|done].
    destruct (IHp _ _ HR _ _ Hs) as (q' & -> & HRq).
    by apply (IHal _ _ _ HRq).
  - rewrite parse_or_loop_S in *.
    destruct (peek_same_place _ _ HR)
      as [(-> & Hlt & Hpk' & [t Hpk])|[(-> & -> & Hpk & Hpk')
         |(-> & -> & Hpk & Hpk')]].
    2,3: rewrite Hpk in Hr; rewrite Hpk';
         rewrite decide_False in Hr by done; rewrite decide_False by done;
         simplify_eq; eexists; split; [done|done].
    rewrite Hpk in Hpk'. rewrite Hpk in Hr. rewrite Hpk'.
    case_decide; simplify_eq; [|by eexists].
    rewrite (consume_peek _ _ _ Hpk) in Hr.
    rewrite (consume_peek _ _ _ Hpk').
    destruct (parse_and tokens _ _ n (S pos)) as [[s q]|] eqn:Hs; [|done].
    destruct (IHa _ _ (Hnext _ _ Hpk) _ _ Hs) as (q' & -> & HRq).
    by apply (IHol _ _ _ HRq).
  - rewrite parse_or_S in *.
    destruct (parse_and tokens _ _ n pos) as [[s q]|] eqn:Hs; [|done].
    destruct (IHa _ _ HR _ _ Hs) as (q' & -> & HRq).
    by apply (IHol _ _ _ HRq).
Qed.

Lemma parses_close v :
  parses tokens index all_doc_ids v ↔ parses tokens' index all_doc_ids v.
Proof.
  assert (Hfwd : ∀ v, parses tokens index all_doc_ids v →
            parses tokens' index all_doc_ids v).
  { intros w [n Hn]. exists n. unfold parse in *.
    destruct (parse_or tokens _ _ n 0) as [[s q]|] eqn:Hs; [|done].
    destruct (methods_close n) as (_ & _ & _ & _ & Ho).
    destruct (Ho 0 0) with (v := s) (p := q) as (q' & -> & _); [|done..].
    left. split; [done|lia]. }
  split; [apply Hfwd|]. intros Hv.
  destruct (parses_total tokens index all_doc_ids) as [w Hw].
  by rewrite (parses_det _ _ _ _ _ Hv (Hfwd _ Hw)).
Qed.
End ImplicitClose.

(** ** Statements about the parser *)

Lemma boolean_search_parse ucd n query_str index all_doc_ids :
  3 ≤ n →
  boolean_search ucd n query_str index all_doc_ids =
  parse (tokenize_query ucd query_str) index all_doc_ids n.
Proof.
  intros Hn. unfold boolean_search.
  destruct (tokenize_query ucd query_str) eqn:Ht; [|done].
  destruct n as [|[|[|n]]]; [lia..|]. reflexivity.
Qed.

Lemma searches_parses ucd index all_doc_ids query_str v :
  searches ucd index all_doc_ids query_str v ↔
  parses (tokenize_query ucd query_str) index all_doc_ids v.
Proof.
  split; intros [n Hn].
  - exists (n `max` 3). rewrite <-boolean_search_parse by lia.
    unfold boolean_search in *.
    destruct (tokenize_query ucd query_str); [done|].
    apply (parse_stable _ _ _ _ _ _ Hn). lia.
  - exists (n `max` 3). rewrite boolean_search_parse by lia.
    apply (parse_stable _ _ _ _ _ _ Hn). lia.
Qed.

(** ** The parser under the recursion limit *)

Lemma nesting_drop_le (ts : list str) pos pos' :
  pos ≤ pos' → nesting (drop pos' ts) ≤ nesting (drop pos ts).
Proof.
  revert pos pos'. induction ts as [|t ts IH]; intros pos pos' Hle.
  - by rewrite !drop_nil.
  - destruct pos as [|pos], pos' as [|pos']; [done| |lia|].
    + rewrite drop_0. simpl.
      specialize (IH 0 pos' ltac:(lia)). rewrite drop_0 in IH. lia.
    + simpl. apply IH. lia.
Qed.

Lemma nesting_peek (ts : list str) pos t :
  peek ts pos = Some t →
  nesting (drop pos ts) =
  (if decide (t = LPAREN_TOK) then 3
   else if decide (t = NOT_OP) then 1 else 0) + nesting (drop (S pos) ts).
Proof. intros Hpk. by rewrite (drop_S _ _ _ Hpk). Qed.

Lemma nesting_app (ts us : list str) :
  nesting (ts ++ us) = nesting ts + nesting us.
Proof. induction ts as [|t ts IH]; simpl; [done|]. rewrite IH. lia. Qed.

Section FramesFacts.
Context (tokens : list str) (index : gmap str (gset Z)) (all_doc_ids : gset Z).

Local Abbreviation peek := (peek tokens).
Local Abbreviation consume := (consume tokens).
Local Abbreviation parse_primary := (parse_primary tokens index all_doc_ids).
Local Abbreviation parse_and_loop := (parse_and_loop tokens index all_doc_ids).
Local Abbreviation parse_and := (parse_and tokens index all_doc_ids).
Local Abbreviation parse_or_loop := (parse_or_loop tokens index all_doc_ids).
Local Abbreviation parse_or := (parse_or tokens index all_doc_ids).
Local Abbreviation primary := (Frames.parse_primary tokens index all_doc_ids).
Local Abbreviation and_loop := (Frames.parse_and_loop tokens).
Local Abbreviation and_ := (Frames.parse_and tokens index all_doc_ids).
Local Abbreviation or_loop := (Frames.parse_or_loop tokens).
Local Abbreviation or_ := (Frames.parse_or tokens index all_doc_ids).
Local Abbreviation Returns := Frames.Returns.
Local Abbreviation RecursionError := Frames.RecursionError.

Lemma frames_primary_S depth pos :
  primary (S depth) pos =
  match peek pos with
  | None => Returns (∅, pos)
  | Some t =>
      if decide (t = LPAREN_TOK) then
        match or_ depth (consume pos) with
        | RecursionError => RecursionError
        | Returns (s, pos) =>
            if decide (peek pos = Some RPAREN_TOK)
            then Returns (s, consume pos)
            else Returns (s, pos)
        end
      else if decide (t = NOT_OP) then
        match primary depth (consume pos) with
        | RecursionError => RecursionError
        | Returns (inner, pos) => Returns (all_doc_ids ∖ inner, pos)
        end
      else if decide (Some t ∉ [Some AND_OP; Some OR_OP; Some RPAREN_TOK; None])
      then Returns (term_set index t, consume pos)
      else Returns (∅, pos)
  end.
Proof. reflexivity. Qed.

Lemma frames_and_S depth pos :
  and_ (S depth) pos =
  match primary depth pos with
  | RecursionError => RecursionError
  | Returns (left_, pos) => and_loop (primary depth) (length tokens) left_ pos
  end.
Proof. reflexivity. Qed.

Lemma frames_or_S depth pos :
  or_ (S depth) pos =
  match and_ depth pos with
  | RecursionError => RecursionError
  | Returns (left_, pos) => or_loop (and_ depth) (length tokens) left_ pos
  end.
Proof. reflexivity. Qed.

Lemma frames_and_loop_S f k left_ pos :
  and_loop f (S k) left_ pos =
  if decide (peek pos = Some AND_OP) then
    match f (consume pos) with
    | RecursionError => RecursionError
    | Returns (right_, pos) => and_loop f k (left_ ∩ right_) pos
    end
  else Returns (left_, pos).
Proof. reflexivity. Qed.

Lemma frames_or_loop_S f k left_ pos :
  or_loop f (S k) left_ pos =
  if decide (peek pos = Some OR_OP) then
    match f (consume pos) with
    | RecursionError => RecursionError
    | Returns (right_, pos) => or_loop f k (left_ ∪ right_) pos
    end
  else Returns (left_, pos).
Proof. reflexivity. Qed.

Lemma peek_end pos : length tokens - pos ≤ 0 → peek pos = None.
Proof. intros H. apply lookup_ge_None. lia. Qed.

(** *** A call that returns under the limit returns what the method
    returns *)

Lemma frames_and_loop_sound f :
  (∀ pos r, f pos = Returns r → ∃ n, parse_primary n pos = Some r) →
  ∀ k l pos r, length tokens - pos ≤ k →
    and_loop f k l pos = Returns r → ∃ n, parse_and_loop n l pos = Some r.
Proof.
  intros Hf. induction k as [|k IH]; intros l pos r Hk Hr.
  - simpl in Hr. simplify_eq. exists 1.
    rewrite parse_and_loop_S, decide_False; [done|].
    by rewrite (peek_end pos Hk).
  - rewrite frames_and_loop_S in Hr. case_decide as Hpk.
    + destruct (f (consume pos)) as [[right_ p]|] eqn:Hs; [|done].
      destruct (Hf _ _ Hs) as [n1 Hn1].
      pose proof (proj1 (methods_advance tokens index all_doc_ids n1)
                    _ _ _ Hn1) as [Hadv _].
      rewrite (consume_peek _ _ _ Hpk) in Hadv.
      destruct (IH _ p _ ltac:(lia) Hr) as [n2 Hn2].
      exists (S (n1 `max` n2)).
      rewrite parse_and_loop_S, decide_True by done.
      rewrite (parse_primary_stable _ _ _ _ (n1 `max` n2) _ _ Hn1) by lia.
      apply (parse_and_loop_stable _ _ _ _ _ _ _ _ Hn2). lia.
    + simplify_eq. exists 1. by rewrite parse_and_loop_S, decide_False.
Qed.

Lemma frames_or_loop_sound f :
  (∀ pos r, f pos = Returns r → ∃ n, parse_and n pos = Some r) →
  ∀ k l pos r, length tokens - pos ≤ k →
    or_loop f k l pos = Returns r → ∃ n, parse_or_loop n l pos = Some r.
Proof.
  intros Hf. induction k as [|k IH]; intros l pos r Hk Hr.
  - simpl in Hr. simplify_eq. exists 1.
    rewrite parse_or_loop_S, decide_False; [done|].
    by rewrite (peek_end pos Hk).
  - rewrite frames_or_loop_S in Hr. case_decide as Hpk.
    + destruct (f (consume pos)) as [[right_ p]|] eqn:Hs; [|done].
      destruct (Hf _ _ Hs) as [n1 Hn1].
      pose proof (proj1 (proj2 (proj2
        (methods_advance tokens index all_doc_ids n1))) _ _ _ Hn1)
        as [Hadv _].
      rewrite (consume_peek _ _ _ Hpk) in Hadv.
      destruct (IH _ p _ ltac:(lia) Hr) as [n2 Hn2].
      exists (S (n1 `max` n2)).
      rewrite parse_or_loop_S, decide_True by done.
      rewrite (parse_and_stable _ _ _ _ (n1 `max` n2) _ _ Hn1) by lia.
      apply (parse_or_loop_stable _ _ _ _ _ _ _ _ Hn2). lia.
    + simplify_eq. exists 1. by rewrite parse_or_loop_S, decide_False.
Qed.

Lemma frames_sound depth :
  (∀ pos r, primary depth pos = Returns r →
     ∃ n, parse_primary n pos = Some r) ∧
  (∀ pos r, and_ depth pos = Returns r → ∃ n, parse_and n pos = Some r) ∧
  (∀ pos r, or_ depth pos = Returns r → ∃ n, parse_or n pos = Some r).
Proof.
  induction depth as [|d (IHp & IHa & IHo)]; [by split_and!|].
  split_and!; intros pos r Hr.
  - rewrite frames_primary_S in Hr.
    destruct (peek pos) as [t|] eqn:Hpk.
    2: { simplify_eq. exists 1. by rewrite parse_primary_S, Hpk. }
    repeat case_decide.
    + destruct (or_ d (consume pos)) as [[s q]|] eqn:Hs; [|done].
      destruct (IHo _ _ Hs) as [n Hn]. exists (S n).
      rewrite parse_primary_S, Hpk, decide_True, Hn by done.
      by repeat case_decide; simplify_eq.
    + destruct (primary d (consume pos)) as [[s q]|] eqn:Hs; [|done].
      destruct (IHp _ _ Hs) as [n Hn]. exists (S n). simplify_eq.
      rewrite parse_primary_S, Hpk, decide_False, decide_True by done.
      by rewrite Hn.
    + simplify_eq. exists 1.
      rewrite parse_primary_S, Hpk. by repeat case_decide.
    + simplify_eq. exists 1.
      rewrite parse_primary_S, Hpk. by repeat case_decide.
  - rewrite frames_and_S in Hr.
    destruct (primary d pos) as [[s q]|] eqn:Hs; [|done].
    destruct (IHp _ _ Hs) as [n1 Hn1].
    destruct (frames_and_loop_sound _ IHp (length tokens) s q r ltac:(lia) Hr)
      as [n2 Hn2].
    exists (S (n1 `max` n2)). rewrite parse_and_S.
    rewrite (parse_primary_stable _ _ _ _ (n1 `max` n2) _ _ Hn1) by lia.
    apply (parse_and_loop_stable _ _ _ _ _ _ _ _ Hn2). lia.
  - rewrite frames_or_S in Hr.
    destruct (and_ d pos) as [[s q]|] eqn:Hs; [|done].
    destruct (IHa _ _ Hs) as [n1 Hn1].
    destruct (frames_or_loop_sound _ IHa (length tokens) s q r ltac:(lia) Hr)
      as [n2 Hn2].
    exists (S (n1 `max` n2)). rewrite parse_or_S.
    rewrite (parse_and_stable _ _ _ _ (n1 `max` n2) _ _ Hn1) by lia.
    apply (parse_or_loop_stable _ _ _ _ _ _ _ _ Hn2). lia.
Qed.

(** No method moves the position back. *)
Lemma frames_forward depth :
  forward (primary depth) ∧ forward (and_ depth) ∧ forward (or_ depth).
Proof.
  destruct (frames_sound depth) as (Hp & Ha & Ho).
  split_and!; intros pos v pos' Hr.
  - destruct (Hp _ _ Hr) as [n Hn].
    by apply (methods_advance tokens index all_doc_ids n) in Hn as [? _].
  - destruct (Ha _ _ Hr) as [n Hn].
    by apply (methods_advance tokens index all_doc_ids n) in Hn as [? _].
  - destruct (Ho _ _ Hr) as [n Hn].
    by apply (methods_advance tokens index all_doc_ids n) in Hn as [? _].
Qed.
(** *** The iteration bound of the loops is never reached *)

Lemma frames_and_loop_bound f k k' l pos :
  forward f → length tokens - pos ≤ k → length tokens - pos ≤ k' →
  and_loop f k l pos = and_loop f k' l pos.
Proof.
  intros Hf. revert k' l pos.
  induction k as [|k IH]; intros [|k'] l pos Hk Hk'; [done| | |].
  - rewrite frames_and_loop_S, decide_False; [done|].
    by rewrite (peek_end pos Hk).
  - rewrite frames_and_loop_S, decide_False; [done|].
    by rewrite (peek_end pos Hk').
  - rewrite !frames_and_loop_S. case_decide as Hpk; [|done].
    destruct (f (consume pos)) as [[right_ p]|] eqn:Hs; [|done].
    apply Hf in Hs. rewrite (consume_peek _ _ _ Hpk) in Hs.
    apply IH; lia.
Qed.

Lemma frames_or_loop_bound f k k' l pos :
  forward f → length tokens - pos ≤ k → length tokens - pos ≤ k' →
  or_loop f k l pos = or_loop f k' l pos.
Proof.
  intros Hf. revert k' l pos.
  induction k as [|k IH]; intros [|k'] l pos Hk Hk'; [done| | |].
  - rewrite frames_or_loop_S, decide_False; [done|].
    by rewrite (peek_end pos Hk).
  - rewrite frames_or_loop_S, decide_False; [done|].
    by rewrite (peek_end pos Hk').
  - rewrite !frames_or_loop_S. case_decide as Hpk; [|done].
    destruct (f (consume pos)) as [[right_ p]|] eqn:Hs; [|done].
    apply Hf in Hs. rewrite (consume_peek _ _ _ Hpk) in Hs.
    apply IH; lia.
Qed.

(** *** A higher limit changes no result *)

Lemma frames_and_loop_mono f f' k l pos r :
  (∀ pos r, f pos = Returns r → f' pos = Returns r) →
  and_loop f k l pos = Returns r → and_loop f' k l pos = Returns r.
Proof.
  intros Hf. revert l pos. induction k as [|k IH]; intros l pos Hr; [done|].
  rewrite frames_and_loop_S in *. case_decide; [|done].
  destruct (f (consume pos)) as [[right_ p]|] eqn:Hs; [|done].
  rewrite (Hf _ _ Hs). by apply IH.
Qed.

Lemma frames_or_loop_mono f f' k l pos r :
  (∀ pos r, f pos = Returns r → f' pos = Returns r) →
  or_loop f k l pos = Returns r → or_loop f' k l pos = Returns r.
Proof.
  intros Hf. revert l pos. induction k as [|k IH]; intros l pos Hr; [done|].
  rewrite frames_or_loop_S in *. case_decide; [|done].
  destruct (f (consume pos)) as [[right_ p]|] eqn:Hs; [|done].
  rewrite (Hf _ _ Hs). by apply IH.
Qed.

Lemma frames_mono depth :
  (∀ depth' pos r, depth ≤ depth' →
     primary depth pos = Returns r → primary depth' pos = Returns r) ∧
  (∀ depth' pos r, depth ≤ depth' →
     and_ depth pos = Returns r → and_ depth' pos = Returns r) ∧
  (∀ depth' pos r, depth ≤ depth' →
     or_ depth pos = Returns r → or_ depth' pos = Returns r).
Proof.
  induction depth as [|d (IHp & IHa & IHo)]; [by split_and!|].
  split_and!; (intros [|d'] pos r Hd Hr; [lia|]).
  - rewrite frames_primary_S in *.
    destruct (peek pos) as [t|]; [|done].
    repeat case_decide; try done.
    + destruct (or_ d (consume pos)) as [[s q]|] eqn:Hs; [|done].
      by rewrite (IHo d' _ _ ltac:(lia) Hs).
    + destruct (primary d (consume pos)) as [[s q]|] eqn:Hs; [|done].
      by rewrite (IHp d' _ _ ltac:(lia) Hs).
  - rewrite frames_and_S in *.
    destruct (primary d pos) as [[s q]|] eqn:Hs; [|done].
    rewrite (IHp d' _ _ ltac:(lia) Hs).
    apply (frames_and_loop_mono (primary d)); [|done].
    intros. apply (IHp d'); [lia|done].
  - rewrite frames_or_S in *.
    destruct (and_ d pos) as [[s q]|] eqn:Hs; [|done].
    rewrite (IHa d' _ _ ltac:(lia) Hs).
    apply (frames_or_loop_mono (and_ d)); [|done].
    intros. apply (IHa d'); [lia|done].
Qed.

(** *** The limit that is enough for given tokens *)

Local Abbreviation need pos := (nesting (drop pos tokens)).

Lemma frames_complete n :
  (∀ pos r depth, parse_primary n pos = Some r → need pos + 1 ≤ depth →
     primary depth pos = Returns r) ∧
  (∀ l pos r depth k, parse_and_loop n l pos = Some r →
     need pos + 1 ≤ depth → length tokens - pos ≤ k →
     and_loop (primary depth) k l pos = Returns r) ∧
  (∀ pos r depth, parse_and n pos = Some r → need pos + 2 ≤ depth →
     and_ depth pos = Returns r) ∧
  (∀ l pos r depth k, parse_or_loop n l pos = Some r →
     need pos + 2 ≤ depth → length tokens - pos ≤ k →
     or_loop (and_ depth) k l pos = Returns r) ∧
  (∀ pos r depth, parse_or n pos = Some r → need pos + 3 ≤ depth →
     or_ depth pos = Returns r).
Proof.
  induction n as [|n (IHp & IHal & IHa & IHol & IHo)]; [by split_and!|].
  destruct (methods_advance tokens index all_doc_ids n) as (Ap & _ & Aa & _).
  split_and!.
  - intros pos r [|d] Hr Hd; [lia|].
    rewrite parse_primary_S in Hr. rewrite frames_primary_S.
    destruct (peek pos) as [t|] eqn:Hpk; [|by simplify_eq].
    rewrite (nesting_peek _ _ _ Hpk) in Hd.
    rewrite (consume_peek _ _ _ Hpk) in *.
    repeat case_decide; simplify_eq; try done.
    + destruct (parse_or n (S pos)) as [[s q]|] eqn:Hs; [|done].
      rewrite (IHo _ _ d Hs) by lia.
      by repeat case_decide; simplify_eq.
    + destruct (parse_primary n (S pos)) as [[s q]|] eqn:Hs; [|done].
      rewrite (IHp _ _ d Hs) by lia. by simplify_eq.
  - intros l pos r d k Hr Hd Hk.
    rewrite parse_and_loop_S in Hr. destruct k as [|k].
    { rewrite decide_False in Hr by (by rewrite (peek_end pos Hk)).
      by simplify_eq. }
    rewrite frames_and_loop_S. case_decide as Hpk; [|by simplify_eq].
    rewrite (consume_peek _ _ _ Hpk) in *.
    destruct (parse_primary n (S pos)) as [[s q]|] eqn:Hs; [|done].
    pose proof (nesting_drop_le tokens pos (S pos) ltac:(lia)).
    rewrite (IHp _ _ d Hs) by lia.
    apply Ap in Hs as [Hq _].
    pose proof (nesting_drop_le tokens pos q ltac:(lia)).
    apply IHal; [done|lia..].
  - intros pos r [|d] Hr Hd; [lia|].
    rewrite parse_and_S in Hr. rewrite frames_and_S.
    destruct (parse_primary n pos) as [[s q]|] eqn:Hs; [|done].
    rewrite (IHp _ _ d Hs) by lia.
    apply Ap in Hs as [Hq _].
    pose proof (nesting_drop_le tokens pos q ltac:(lia)).
    apply IHal; [done|lia..].
  - intros l pos r d k Hr Hd Hk.
    rewrite parse_or_loop_S in Hr. destruct k as [|k].
    { rewrite decide_False in Hr by (by rewrite (peek_end pos Hk)).
      by simplify_eq. }
    rewrite frames_or_loop_S. case_decide as Hpk; [|by simplify_eq].
    rewrite (consume_peek _ _ _ Hpk) in *.
    destruct (parse_and n (S pos)) as [[s q]|] eqn:Hs; [|done].
    pose proof (nesting_drop_le tokens pos (S pos) ltac:(lia)).
    rewrite (IHa _ _ d Hs) by lia.
    apply Aa in Hs as [Hq _].
    pose proof (nesting_drop_le tokens pos q ltac:(lia)).
    apply IHol; [done|lia..].
  - intros pos r [|d] Hr Hd; [lia|].
    rewrite parse_or_S in Hr. rewrite frames_or_S.
    destruct (parse_and n pos) as [[s q]|] eqn:Hs; [|done].
    rewrite (IHa _ _ d Hs) by lia.
    apply Aa in Hs as [Hq _].
    pose proof (nesting_drop_le tokens pos q ltac:(lia)).
    apply IHol; [done|lia..].
Qed.


End FramesFacts.
(** *** A closing parenthesis at the end of the input, under the limit

    With one more [")"] after the last token every method does the same
    at every depth: it returns the same set, or [RecursionError] is
    raised in both. *)

Section FramesClose.
Context (tokens : list str).
Context (index : gmap str (gset Z)) (all_doc_ids : gset Z).

Local Abbreviation tokens' := (tokens ++ [RPAREN_TOK]).
Local Abbreviation same_place := (same_place tokens).
Local Abbreviation Returns := Frames.Returns.
Local Abbreviation RecursionError := Frames.RecursionError.

Local Abbreviation alike o o' :=
  (match o, o' with
   | Returns (v, p), Returns (v', p') => v = v' ∧ same_place p p'
   | RecursionError, RecursionError => True
   | _, _ => False
   end).

Lemma frames_and_loop_close f f' :
  (∀ q q', same_place q q' → alike (f q) (f' q')) → forward f →
  ∀ k k' l pos pos', same_place pos pos' →
    length tokens - pos ≤ k → S (length tokens) - pos' ≤ k' →
    alike (Frames.parse_and_loop tokens f k l pos)
          (Frames.parse_and_loop tokens' f' k' l pos').
Proof.
  intros Hff Hf. induction k as [|k IH]; intros k' l pos pos' HR Hk Hk'.
  - assert (pos = length tokens) as ->
      by (destruct HR as [[? ?]|[? ?]]; lia).
    simpl. destruct k' as [|k'].
    { simpl. split; [done|]. destruct HR as [[<- ?]|[_ ->]]; [by left|by right]. }
    rewrite frames_and_loop_S.
    destruct (peek_same_place _ _ _ HR)
      as [(-> & Hlt & _)|[(-> & _ & Hpk & Hpk')|(_ & -> & Hpk & Hpk')]];
      [lia|..]; rewrite Hpk'; rewrite decide_False by done; by split.
  - rewrite frames_and_loop_S.
    destruct (peek_same_place _ _ _ HR)
      as [(-> & Hlt & Hpk' & [t Hpk])|[(-> & -> & Hpk & Hpk')
         |(-> & -> & Hpk & Hpk')]].
    2,3: rewrite Hpk; rewrite decide_False by done;
         (destruct k' as [|k']; [by split|]);
         rewrite frames_and_loop_S, Hpk'; rewrite decide_False by done;
         by split.
    destruct k' as [|k']; [lia|]. rewrite frames_and_loop_S.
    rewrite Hpk in Hpk'. rewrite Hpk, Hpk'.
    case_decide; [|split; [done|by left; split; [|lia]]].
    rewrite (consume_peek _ _ _ Hpk), (consume_peek _ _ _ Hpk').
    assert (same_place (S pos) (S pos)) as Hnext by (left; split; [done|lia]).
    specialize (Hff _ _ Hnext).
    destruct (f (S pos)) as [[s q]|] eqn:Hs, (f' (S pos)) as [[s' q']|];
      try done.
    destruct Hff as [<- HRq]. apply Hf in Hs.
    apply IH; [done|lia|].
    destruct HRq as [[<- ?]|[-> ->]]; lia.
Qed.

Lemma frames_or_loop_close f f' :
  (∀ q q', same_place q q' → alike (f q) (f' q')) → forward f →
  ∀ k k' l pos pos', same_place pos pos' →
    length tokens - pos ≤ k → S (length tokens) - pos' ≤ k' →
    alike (Frames.parse_or_loop tokens f k l pos)
          (Frames.parse_or_loop tokens' f' k' l pos').
Proof.
  intros Hff Hf. induction k as [|k IH]; intros k' l pos pos' HR Hk Hk'.
  - assert (pos = length tokens) as ->
      by (destruct HR as [[? ?]|[? ?]]; lia).
    simpl. destruct k' as [|k'].
    { simpl. split; [done|]. destruct HR as [[<- ?]|[_ ->]]; [by left|by right]. }
    rewrite frames_or_loop_S.
    destruct (peek_same_place _ _ _ HR)
      as [(-> & Hlt & _)|[(-> & _ & Hpk & Hpk')|(_ & -> & Hpk & Hpk')]];
      [lia|..]; rewrite Hpk'; rewrite decide_False by done; by split.
  - rewrite frames_or_loop_S.
    destruct (peek_same_place _ _ _ HR)
      as [(-> & Hlt & Hpk' & [t Hpk])|[(-> & -> & Hpk & Hpk')
         |(-> & -> & Hpk & Hpk')]].
    2,3: rewrite Hpk; rewrite decide_False by done;
         (destruct k' as [|k']; [by split|]);
         rewrite frames_or_loop_S, Hpk'; rewrite decide_False by done;
         by split.
    destruct k' as [|k']; [lia|]. rewrite frames_or_loop_S.
    rewrite Hpk in Hpk'. rewrite Hpk, Hpk'.
    case_decide; [|split; [done|by left; split; [|lia]]].
    rewrite (consume_peek _ _ _ Hpk), (consume_peek _ _ _ Hpk').
    assert (same_place (S pos) (S pos)) as Hnext by (left; split; [done|lia]).
    specialize (Hff _ _ Hnext).
    destruct (f (S pos)) as [[s q]|] eqn:Hs, (f' (S pos)) as [[s' q']|];
      try done.
    destruct Hff as [<- HRq]. apply Hf in Hs.
    apply IH; [done|lia|].
    destruct HRq as [[<- ?]|[-> ->]]; lia.
Qed.

Lemma frames_close depth :
  (∀ pos pos', same_place pos pos' →
     alike (Frames.parse_primary tokens index all_doc_ids depth pos)
           (Frames.parse_primary tokens' index all_doc_ids depth pos')) ∧
  (∀ pos pos', same_place pos pos' →
     alike (Frames.parse_and tokens index all_doc_ids depth pos)
           (Frames.parse_and tokens' index all_doc_ids depth pos')) ∧
  (∀ pos pos', same_place pos pos' →
     alike (Frames.parse_or tokens index all_doc_ids depth pos)
           (Frames.parse_or tokens' index all_doc_ids depth pos')).
Proof.
  induction depth as [|d (IHp & IHa & IHo)]; [by split_and!|].
  destruct (frames_forward tokens index all_doc_ids d) as (Fp & Fa & _).
  assert (Hnext : ∀ pos t, peek tokens pos = Some t →
            same_place (S pos) (S pos)).
  { intros pos t Hpk%peek_Some_lt. left. split; [done|lia]. }
  split_and!; intros pos pos' HR.
  - rewrite !frames_primary_S.
    destruct (peek_same_place _ _ _ HR)
      as [(-> & Hlt & Hpk' & [t Hpk])|[(-> & -> & Hpk & Hpk')
         |(-> & -> & Hpk & Hpk')]].
    2,3: rewrite Hpk, Hpk'; by split.
    rewrite Hpk in Hpk'. rewrite Hpk, Hpk'.
    rewrite (consume_peek _ _ _ Hpk), (consume_peek _ _ _ Hpk').
    repeat case_decide; simplify_eq.
    + specialize (IHo _ _ (Hnext _ _ Hpk)).
      destruct (Frames.parse_or tokens _ _ d (S pos)) as [[s q]|],
        (Frames.parse_or tokens' _ _ d (S pos)) as [[s' q']|]; try done.
      destruct IHo as [<- HRq].
      destruct (peek_same_place _ _ _ HRq)
        as [(-> & Hqlt & Hq' & [u Hq])|[(-> & -> & Hq & Hq')
           |(-> & -> & Hq & Hq')]].
      * rewrite Hq in Hq'. rewrite Hq, Hq'.
        case_decide; simplify_eq.
        -- rewrite (consume_peek _ _ _ Hq), (consume_peek _ _ _ Hq').
           split; [done|]. by eapply Hnext.
        -- split; [done|]. left. split; [done|lia].
      * rewrite Hq, Hq'. do 2 case_decide; try done.
        rewrite (consume_peek _ _ _ Hq'). split; [done|]. by right.
      * rewrite Hq, Hq'. rewrite !decide_False by done.
        split; [done|]. by right.
    + specialize (IHp _ _ (Hnext _ _ Hpk)).
      destruct (Frames.parse_primary tokens _ _ d (S pos)) as [[s q]|],
        (Frames.parse_primary tokens' _ _ d (S pos)) as [[s' q']|]; try done.
      by destruct IHp as [<- HRq].
    + split; [done|]. by eapply Hnext.
    + split; [done|]. left. split; [done|lia].
  - rewrite !frames_and_S. specialize (IHp _ _ HR) as Hp.
    destruct (Frames.parse_primary tokens _ _ d pos) as [[s q]|],
      (Frames.parse_primary tokens' _ _ d pos') as [[s' q']|]; try done.
    destruct Hp as [<- HRq].
    apply frames_and_loop_close; [done..|lia|rewrite length_app; simpl; lia].
  - rewrite !frames_or_S. specialize (IHa _ _ HR) as Ha.
    destruct (Frames.parse_and tokens _ _ d pos) as [[s q]|],
      (Frames.parse_and tokens' _ _ d pos') as [[s' q']|]; try done.
    destruct Ha as [<- HRq].
    apply frames_or_loop_close; [done..|lia|rewrite length_app; simpl; lia].
Qed.

Lemma frames_parse_close depth :
  Frames.parse tokens' index all_doc_ids depth
  = Frames.parse tokens index all_doc_ids depth.
Proof.
  unfold Frames.parse.
  assert (same_place 0 0) as HR by (left; split; [done|lia]).
  pose proof (proj2 (proj2 (frames_close depth)) 0 0 HR) as H.
  destruct (Frames.parse_or tokens _ _ depth 0) as [[s q]|],
    (Frames.parse_or tokens' _ _ depth 0) as [[s' q']|]; try done.
  by destruct H as [<- _].
Qed.
End FramesClose.

(** *** Parentheses that nest too deep *)

Lemma frames_deep_parentheses index all_doc_ids m depth :
  (∀ pos, depth < 3 * (m - pos) + 1 →
     Frames.parse_primary (replicate m LPAREN_TOK) index all_doc_ids depth pos
     = Frames.RecursionError) ∧
  (∀ pos, depth < 3 * (m - pos) + 2 →
     Frames.parse_and (replicate m LPAREN_TOK) index all_doc_ids depth pos
     = Frames.RecursionError) ∧
  (∀ pos, depth < 3 * (m - pos) + 3 →
     Frames.parse_or (replicate m LPAREN_TOK) index all_doc_ids depth pos
     = Frames.RecursionError).
Proof.
  induction depth as [|d (IHp & IHa & IHo)]; [by split_and!|].
  split_and!; intros pos Hd.
  - rewrite frames_primary_S.
    assert (pos < m) as Hpos by lia.
    assert (peek (replicate m LPAREN_TOK) pos = Some LPAREN_TOK) as Hpk
      by (by apply lookup_replicate_2).
    rewrite Hpk, (consume_peek _ _ _ Hpk), decide_True by done.
    rewrite IHo; [done|lia].
  - rewrite frames_and_S, IHp; [done|lia].
  - rewrite frames_or_S, IHa; [done|lia].
Qed.

(** *** Operands of NOT that nest too deep *)

Lemma frames_deep_negation index all_doc_ids m depth :
  ∀ pos, depth < m - pos + 1 →
    Frames.parse_primary (replicate m NOT_OP) index all_doc_ids depth pos
    = Frames.RecursionError.
Proof.
  induction depth as [|d IH]; [done|]. intros pos Hd.
  rewrite frames_primary_S.
  assert (pos < m) as Hpos by lia.
  assert (peek (replicate m NOT_OP) pos = Some NOT_OP) as Hpk
    by (by apply lookup_replicate_2).
  rewrite Hpk, (consume_peek _ _ _ Hpk).
  rewrite decide_False, decide_True by done.
  rewrite IH; [done|lia].
Qed.

(** *** Consequences for [parse] and [boolean_search] *)

Lemma frames_parse_sound tokens index all_doc_ids depth v :
  Frames.parse tokens index all_doc_ids depth = Frames.Returns v →
  parses tokens index all_doc_ids v.
Proof.
  unfold Frames.parse. intros H.
  destruct (Frames.parse_or _ _ _ depth 0) as [[s q]|] eqn:Hs; [|done].
  simplify_eq.
  destruct (proj2 (proj2 (frames_sound tokens index all_doc_ids depth))
              _ _ Hs) as [n Hn].
  exists n. unfold parse. by rewrite Hn.
Qed.

Lemma frames_parse_complete tokens index all_doc_ids depth v :
  parses tokens index all_doc_ids v → nesting tokens + 3 ≤ depth →
  Frames.parse tokens index all_doc_ids depth = Frames.Returns v.
Proof.
  intros [n Hn] Hd. unfold parse in Hn. unfold Frames.parse.
  destruct (parse_or _ _ _ n 0) as [[s q]|] eqn:Hs; [|done].
  simpl in Hn. simplify_eq.
  by rewrite (proj2 (proj2 (proj2 (proj2
    (frames_complete tokens index all_doc_ids n)))) 0 _ depth Hs)
    by (by rewrite drop_0).
Qed.

Lemma frames_parse_mono tokens index all_doc_ids depth depth' v :
  depth ≤ depth' →
  Frames.parse tokens index all_doc_ids depth = Frames.Returns v →
  Frames.parse tokens index all_doc_ids depth' = Frames.Returns v.
Proof.
  unfold Frames.parse. intros Hd H.
  destruct (Frames.parse_or _ _ _ depth 0) as [[s q]|] eqn:Hs; [|done].
  by rewrite (proj2 (proj2 (frames_mono tokens index all_doc_ids depth))
                depth' _ _ Hd Hs).
Qed.

Lemma frames_search_sound ucd depth query_str index all_doc_ids v :
  Frames.boolean_search ucd depth query_str index all_doc_ids
    = Frames.Returns v →
  searches ucd index all_doc_ids query_str v.
Proof.
  unfold Frames.boolean_search. intros H. apply searches_parses.
  destruct (tokenize_query ucd query_str) as [|t ts] eqn:Htok.
  - simplify_eq. by exists 3.
  - by apply frames_parse_sound in H.
Qed.

Lemma frames_search_complete ucd depth query_str index all_doc_ids v :
  searches ucd index all_doc_ids query_str v →
  nesting (tokenize_query ucd query_str) + 3 ≤ depth →
  Frames.boolean_search ucd depth query_str index all_doc_ids
    = Frames.Returns v.
Proof.
  intros Hs%searches_parses Hd. unfold Frames.boolean_search.
  destruct (tokenize_query ucd query_str) as [|t ts] eqn:Htok.
  - f_equal. apply (parses_det [] index all_doc_ids); [by exists 3|done].
  - by apply frames_parse_complete.
Qed.

Lemma frames_search_mono ucd depth depth' query_str index all_doc_ids v :
  depth ≤ depth' →
  Frames.boolean_search ucd depth query_str index all_doc_ids
    = Frames.Returns v →
  Frames.boolean_search ucd depth' query_str index all_doc_ids
    = Frames.Returns v.
Proof.
  unfold Frames.boolean_search. intros Hd.
  destruct (tokenize_query ucd query_str); [done|].
  by apply frames_parse_mono.
Qed.

Lemma single_term_parse tokens index all_doc_ids n t :
  tokens = [t] → is_term t →
  parse tokens index all_doc_ids (3 + n) = Some (term_set index t).
Proof.
  intros -> Ht. unfold parse. simpl "+".
  rewrite parse_or_S, parse_and_S.
  rewrite (is_term_primary [t] index all_doc_ids n 0 t Ht eq_refl).
  rewrite (and_loop_exit [t]) by done.
  destruct n; [done|]. by rewrite (or_loop_exit [t]).
Qed.

(** C7. A TERM token evaluates to the posting set the index holds for that
    lemma, and to the empty set when the index has no entry for it; a query
    that is one lemma absent from the index returns the empty set. *)
Theorem term_evaluates_to_posting_set :
  ∀ (index : gmap str (gset Z)) (all_doc_ids : gset Z),
    (∀ t s, index !! t = Some s → term_set index t = s) ∧
    (∀ t, index !! t = None → term_set index t = ∅) ∧
    (∀ tokens n pos t,
       peek tokens pos = Some t → is_term t →
       parse_primary tokens index all_doc_ids (S n) pos =
         Some (term_set index t, S pos)) ∧
    (∀ ucd query_str t n,
       tokenize_query ucd query_str = [t] → is_term t → index !! t = None →
       boolean_search ucd (3 + n) query_str index all_doc_ids = Some ∅).
Proof.
  intros index all_doc_ids. split_and!.
  - intros t s Ht. unfold term_set. by rewrite Ht.
  - intros t Ht. unfold term_set. by rewrite Ht.
  - intros tokens n pos t Hpk Ht. by apply is_term_primary.
  - intros ucd query_str t n Htok Ht Hidx.
    rewrite boolean_search_parse by lia.
    rewrite (single_term_parse _ _ _ _ t Htok Ht).
    unfold term_set. by rewrite Hidx.
Qed.

Lemma term_evaluates_to_posting_set_witness :
  boolean_search ru 3 slon zoo_index zoo_docs = Some ∅.
Proof.
  apply (proj2 (proj2 (proj2
    (term_evaluates_to_posting_set zoo_index zoo_docs))) ru slon slon 0).
  - vm_compute. reflexivity.
  - unfold is_term. rewrite !not_elem_of_cons.
    split_and!; [discriminate..|apply not_elem_of_nil].
  - vm_compute. reflexivity.
Defined.

(** C6, as stated, at a query of 400 opening parentheses and a word, a
    query whose groups are all left open: the calls nest 1203 deep, and
    under the limit of 1000 nested calls, which the interpreter has
    unless it is changed, [RecursionError] is raised; it is raised under
    every lower limit as well. With a limit of 1203 the query evaluates
    to the posting set of the word. *)
Lemma open_groups_counterexample :
  let query_str := replicate 400 40%N ++ kot in
  Frames.boolean_search ru 1000 query_str zoo_index zoo_docs
    = Frames.RecursionError ∧
  (∀ depth, depth ≤ 1000 →
     Frames.boolean_search ru depth query_str zoo_index zoo_docs
       = Frames.RecursionError) ∧
  Frames.boolean_search ru 1203 query_str zoo_index zoo_docs
    = Frames.Returns {[1%Z; 2%Z]}.
Proof.
  assert (Frames.boolean_search ru 1000 (replicate 400 40%N ++ kot)
            zoo_index zoo_docs = Frames.RecursionError) as H
    by (vm_compute; reflexivity).
  split_and!; [done| |vm_compute; reflexivity].
  intros depth Hd.
  destruct (Frames.boolean_search ru depth _ _ _) as [v|] eqn:Hv; [|done].
  apply (frames_search_mono _ _ 1000) in Hv; [|done]. congruence.
Qed.

(** C6. A malformed query raises no error of the parser's own: a query
    returns a set whenever the interpreter allows the calls to nest three
    deep for every opening parenthesis and one deep for every NOT, and
    three deep besides; [RecursionError] below that depth is the only
    error there is. At every depth a group that is still open when the
    input ends evaluates like the same group with its closing
    parenthesis; and where a primary is expected, AND, OR, a closing
    parenthesis or the end of the input evaluate to the empty set and
    consume nothing. (NOT does start a primary: with no operand after it,
    its operand is that empty set.) *)
Theorem malformed_queries_within_depth :
  ∀ (index : gmap str (gset Z)) (all_doc_ids : gset Z),
    (∀ ucd query_str depth,
       nesting (tokenize_query ucd query_str) + 3 ≤ depth →
       ∃ v, Frames.boolean_search ucd depth query_str index all_doc_ids
            = Frames.Returns v) ∧
    (∀ tokens depth,
       nesting tokens + 3 ≤ depth →
       ∃ v, Frames.parse tokens index all_doc_ids depth = Frames.Returns v) ∧
    (∀ before inner depth,
       Frames.parse (before ++ LPAREN_TOK :: inner ++ [RPAREN_TOK])
         index all_doc_ids depth
       = Frames.parse (before ++ LPAREN_TOK :: inner)
           index all_doc_ids depth) ∧
    (∀ tokens depth pos,
       peek tokens pos ∈ [Some AND_OP; Some OR_OP; Some RPAREN_TOK; None] →
       Frames.parse_primary tokens index all_doc_ids (S depth) pos
         = Frames.Returns (∅, pos)) ∧
    (∀ tokens depth pos,
       peek tokens pos = Some NOT_OP →
       peek tokens (S pos) ∈ [Some AND_OP; Some OR_OP; Some RPAREN_TOK; None] →
       Frames.parse_primary tokens index all_doc_ids (S (S depth)) pos
         = Frames.Returns (all_doc_ids ∖ ∅, S pos)).
Proof.
  intros index all_doc_ids.
  assert (∀ tokens depth pos,
       peek tokens pos ∈ [Some AND_OP; Some OR_OP; Some RPAREN_TOK; None] →
       Frames.parse_primary tokens index all_doc_ids (S depth) pos
         = Frames.Returns (∅, pos))
    as Hempty.
  { intros tokens depth pos Hpk. rewrite frames_primary_S.
    destruct (peek tokens pos) as [t|]; [|done].
    rewrite !elem_of_cons, elem_of_nil in Hpk.
    destruct Hpk as [[= ->]|[[= ->]|[[= ->]|[[=]|[]]]]]; by vm_compute. }
  split_and!.
  - intros ucd query_str depth Hd.
    destruct (parses_total (tokenize_query ucd query_str) index all_doc_ids)
      as [v Hv].
    exists v. apply frames_search_complete; [|done].
    by apply searches_parses.
  - intros tokens depth Hd.
    destruct (parses_total tokens index all_doc_ids) as [v Hv].
    exists v. by apply frames_parse_complete.
  - intros before inner depth.
    rewrite <-(frames_parse_close (before ++ LPAREN_TOK :: inner)).
    by rewrite <-app_assoc.
  - exact Hempty.
  - intros tokens depth pos Hpk Hnext.
    rewrite frames_primary_S, Hpk, (consume_peek _ _ _ Hpk).
    rewrite decide_False, decide_True by done.
    by rewrite (Hempty tokens depth (S pos) Hnext).
Qed.

Lemma malformed_queries_within_depth_witness :
  ∃ v, Frames.boolean_search ru 6 (lit "(" ++ kot ++ lit " OR " ++ pyos)
         zoo_index zoo_docs = Frames.Returns v.
Proof.
  apply (proj1 (malformed_queries_within_depth zoo_index zoo_docs) ru _ 6).
  vm_compute. lia.
Defined.

(** C9. [parse] returns what the first [parse_or] returns and never looks
    at the tokens behind the one it stopped at: they can be replaced by
    any others. Two adjacent terms give the posting set of the first, and
    a query that starts with a closing parenthesis gives the empty set. *)
Theorem parse_ignores_trailing_tokens :
  ∀ (index : gmap str (gset Z)) (all_doc_ids : gset Z),
    (∀ tokens, ∃ v p,
       (∀ n, 3 * length tokens + 3 ≤ n →
          parse_or tokens index all_doc_ids n 0 = Some (v, p) ∧
          parse tokens index all_doc_ids n = Some v) ∧
       (∀ others n, p < length tokens → 3 * length tokens + 3 ≤ n →
          parse (take (S p) tokens ++ others) index all_doc_ids n = Some v)) ∧
    (∀ t1 t2 others,
       is_term t1 → is_term t2 →
       parses (t1 :: t2 :: others) index all_doc_ids (term_set index t1)) ∧
    (∀ others, parses (RPAREN_TOK :: others) index all_doc_ids ∅).
Proof.
  intros index all_doc_ids. split_and!.
  - intros tokens.
    destruct (proj2 (proj2 (proj2 (proj2
      (methods_return tokens index all_doc_ids (3 * length tokens + 3)))))
      0) as [[v p] Hvp]; [lia|].
    exists v, p. split.
    + intros n Hn.
      pose proof (parse_or_stable _ _ _ _ _ _ _ Hvp Hn) as Hn'.
      split; [done|]. unfold parse. by rewrite Hn'.
    + intros others n Hp Hn.
      pose proof (parse_or_stable _ _ _ _ _ _ _ Hvp Hn) as Hn'.
      unfold parse.
      rewrite (proj2 (proj2 (proj2 (proj2
        (methods_local tokens (take (S p) tokens ++ others)
           index all_doc_ids n)))) 0 v p Hn'); [done|].
      intros i Hi.
      rewrite lookup_app_l by (rewrite length_take; lia).
      by rewrite lookup_take_lt by lia.
  - intros t1 t2 others Ht1 Ht2. exists 3. unfold parse.
    rewrite parse_or_S, parse_and_S.
    rewrite (is_term_primary (t1 :: t2 :: others) index all_doc_ids 0 0 t1
               Ht1 eq_refl).
    unfold is_term in Ht2. rewrite !not_elem_of_cons in Ht2.
    destruct Ht2 as (? & ? & ? & ? & ? & _).
    rewrite and_loop_exit by (unfold peek; simpl; congruence).
    by rewrite or_loop_exit by (unfold peek; simpl; congruence).
  - intros others. exists 3. reflexivity.
Qed.

(** C10, as stated, at a query of 1000 times NOT: the calls nest 1003
    deep, and under the limit of 1000 nested calls, which the interpreter
    has unless it is changed, [boolean_search] returns no set:
    [RecursionError] is raised, under every lower limit as well. With a
    limit of 1003 the query returns the empty set. *)
Lemma recursion_limit_counterexample :
  let query_str := concat (replicate 1000 (lit "NOT ")) in
  Frames.boolean_search ru 1000 query_str zoo_index zoo_docs
    = Frames.RecursionError ∧
  (∀ depth, depth ≤ 1000 →
     Frames.boolean_search ru depth query_str zoo_index zoo_docs
       = Frames.RecursionError) ∧
  Frames.boolean_search ru 1003 query_str zoo_index zoo_docs
    = Frames.Returns ∅.
Proof.
  assert (Frames.boolean_search ru 1000 (concat (replicate 1000 (lit "NOT ")))
            zoo_index zoo_docs = Frames.RecursionError) as H
    by (vm_compute; reflexivity).
  split_and!; [done| |vm_compute; reflexivity].
  intros depth Hd.
  destruct (Frames.boolean_search ru depth _ _ _) as [v|] eqn:Hv; [|done].
  apply (frames_search_mono _ _ 1000) in Hv; [|done]. congruence.
Qed.

(** C10. [boolean_search] terminates for every query string. There is one
    set that the call returns whenever it returns: it returns it when the
    interpreter allows the calls to nest three deep for every opening
    parenthesis and one deep for every NOT, and three deep besides, and
    under every higher limit once it returns; under a lower limit
    [RecursionError] may be raised instead, and it is raised for
    parentheses and for NOTs that nest deeper than the limit. No method
    moves the position back, and every iteration of the two loops starts
    by consuming the operator it has just seen, so that the next iteration
    starts at a later position and the loops make no more iterations than
    there are tokens left: the bound on the iterations in the loops of
    [Frames] is never what ends a loop. *)
Theorem boolean_search_terminates_within_depth :
  ∀ ucd (query_str : str) (index : gmap str (gset Z)) (all_doc_ids : gset Z),
    (∃ v,
       searches ucd index all_doc_ids query_str v ∧
       (∀ depth,
          Frames.boolean_search ucd depth query_str index all_doc_ids
            = Frames.Returns v ∨
          Frames.boolean_search ucd depth query_str index all_doc_ids
            = Frames.RecursionError) ∧
       (∀ depth, nesting (tokenize_query ucd query_str) + 3 ≤ depth →
          Frames.boolean_search ucd depth query_str index all_doc_ids
            = Frames.Returns v) ∧
       (∀ depth depth', depth ≤ depth' →
          Frames.boolean_search ucd depth query_str index all_doc_ids
            = Frames.Returns v →
          Frames.boolean_search ucd depth' query_str index all_doc_ids
            = Frames.Returns v)) ∧
    (∀ m depth,
       (depth < 3 * m + 3 →
        Frames.parse (replicate m LPAREN_TOK) index all_doc_ids depth
          = Frames.RecursionError) ∧
       (depth < m + 3 →
        Frames.parse (replicate m NOT_OP) index all_doc_ids depth
          = Frames.RecursionError)) ∧
    (∀ tokens depth,
       forward (Frames.parse_primary tokens index all_doc_ids depth) ∧
       forward (Frames.parse_and tokens index all_doc_ids depth) ∧
       forward (Frames.parse_or tokens index all_doc_ids depth)) ∧
    (∀ tokens depth k left_ pos r,
       peek tokens pos = Some AND_OP →
       Frames.parse_and_loop tokens
         (Frames.parse_primary tokens index all_doc_ids depth)
         (S k) left_ pos = Frames.Returns r →
       ∃ right_ pos',
         Frames.parse_primary tokens index all_doc_ids depth (S pos)
           = Frames.Returns (right_, pos') ∧
         pos < pos' ∧
         Frames.parse_and_loop tokens
           (Frames.parse_primary tokens index all_doc_ids depth)
           k (left_ ∩ right_) pos' = Frames.Returns r) ∧
    (∀ tokens depth k left_ pos r,
       peek tokens pos = Some OR_OP →
       Frames.parse_or_loop tokens
         (Frames.parse_and tokens index all_doc_ids depth)
         (S k) left_ pos = Frames.Returns r →
       ∃ right_ pos',
         Frames.parse_and tokens index all_doc_ids depth (S pos)
           = Frames.Returns (right_, pos') ∧
         pos < pos' ∧
         Frames.parse_or_loop tokens
           (Frames.parse_and tokens index all_doc_ids depth)
           k (left_ ∪ right_) pos' = Frames.Returns r) ∧
    (∀ tokens depth k k' left_ pos,
       length tokens - pos ≤ k → length tokens - pos ≤ k' →
       Frames.parse_and_loop tokens
         (Frames.parse_primary tokens index all_doc_ids depth) k left_ pos
       = Frames.parse_and_loop tokens
           (Frames.parse_primary tokens index all_doc_ids depth)
           k' left_ pos ∧
       Frames.parse_or_loop tokens
         (Frames.parse_and tokens index all_doc_ids depth) k left_ pos
       = Frames.parse_or_loop tokens
           (Frames.parse_and tokens index all_doc_ids depth)
           k' left_ pos).
Proof.
  intros ucd query_str index all_doc_ids. split_and!.
  - destruct (parses_total (tokenize_query ucd query_str) index all_doc_ids)
      as [v Hv].
    exists v. split_and!; [by apply searches_parses| | |].
    + intros depth.
      destruct (Frames.boolean_search ucd depth _ _ _) as [w|] eqn:Hw;
        [|by right].
      left. f_equal. apply frames_search_sound, searches_parses in Hw.
      apply (parses_det _ _ _ _ _ Hw Hv).
    + intros depth Hd. apply frames_search_complete; [|done].
      by apply searches_parses.
    + intros depth depth' Hd. by apply frames_search_mono.
  - intros m depth. unfold Frames.parse. split; intros Hd.
    + by rewrite (proj2 (proj2 (frames_deep_parentheses index all_doc_ids
                                  m depth)) 0) by lia.
    + destruct depth as [|[|depth]]; [done..|].
      rewrite frames_or_S, frames_and_S.
      by rewrite (frames_deep_negation index all_doc_ids m depth 0) by lia.
  - intros tokens depth. apply frames_forward.
  - intros tokens depth k left_ pos r Hpk Hr.
    rewrite frames_and_loop_S, decide_True in Hr by done.
    rewrite (consume_peek _ _ _ Hpk) in Hr.
    destruct (Frames.parse_primary tokens _ _ depth (S pos))
      as [[right_ pos']|] eqn:Hs; [|done].
    exists right_, pos'. split_and!; [done| |done].
    apply (frames_forward tokens index all_doc_ids depth) in Hs. lia.
  - intros tokens depth k left_ pos r Hpk Hr.
    rewrite frames_or_loop_S, decide_True in Hr by done.
    rewrite (consume_peek _ _ _ Hpk) in Hr.
    destruct (Frames.parse_and tokens _ _ depth (S pos))
      as [[right_ pos']|] eqn:Hs; [|done].
    exists right_, pos'. split_and!; [done| |done].
    apply (frames_forward tokens index all_doc_ids depth) in Hs. lia.
  - intros tokens depth k k' left_ pos Hk Hk'.
    destruct (frames_forward tokens index all_doc_ids depth) as (Fp & Fa & _).
    split.
    + by apply frames_and_loop_bound.
    + by apply frames_or_loop_bound.
Qed.

Lemma boolean_search_terminates_within_depth_witness :
  ∃ v, searches ru zoo_index zoo_docs (lit "NOT " ++ kot) v ∧
       Frames.boolean_search ru 4 (lit "NOT " ++ kot) zoo_index zoo_docs
         = Frames.Returns v.
Proof.
  destruct (boolean_search_terminates_within_depth ru (lit "NOT " ++ kot)
              zoo_index zoo_docs) as [(v & Hv & _ & Hret & _) _].
  exists v. split; [done|]. apply Hret. vm_compute. lia.
Defined.

(** ** Character tables *)

Lemma is_space_spec c :
  is_space c = true ↔
  (9 ≤ c ≤ 13 ∨ 28 ≤ c ≤ 32 ∨ c = 133 ∨ c = 160 ∨ c = 5760
   ∨ 8192 ≤ c ≤ 8202 ∨ c = 8232 ∨ c = 8233 ∨ c = 8239 ∨ c = 8287
   ∨ c = 12288)%N.
Proof.
  unfold is_space.
  rewrite !orb_true_iff, !andb_true_iff, !N.leb_le, !N.eqb_eq. tauto.
Qed.

Lemma is_space_false c :
  (32 < c < 133 ∨ 160 < c < 5760)%N → is_space c = false.
Proof.
  intros Hc. apply not_true_is_false. rewrite is_space_spec. lia.
Qed.

Lemma ascii_word_spec c :
  ascii_word c = true ↔
  (65 ≤ c ≤ 90 ∨ 97 ≤ c ≤ 122 ∨ 48 ≤ c ≤ 57 ∨ c = 95)%N.
Proof.
  unfold ascii_word, ascii_upper_letter, ascii_lower_letter, ascii_digit.
  rewrite !orb_true_iff, !andb_true_iff, !N.leb_le, !N.eqb_eq. tauto.
Qed.

Lemma ascii_word_not_space c : is_space c = true → ascii_word c = false.
Proof.
  rewrite is_space_spec. intros Hc. apply not_true_is_false.
  rewrite ascii_word_spec. lia.
Qed.

Lemma ru_lower_char_spec c :
  ((65 ≤ c ≤ 90 ∨ 1040 ≤ c ≤ 1071) ∧ ru_lower_char c = c + 32)%N ∨
  (1024 ≤ c ≤ 1039 ∧ ru_lower_char c = c + 80)%N ∨
  (¬ (65 ≤ c ≤ 90 ∨ 1024 ≤ c ≤ 1071) ∧ ru_lower_char c = c)%N.
Proof.
  unfold ru_lower_char, ascii_upper_letter. cases_on_tests; lia.
Qed.

Lemma ru_lower_char_idemp c : ru_lower_char (ru_lower_char c) = ru_lower_char c.
Proof.
  destruct (ru_lower_char_spec c) as [[Hc Hl]|[[Hc Hl]|[Hc Hl]]];
    rewrite Hl;
    match goal with |- ru_lower_char ?x = _ =>
      destruct (ru_lower_char_spec x) as [[? ?]|[[? ?]|[? ?]]]
    end; lia.
Qed.

Lemma ru_laws : unicode_laws ru.
Proof.
  split; simpl.
  - intros c Hc. unfold ru_word. cases_on_tests. by rewrite orb_false_r.
  - intros c Hc. unfold ru_word. rewrite (ascii_word_not_space c Hc).
    apply is_space_spec in Hc. cases_on_tests.
  - done.
  - intros s Hs. apply map_ext_Forall. eapply Forall_impl; [exact Hs|].
    intros c Hc. simpl in Hc. unfold ru_upper_char, ascii_upper_char.
    destruct (ascii_lower_letter c); [done|]. cases_on_tests.
  - intros s Hs. apply map_ext_Forall. eapply Forall_impl; [exact Hs|].
    intros c Hc. simpl in Hc. unfold ru_lower_char, ascii_lower_char.
    destruct (ascii_upper_letter c); [done|]. cases_on_tests.
  - intros s. rewrite map_map. apply map_ext. intros c.
    apply ru_lower_char_idemp.
  - intros s Hs. unfold no_space in *. rewrite Forall_map.
    eapply Forall_impl; [exact Hs|]. intros c Hc. simpl in *.
    destruct (ru_lower_char_spec c) as [[? ->]|[[? ->]|[? ->]]]; [..|done];
      apply is_space_false; lia.
  - intros [|c s] Hs; [done|]. discriminate.
Qed.

(** ** The tokenizer: scanning *)

Lemma take_drop_while {A} (p : A → bool) l :
  take_while p l ++ drop_while p l = l.
Proof.
  induction l as [|x l IH]; simpl; [done|].
  destruct (p x); simpl; [by f_equal|done].
Qed.

Lemma take_while_Forall {A} (p : A → bool) l :
  Forall (λ x, p x = true) (take_while p l).
Proof.
  induction l as [|x l IH]; simpl; [constructor|].
  destruct (p x) eqn:Hx; by constructor.
Qed.

Lemma take_while_length {A} (p : A → bool) l :
  length (take_while p l) ≤ length l.
Proof. induction l as [|x l IH]; simpl; [done|]. destruct (p x); simpl; lia. Qed.

Lemma take_while_app_stop {A} (p : A → bool) l1 c l2 :
  p c = false → take_while p (l1 ++ c :: l2) = take_while p l1.
Proof.
  intros Hc. induction l1 as [|x l1 IH]; simpl; [by rewrite Hc|].
  destruct (p x); by f_equal.
Qed.

Lemma ci_prefix_length w s : ci_prefix w s = true → length w ≤ length s.
Proof.
  revert s. induction w as [|l w IH]; intros [|c s]; simpl; try done; [lia|].
  intros [_ H]%andb_true_iff. apply IH in H. lia.
Qed.

Lemma ci_prefix_app_stop w s1 c s2 :
  Forall (λ l, ci_literal l c = false) w →
  ci_prefix w (s1 ++ c :: s2) = ci_prefix w s1.
Proof.
  intros Hw. revert s1.
  induction Hw as [|l w Hl Hw IH]; intros [|x s1]; simpl; try done.
  - by rewrite Hl.
  - by rewrite IH.
Qed.

Lemma keyword_stops_at_space w c :
  keyword w → is_space c = true → Forall (λ l, ci_literal l c = false) w.
Proof.
  intros [_ Hw] Hc. apply Forall_forall. intros l Hl%list_elem_of_In.
  pose proof (proj1 (forallb_forall _ _) Hw l Hl) as Hu.
  unfold ascii_upper_letter in Hu.
  apply andb_true_iff in Hu as [?%N.leb_le ?%N.leb_le].
  unfold ci_literal. apply is_space_spec in Hc. apply orb_false_iff.
  split; apply N.eqb_neq; lia.
Qed.

Lemma keyword_AND : keyword (lit "AND").
Proof. by split. Qed.
Lemma keyword_OR : keyword (lit "OR").
Proof. by split. Qed.
Lemma keyword_NOT : keyword (lit "NOT").
Proof. by split. Qed.

Lemma is_space_not_paren c : is_space c = true → is_paren c = false.
Proof.
  intros Hc%is_space_spec. unfold is_paren, LPAREN, RPAREN.
  apply orb_false_iff. split; apply N.eqb_neq; lia.
Qed.

Lemma is_space_not_term_char c : is_space c = true → term_char c = false.
Proof. intros Hc. unfold term_char. by rewrite Hc. Qed.

Section Scanning.
Context (ucd : unicode) (laws : unicode_laws ucd).

Lemma is_word_space c : is_space c = true → is_word ucd (Some c) = false.
Proof. apply (word_not_space _ laws). Qed.

Lemma match_keyword_length w prev s k :
  match_keyword ucd w prev s = Some k → k = length w ∧ length w ≤ length s.
Proof.
  unfold match_keyword. case_match eqn:Hm; [|done].
  intros [= <-]. split; [done|].
  apply andb_true_iff in Hm as [[_ Hm]%andb_true_iff _].
  by apply ci_prefix_length.
Qed.

Lemma match_run_length s k :
  match_run s = Some k → 0 < k ∧ k ≤ length s.
Proof.
  unfold match_run. pose proof (take_while_length term_char s).
  destruct (length (take_while term_char s)); [done|].
  intros [= <-]. lia.
Qed.

Lemma match_at_length prev s k :
  match_at ucd prev s = Some k → 0 < k ∧ k ≤ length s.
Proof.
  unfold match_at. destruct s as [|c s]; [done|].
  destruct (is_paren c); [intros [= <-]; simpl; lia|].
  destruct (match_keyword ucd (lit "AND") _ _) eqn:H1.
  { intros [= <-]. apply match_keyword_length in H1 as [-> ?].
    split; [simpl; lia|done]. }
  destruct (match_keyword ucd (lit "OR") _ _) eqn:H2.
  { intros [= <-]. apply match_keyword_length in H2 as [-> ?].
    split; [simpl; lia|done]. }
  destruct (match_keyword ucd (lit "NOT") _ _) eqn:H3.
  { intros [= <-]. apply match_keyword_length in H3 as [-> ?].
    split; [simpl; lia|done]. }
  apply match_run_length.
Qed.

(** Only the class of the character before the match matters. *)
Lemma match_at_prev prev prev' s :
  is_word ucd prev = is_word ucd prev' →
  match_at ucd prev s = match_at ucd prev' s.
Proof.
  intros Hp. unfold match_at, match_keyword, word_boundary.
  by rewrite Hp.
Qed.

Lemma findall_from_S n prev s :
  findall_from ucd (S n) prev s =
  match s with
  | [] => []
  | c :: s' =>
      match match_at ucd prev s with
      | Some k =>
          take k s :: findall_from ucd n (last (take k s)) (drop k s)
      | None => findall_from ucd n (Some c) s'
      end
  end.
Proof. reflexivity. Qed.

Lemma findall_from_prev n prev prev' s :
  is_word ucd prev = is_word ucd prev' →
  findall_from ucd n prev s = findall_from ucd n prev' s.
Proof.
  intros Hp. destruct n as [|n]; [done|]. simpl.
  destruct s as [|c s]; [done|]. by rewrite (match_at_prev _ prev').
Qed.

(** More steps than characters change nothing. *)
Lemma findall_from_steps n m prev s :
  length s ≤ n → length s ≤ m →
  findall_from ucd n prev s = findall_from ucd m prev s.
Proof.
  revert m prev s. induction n as [|n IH]; intros m prev s Hn Hm.
  { destruct s; [|simpl in Hn; lia]. by destruct m. }
  destruct m as [|m].
  { destruct s; [done|simpl in Hm; lia]. }
  simpl. destruct s as [|c s]; [done|]. simpl in Hn, Hm.
  destruct (match_at ucd prev (c :: s)) as [k|] eqn:Hk.
  - apply match_at_length in Hk as [? ?]. f_equal.
    apply IH; rewrite length_drop; simpl in *; lia.
  - apply IH; lia.
Qed.

(** In front of a whitespace character the pattern matches as it does
    at the end of the string. *)
Lemma match_keyword_app_space w prev s1 c s2 :
  keyword w → is_space c = true → s1 ≠ [] →
  match_keyword ucd w prev (s1 ++ c :: s2) = match_keyword ucd w prev s1.
Proof.
  intros Hw Hc Hs1. unfold match_keyword.
  rewrite (ci_prefix_app_stop w s1 c s2)
    by (by apply keyword_stops_at_space).
  assert (head (s1 ++ c :: s2) = head s1) as -> by (by destruct s1).
  destruct (ci_prefix w s1) eqn:Hpre; [|by rewrite !andb_false_r].
  apply ci_prefix_length in Hpre.
  rewrite take_app_le, drop_app_le by done.
  assert (is_word ucd (head (drop (length w) s1 ++ c :: s2))
          = is_word ucd (head (drop (length w) s1))) as Hnext.
  { destruct (drop (length w) s1); [|done]. by apply is_word_space. }
  unfold word_boundary. by rewrite Hnext.
Qed.

Lemma match_at_app_space prev s1 c s2 :
  is_space c = true → s1 ≠ [] →
  match_at ucd prev (s1 ++ c :: s2) = match_at ucd prev s1.
Proof.
  intros Hc Hs1. unfold match_at.
  rewrite !match_keyword_app_space
    by auto using keyword_AND, keyword_OR, keyword_NOT.
  unfold match_run.
  rewrite take_while_app_stop by (by apply is_space_not_term_char).
  by destruct s1.
Qed.

Lemma match_at_space prev c s :
  is_space c = true → match_at ucd prev (c :: s) = None.
Proof.
  intros Hc. unfold match_at. rewrite is_space_not_paren by done.
  unfold match_keyword. simpl.
  assert (∀ l, (65 ≤ l ≤ 90)%N → ci_literal l c = false) as Hl.
  { intros l Hl. unfold ci_literal. apply is_space_spec in Hc.
    apply orb_false_iff. split; apply N.eqb_neq; lia. }
  rewrite !Hl by lia. rewrite !andb_false_r. simpl.
  unfold match_run. simpl. by rewrite is_space_not_term_char.
Qed.

Lemma findall_from_app_space n prev s1 c s2 :
  is_space c = true → length (s1 ++ c :: s2) ≤ n →
  findall_from ucd n prev (s1 ++ c :: s2) =
  findall_from ucd n prev s1 ++ findall_from ucd n (Some c) s2.
Proof.
  intros Hc. revert prev s1.
  induction n as [|n IH]; intros prev s1 Hn.
  { rewrite length_app in Hn. simpl in Hn. lia. }
  rewrite length_app in Hn. simpl in Hn.
  rewrite !findall_from_S.
  destruct s1 as [|x s1].
  { simpl app. rewrite match_at_space by done.
    rewrite <-findall_from_S. apply findall_from_steps; lia. }
  rewrite <-app_comm_cons. rewrite app_comm_cons.
  rewrite match_at_app_space by done.
  simpl in Hn.
  destruct (match_at ucd prev (x :: s1)) as [k|] eqn:Hk.
  - apply match_at_length in Hk as [? ?].
    rewrite take_app_le, drop_app_le by done.
    rewrite IH by (rewrite length_app, length_drop; simpl in *; lia).
    rewrite <-app_comm_cons. do 2 f_equal.
    rewrite <-findall_from_S. apply findall_from_steps; lia.
  - rewrite IH by (rewrite length_app; simpl; lia).
    f_equal. rewrite <-findall_from_S. apply findall_from_steps; lia.
Qed.

Lemma findall_from_spaces n prev s :
  Forall (λ c, is_space c = true) s → findall_from ucd n prev s = [].
Proof.
  intros Hs. revert n prev.
  induction Hs as [|c s Hc Hs IH]; intros [|n] prev; try done.
  rewrite findall_from_S, match_at_space by done. apply IH.
Qed.

Lemma findall_from_lstrip n prev s :
  is_word ucd prev = false → length s ≤ n →
  findall_from ucd n prev s = findall_from ucd n None (lstrip s).
Proof.
  revert n prev. induction s as [|c s IH]; intros n prev Hp Hn.
  { by destruct n. }
  unfold lstrip. simpl. simpl in Hn. destruct (is_space c) eqn:Hc.
  - destruct n as [|n]; [lia|].
    rewrite findall_from_S, match_at_space by done.
    rewrite IH; [|by apply is_word_space|lia].
    pose proof (take_drop_while is_space s) as Hs.
    apply (f_equal length) in Hs. rewrite length_app in Hs.
    apply findall_from_steps; unfold lstrip; lia.
  - by apply findall_from_prev.
Qed.

Lemma rstrip_spaces s :
  ∃ ws, s = rstrip s ++ ws ∧ Forall (λ c, is_space c = true) ws.
Proof.
  exists (reverse (take_while is_space (reverse s))). split.
  - unfold rstrip. rewrite <-reverse_app, take_drop_while.
    by rewrite reverse_involutive.
  - apply Forall_reverse, take_while_Forall.
Qed.

Lemma findall_from_rstrip n prev s :
  length s ≤ n →
  findall_from ucd n prev (rstrip s) = findall_from ucd n prev s.
Proof.
  intros Hn. destruct (rstrip_spaces s) as (ws & Hs & Hws).
  rewrite Hs at 2. rewrite Hs, length_app in Hn.
  destruct Hws as [|c ws Hc Hws]; [by rewrite app_nil_r|].
  rewrite findall_from_app_space by (done || by rewrite length_app).
  by rewrite (findall_from_spaces _ _ ws), app_nil_r.
Qed.

Lemma strip_length s : length (strip s) ≤ length s.
Proof.
  unfold strip.
  destruct (rstrip_spaces (lstrip s)) as (ws & Hs & _).
  apply (f_equal length) in Hs. rewrite length_app in Hs.
  pose proof (take_drop_while is_space s) as Hl.
  apply (f_equal length) in Hl. rewrite length_app in Hl.
  unfold lstrip in *. lia.
Qed.

Lemma findall_strip s : findall ucd (strip s) = findall ucd s.
Proof.
  unfold findall, strip. pose proof (strip_length s) as Hlen.
  unfold strip in Hlen.
  rewrite (findall_from_steps _ (length s)) by done.
  rewrite findall_from_rstrip.
  - symmetry. by apply findall_from_lstrip.
  - pose proof (take_drop_while is_space s) as Hl.
    apply (f_equal length) in Hl. rewrite length_app in Hl.
    unfold lstrip. lia.
Qed.

(** [tokenize_query] without the two early exits. *)
Lemma tokenize_query_findall s :
  tokenize_query ucd s = concat (map (classify ucd) (findall ucd s)).
Proof.
  unfold tokenize_query. rewrite <-(findall_strip s).
  by destruct (strip s).
Qed.

(** Whitespace separates: the tokens of two strings joined by a
    whitespace character are the tokens of the first followed by the
    tokens of the second. *)
Lemma tokenize_query_space s1 c s2 :
  is_space c = true →
  tokenize_query ucd (s1 ++ c :: s2) =
  tokenize_query ucd s1 ++ tokenize_query ucd s2.
Proof.
  intros Hc. rewrite !tokenize_query_findall. unfold findall.
  rewrite findall_from_app_space by done.
  rewrite map_app, concat_app. rewrite length_app. simpl. f_equal.
  - f_equal. f_equal. apply findall_from_steps; lia.
  - f_equal. f_equal.
    rewrite (findall_from_prev _ (Some c) None) by (by apply is_word_space).
    apply findall_from_steps; lia.
Qed.

(** On a query of ASCII characters the tokenizer needs the ASCII
    tables only. *)

Lemma is_word_ascii x :
  ascii_opt x → is_word ucd x = is_word ascii_only x.
Proof. destruct x as [c|]; [|done]. apply (word_ascii _ laws). Qed.

Lemma head_ascii s : is_ascii s → ascii_opt (head s).
Proof. unfold is_ascii. by destruct 1. Qed.

Lemma last_ascii s : is_ascii s → ascii_opt (last s).
Proof.
  intros Hs. destruct (last s) as [c|] eqn:Hl; [|done].
  apply last_Some in Hl as [s' ->]. unfold is_ascii in Hs.
  rewrite Forall_app, Forall_singleton in Hs. apply Hs.
Qed.

Lemma drop_while_ascii p s : is_ascii s → is_ascii (drop_while p s).
Proof.
  unfold is_ascii. induction 1 as [|c s Hc Hs IH]; simpl; [constructor|].
  destruct (p c); [done|by constructor].
Qed.

Lemma strip_ascii s : is_ascii s → is_ascii (strip s).
Proof.
  intros Hs. unfold strip, rstrip, lstrip.
  by apply Forall_reverse, drop_while_ascii, Forall_reverse,
    drop_while_ascii.
Qed.

Lemma match_at_ascii prev s :
  ascii_opt prev → is_ascii s →
  match_at ucd prev s = match_at ascii_only prev s.
Proof.
  intros Hp Hs. unfold match_at, match_keyword, word_boundary.
  rewrite !(is_word_ascii prev) by done.
  rewrite !(is_word_ascii (head s)) by (by apply head_ascii).
  rewrite !(is_word_ascii (last (take _ s)))
    by (by apply last_ascii, Forall_take).
  by rewrite !(is_word_ascii (head (drop _ s)))
    by (by apply head_ascii, Forall_drop).
Qed.

Lemma findall_from_ascii n prev s :
  ascii_opt prev → is_ascii s →
  findall_from ucd n prev s = findall_from ascii_only n prev s ∧
  Forall is_ascii (findall_from ucd n prev s).
Proof.
  revert prev s. induction n as [|n IH]; intros prev s Hp Hs; [done|].
  simpl. destruct s as [|c s]; [done|].
  rewrite <-match_at_ascii by done.
  destruct (match_at ucd prev (c :: s)) as [k|].
  - destruct (IH (last (take k (c :: s))) (drop k (c :: s))) as [-> ?].
    + by apply last_ascii, Forall_take.
    + by apply Forall_drop.
    + split; [done|]. constructor; [by apply Forall_take|].
      destruct (IH (last (take k (c :: s))) (drop k (c :: s)))
        as [<- ?]; [by apply last_ascii, Forall_take|by apply Forall_drop|].
      done.
  - apply Forall_cons in Hs as [Hc Hs]. by apply IH.
Qed.

Lemma classify_ascii t :
  is_ascii t → classify ucd t = classify ascii_only t.
Proof.
  intros Ht%strip_ascii. unfold classify.
  destruct (strip t) as [|c t'] eqn:Hst; [done|].
  by rewrite (upper_ascii _ laws), (lower_ascii _ laws).
Qed.

Lemma tokenize_query_ascii s :
  is_ascii s → tokenize_query ucd s = tokenize_query ascii_only s.
Proof.
  intros Hs%strip_ascii. unfold tokenize_query.
  destruct (strip s) as [|c s'] eqn:Hst; [done|].
  unfold findall.
  destruct (findall_from_ascii (length (c :: s')) None (c :: s'))
    as [<- Hall]; [done..|].
  f_equal. apply map_ext_Forall. eapply Forall_impl; [exact Hall|].
  intros t Ht. by apply classify_ascii.
Qed.
End Scanning.

(** ** Statements about the tokenizer and about whole queries *)

Lemma searches_det ucd index all_doc_ids query_str v1 v2 :
  searches ucd index all_doc_ids query_str v1 →
  searches ucd index all_doc_ids query_str v2 → v1 = v2.
Proof. rewrite !searches_parses. apply parses_det. Qed.

Lemma tokenize_query_keyword ucd w s1 s2 :
  unicode_laws ucd → is_ascii w →
  tokenize_query ucd (s1 ++ lit " " ++ w ++ lit " " ++ s2) =
  tokenize_query ucd s1 ++ tokenize_query ascii_only w ++ tokenize_query ucd s2.
Proof.
  intros laws Hw. simpl.
  rewrite (tokenize_query_space ucd laws s1) by done.
  rewrite (tokenize_query_space ucd laws w) by done.
  by rewrite (tokenize_query_ascii ucd laws w).
Qed.

Lemma tokenize_query_AND ucd s1 s2 :
  unicode_laws ucd →
  tokenize_query ucd (s1 ++ lit " AND " ++ s2) =
  tokenize_query ucd s1 ++ AND_OP :: tokenize_query ucd s2.
Proof.
  intros laws.
  apply (tokenize_query_keyword ucd (lit "AND") s1 s2 laws).
  repeat constructor.
Qed.

Lemma tokenize_query_OR ucd s1 s2 :
  unicode_laws ucd →
  tokenize_query ucd (s1 ++ lit " OR " ++ s2) =
  tokenize_query ucd s1 ++ OR_OP :: tokenize_query ucd s2.
Proof.
  intros laws.
  apply (tokenize_query_keyword ucd (lit "OR") s1 s2 laws).
  repeat constructor.
Qed.

Lemma tokenize_query_NOT ucd s :
  unicode_laws ucd →
  tokenize_query ucd (lit "NOT " ++ s) = NOT_OP :: tokenize_query ucd s.
Proof.
  intros laws.
  change (lit "NOT " ++ s) with (lit "NOT" ++ 32%N :: s).
  rewrite (tokenize_query_space ucd laws) by done.
  rewrite (tokenize_query_ascii ucd laws (lit "NOT")) by repeat constructor.
  reflexivity.
Qed.

(** Where the tokenizer does keep a run together: a run of characters
    other than whitespace and parentheses at whose start none of the three
    keyword alternatives matches is one match of the pattern, whatever
    it contains further on. *)
Lemma take_while_all {A} (p : A → bool) l :
  Forall (λ x, p x = true) l → take_while p l = l.
Proof. induction 1 as [|x l Hx Hl IH]; simpl; [done|]. by rewrite Hx, IH. Qed.

Lemma run_is_one_match ucd r :
  r ≠ [] → Forall (λ c, term_char c = true) r →
  match_keyword ucd (lit "AND") None r = None →
  match_keyword ucd (lit "OR") None r = None →
  match_keyword ucd (lit "NOT") None r = None →
  findall ucd r = [r].
Proof.
  intros Hne Hr Hand Hor Hnot. unfold findall.
  destruct r as [|c r']; [done|]. clear Hne.
  change (length (c :: r')) with (S (length r')).
  rewrite findall_from_S. unfold match_at. rewrite Hand, Hor, Hnot.
  pose proof Hr as [Hc _]%Forall_cons. unfold term_char in Hc.
  apply andb_true_iff in Hc as [_ Hc%negb_true_iff]. rewrite Hc.
  unfold match_run. rewrite take_while_all by done.
  change (length (c :: r')) with (S (length r')). cbv iota.
  rewrite take_ge, drop_ge by (simpl; lia). by destruct (length r').
Qed.

Example runs_kept_together :
  tokenize_query ru (lit "x-not") = [lit "x-not"] ∧
  tokenize_query ru (lit "android") = [lit "android"] ∧
  tokenize_query ru (lit "B.and.C") = [lit "b.and.c"].
Proof. split_and!; reflexivity. Qed.

(** C2, at the input [not-x]. The run [not-x] has no whitespace and no
    parenthesis in it, and it is not one token: [\bNOT\b] matches its
    first three letters, because the hyphen is not a word character, and
    the rest becomes a term of its own. *)
Theorem tokenize_splits_hyphenated_keyword :
  ∀ ucd, unicode_laws ucd →
    tokenize_query ucd (lit "not-x") = [NOT_OP; lit "-x"] ∧
    tokenize_query ucd (lit "not-x") ≠ [lit "not-x"].
Proof.
  intros ucd laws.
  rewrite (tokenize_query_ascii ucd laws) by repeat constructor.
  split; [reflexivity|discriminate].
Qed.

Lemma tokenize_splits_hyphenated_keyword_witness :
  tokenize_query ru (lit "not-x") = [NOT_OP; lit "-x"] ∧
  tokenize_query ru (lit "not-x") ≠ [lit "not-x"].
Proof. exact (tokenize_splits_hyphenated_keyword ru ru_laws). Defined.

(** C1, as stated, at A = "кот OR пёс" and B = "слон" over the index of the
    scenarios: AND binds tighter than OR, so the query "A AND B" is read as
    кот OR (пёс AND слон) and returns {1, 2}, while the intersection of the
    two results is empty. *)
Lemma set_algebra_counterexample :
  let A := kot ++ lit " OR " ++ pyos in
  let B := slon in
  boolean_search ru 20 A zoo_index zoo_docs = Some {[1%Z; 2%Z; 3%Z]} ∧
  boolean_search ru 20 B zoo_index zoo_docs = Some ∅ ∧
  boolean_search ru 20 (A ++ lit " AND " ++ B) zoo_index zoo_docs
    = Some {[1%Z; 2%Z]} ∧
  ({[1%Z; 2%Z]} : gset Z) ≠ {[1%Z; 2%Z; 3%Z]} ∩ ∅.
Proof.
  split_and!; [vm_compute; reflexivity..|].
  intros H. assert (1%Z ∈ ({[1%Z; 2%Z; 3%Z]} ∩ ∅ : gset Z)) as Hin.
  { rewrite <-H. apply elem_of_union_l. by apply elem_of_singleton. }
  apply elem_of_intersection in Hin as [_ Hin]. by apply elem_of_empty in Hin.
Qed.

Lemma is_or_expr_val index all_doc_ids tokens v :
  is_or_expr tokens → parses tokens index all_doc_ids v →
  or_val index all_doc_ids tokens v.
Proof.
  intros (index' & docs' & v' & Hv') Hp.
  destruct (proj2 (proj2 (grammar_any_index index' docs' index all_doc_ids))
              _ _ Hv') as [w Hw].
  by rewrite (parses_det _ _ _ _ _ Hp (or_val_parses _ _ _ _ Hw)).
Qed.

Lemma is_and_expr_val index all_doc_ids tokens v :
  is_and_expr tokens → parses tokens index all_doc_ids v →
  and_val index all_doc_ids tokens v.
Proof.
  intros (index' & docs' & v' & Hv') Hp.
  destruct (proj1 (proj2 (grammar_any_index index' docs' index all_doc_ids))
              _ _ Hv') as [w Hw].
  by rewrite (parses_det _ _ _ _ _ Hp
                (or_val_parses _ _ _ _ (ov_and _ _ _ _ Hw))).
Qed.

Lemma is_primary_val index all_doc_ids tokens v :
  is_primary tokens → parses tokens index all_doc_ids v →
  primary_val index all_doc_ids tokens v.
Proof.
  intros (index' & docs' & v' & Hv') Hp.
  destruct (proj1 (grammar_any_index index' docs' index all_doc_ids)
              _ _ Hv') as [w Hw].
  by rewrite (parses_det _ _ _ _ _ Hp
                (or_val_parses _ _ _ _ (ov_and _ _ _ _ (av_primary _ _ _ _ Hw)))).
Qed.

(** C1, amended. For queries A and B that the grammar derives:
    "A OR B" returns the union of the two results when A and B are
    [orExpr]s; "A AND B" returns the intersection when A and B are
    [andExpr]s (no OR outside parentheses); "NOT A" returns the universe
    minus the result of A when A is a [primary] (a term, a parenthesized
    query, or NOT followed by a primary). *)
Theorem set_algebra_well_formed :
  ∀ ucd (index : gmap str (gset Z)) (all_doc_ids : gset Z) (A B : str) a b,
    unicode_laws ucd →
    searches ucd index all_doc_ids A a →
    searches ucd index all_doc_ids B b →
    (is_or_expr (tokenize_query ucd A) → is_or_expr (tokenize_query ucd B) →
       searches ucd index all_doc_ids (A ++ lit " OR " ++ B) (a ∪ b)) ∧
    (is_and_expr (tokenize_query ucd A) → is_and_expr (tokenize_query ucd B) →
       searches ucd index all_doc_ids (A ++ lit " AND " ++ B) (a ∩ b)) ∧
    (is_primary (tokenize_query ucd A) →
       searches ucd index all_doc_ids (lit "NOT " ++ A) (all_doc_ids ∖ a)).
Proof.
  intros ucd index all_doc_ids A B a b laws HA HB.
  apply searches_parses in HA, HB. split_and!.
  - intros WA WB. apply searches_parses.
    rewrite tokenize_query_OR by done. apply or_val_parses.
    apply or_val_join; by apply is_or_expr_val.
  - intros WA WB. apply searches_parses.
    rewrite tokenize_query_AND by done. apply or_val_parses, ov_and.
    apply and_val_join; by apply is_and_expr_val.
  - intros WA. apply searches_parses.
    rewrite tokenize_query_NOT by done.
    apply or_val_parses, ov_and, av_primary, pv_not.
    by apply is_primary_val.
Qed.

Lemma kot_is_term : is_term kot.
Proof.
  unfold is_term. rewrite !not_elem_of_cons.
  split_and!; [discriminate..|apply not_elem_of_nil].
Qed.

Lemma pyos_is_term : is_term pyos.
Proof.
  unfold is_term. rewrite !not_elem_of_cons.
  split_and!; [discriminate..|apply not_elem_of_nil].
Qed.

Lemma set_algebra_well_formed_witness :
  searches ru zoo_index zoo_docs (kot ++ lit " OR " ++ pyos)
    ({[1%Z; 2%Z]} ∪ {[2%Z; 3%Z]}) ∧
  searches ru zoo_index zoo_docs (kot ++ lit " AND " ++ pyos)
    ({[1%Z; 2%Z]} ∩ {[2%Z; 3%Z]}) ∧
  searches ru zoo_index zoo_docs (lit "NOT " ++ kot)
    (zoo_docs ∖ {[1%Z; 2%Z]}).
Proof.
  assert (searches ru zoo_index zoo_docs kot {[1%Z; 2%Z]}) as HA
    by (exists 3; vm_compute; reflexivity).
  assert (searches ru zoo_index zoo_docs pyos {[2%Z; 3%Z]}) as HB
    by (exists 3; vm_compute; reflexivity).
  assert (primary_val zoo_index zoo_docs (tokenize_query ru kot)
            (term_set zoo_index kot)) as PA
    by (apply (pv_term _ _ kot), kot_is_term).
  assert (primary_val zoo_index zoo_docs (tokenize_query ru pyos)
            (term_set zoo_index pyos)) as PB
    by (apply (pv_term _ _ pyos), pyos_is_term).
  destruct (set_algebra_well_formed ru zoo_index zoo_docs kot pyos
              _ _ ru_laws HA HB) as (Hor & Hand & Hnot).
  split_and!.
  - apply Hor; do 3 eexists; apply ov_and, av_primary; eassumption.
  - apply Hand; do 3 eexists; apply av_primary; eassumption.
  - apply Hnot. do 3 eexists. eassumption.
Defined.

(** ** The parser over a store of objects *)

Module StoreFacts.
Import Store.

(** *** Nothing that exists is changed *)

Lemma get_set_alloc s h : get_set (alloc (OSet s) h).1 (alloc (OSet s) h).2 = Some s.
Proof.
  unfold get_set, alloc. cbn [fst snd].
  by rewrite list_lookup_middle.
Qed.

Lemma get_set_prefix h h' l s :
  h `prefix_of` h' → get_set l h = Some s → get_set l h' = Some s.
Proof.
  unfold get_set. intros Hp Hs.
  destruct (h !! l) as [o|] eqn:Ho; [|done].
  by rewrite (prefix_lookup_Some _ _ _ _ Ho Hp).
Qed.

Lemma get_dict_prefix h h' l d :
  h `prefix_of` h' → get_dict l h = Some d → get_dict l h' = Some d.
Proof.
  unfold get_dict. intros Hp Hs.
  destruct (h !! l) as [o|] eqn:Ho; [|done].
  by rewrite (prefix_lookup_Some _ _ _ _ Ho Hp).
Qed.

Lemma binop_prefix f a b h l h' :
  binop f a b h = Some (l, h') → h `prefix_of` h'.
Proof.
  unfold binop. destruct (get_set a h), (get_set b h); try done.
  intros [= <- <-]. by apply prefix_app_r.
Qed.

Lemma term_set_prefix index term h l h' :
  term_set index term h = Some (l, h') → h `prefix_of` h'.
Proof.
  unfold term_set. simpl.
  destruct (get_dict index _) as [d|]; [|done].
  destruct (get_set _ _) as [s|]; [|done].
  intros [= <- <-].
  etrans; by apply prefix_app_r.
Qed.

Section Frame.
Context (tokens : list str) (index : nat) (all_doc_ids : nat).

(** A method leaves the objects of [h] as they are and returns a
    reference to an object it has made; a loop may also return the
    reference it was entered with. *)
Local Abbreviation frame f :=
  (∀ h l pos' h', f h = Some (l, pos', h') →
     h `prefix_of` h' ∧ length h ≤ l).

Local Abbreviation frame_loop f :=
  (∀ h left_ l pos' h', f left_ h = Some (l, pos', h') →
     h `prefix_of` h' ∧ (l = left_ ∨ length h ≤ l)).

Lemma binop_fresh f a b h l h' :
  binop f a b h = Some (l, h') → h `prefix_of` h' ∧ l = length h.
Proof.
  intros Hb. split; [by eapply binop_prefix|].
  unfold binop in Hb. destruct (get_set a h), (get_set b h); try done.
  by injection Hb as <- <-.
Qed.

Lemma term_set_fresh term h l h' :
  term_set index term h = Some (l, h') → h `prefix_of` h' ∧ length h ≤ l.
Proof.
  intros Ht. split; [by eapply term_set_prefix|].
  unfold term_set in Ht. simpl in Ht.
  destruct (get_dict index _) as [d|]; [|done].
  destruct (get_set _ _) as [s|]; [|done].
  injection Ht as <- <-. rewrite length_app. lia.
Qed.

Lemma methods_frame n :
  (∀ pos, frame (parse_primary tokens index all_doc_ids n pos)) ∧
  (∀ pos, frame_loop
     (λ left_, parse_and_loop tokens index all_doc_ids n left_ pos)) ∧
  (∀ pos, frame (parse_and tokens index all_doc_ids n pos)) ∧
  (∀ pos, frame_loop
     (λ left_, parse_or_loop tokens index all_doc_ids n left_ pos)) ∧
  (∀ pos, frame (parse_or tokens index all_doc_ids n pos)).
Proof.
  induction n as [|n (IHp & IHal & IHa & IHol & IHo)];
    [by split_and!; intros|].
  split_and!;
    [intros pos h l pos' h' Hr|intros pos h left_ l pos' h' Hr
    |intros pos h l pos' h' Hr|intros pos h left_ l pos' h' Hr
    |intros pos h l pos' h' Hr]; simpl in Hr.
  - destruct (peek tokens pos) as [t|].
    2: { injection Hr as <- <- <-. split; [by apply prefix_app_r|done]. }
    repeat case_decide.
    + destruct (parse_or _ _ _ n _ h) as [[[s q] h1]|] eqn:Hs; [|done].
      apply IHo in Hs. by case_decide; simplify_eq.
    + destruct (parse_primary _ _ _ n _ h) as [[[s q] h1]|] eqn:Hs; [|done].
      apply IHp in Hs as [Hp1 _].
      destruct (binop _ _ _ h1) as [[s2 h2]|] eqn:Hb; [|done].
      apply binop_fresh in Hb as [Hp2 ->]. simplify_eq.
      split; [by etrans|by apply prefix_length].
    + destruct (term_set _ _ h) as [[s h1]|] eqn:Hs; [|done].
      apply term_set_fresh in Hs. by simplify_eq.
    + injection Hr as <- <- <-. split; [by apply prefix_app_r|done].
  - case_decide; [|simplify_eq; by split; [|left]].
    destruct (parse_primary _ _ _ n _ h) as [[[s q] h1]|] eqn:Hs; [|done].
    apply IHp in Hs as [Hp1 _].
    destruct (binop _ _ _ h1) as [[s2 h2]|] eqn:Hb; [|done].
    apply binop_fresh in Hb as [Hp2 ->]. apply IHal in Hr as [Hp3 Hl].
    split; [by do 2 (etrans; [done|])|]. right.
    apply prefix_length in Hp1, Hp2. lia.
  - destruct (parse_primary _ _ _ n _ h) as [[[s q] h1]|] eqn:Hs; [|done].
    apply IHp in Hs as [Hp1 Hs]. apply IHal in Hr as [Hp2 Hl].
    split; [by etrans|]. apply prefix_length in Hp1. lia.
  - case_decide; [|simplify_eq; by split; [|left]].
    destruct (parse_and _ _ _ n _ h) as [[[s q] h1]|] eqn:Hs; [|done].
    apply IHa in Hs as [Hp1 _].
    destruct (binop _ _ _ h1) as [[s2 h2]|] eqn:Hb; [|done].
    apply binop_fresh in Hb as [Hp2 ->]. apply IHol in Hr as [Hp3 Hl].
    split; [by do 2 (etrans; [done|])|]. right.
    apply prefix_length in Hp1, Hp2. lia.
  - destruct (parse_and _ _ _ n _ h) as [[[s q] h1]|] eqn:Hs; [|done].
    apply IHa in Hs as [Hp1 Hs]. apply IHol in Hr as [Hp2 Hl].
    split; [by etrans|]. apply prefix_length in Hp1. lia.
Qed.
End Frame.

End StoreFacts.

Arguments Store.alloc : simpl never.
Arguments Store.binop : simpl never.
Arguments Store.term_set : simpl never.

(** *** The store-level parser computes what the parser computes *)

Section Simulation.
Context (tokens : list str) (index_ref docs_ref : nat).
Context (index : gmap str (gset Z)) (all_doc_ids : gset Z).

Local Abbreviation holds h := (Store.holds h index_ref docs_ref index all_doc_ids).

Lemma holds_prefix h h' : h `prefix_of` h' → holds h → holds h'.
Proof.
  intros Hp (d & Hd & Hu & Hsets & Hidx). exists d. split_and!.
  - by eapply StoreFacts.get_dict_prefix.
  - by eapply StoreFacts.get_set_prefix.
  - intros term l Hl. destruct (Hsets term l Hl) as [s Hs].
    exists s. by eapply StoreFacts.get_set_prefix.
  - intros term. rewrite Hidx. destruct (d !! term) as [l|] eqn:Hl; [|done].
    simpl. destruct (Hsets term l Hl) as [s Hs].
    by rewrite Hs, (StoreFacts.get_set_prefix _ _ _ _ Hp Hs).
Qed.

Lemma alloc_sim s h :
  ∃ l h', Store.alloc (Store.OSet s) h = (l, h') ∧ h `prefix_of` h' ∧
          Store.get_set l h' = Some s.
Proof.
  eexists _, _. split; [done|]. split; [by apply prefix_app_r|].
  apply StoreFacts.get_set_alloc.
Qed.

Lemma binop_sim f a b x y h :
  Store.get_set a h = Some x → Store.get_set b h = Some y →
  ∃ l h', Store.binop f a b h = Some (l, h') ∧ h `prefix_of` h' ∧
          Store.get_set l h' = Some (f x y).
Proof.
  intros Ha Hb. unfold Store.binop. rewrite Ha, Hb.
  destruct (alloc_sim (f x y) h) as (l & h' & -> & ? & ?). by eexists _, _.
Qed.

Lemma term_set_sim term h :
  holds h →
  ∃ l h', Store.term_set index_ref term h = Some (l, h') ∧
          Store.get_set l h' = Some (term_set index term).
Proof.
  intros Hh. unfold Store.term_set.
  destruct (alloc_sim ∅ h) as (dflt & h1 & -> & Hp & Hdflt).
  destruct (holds_prefix _ _ Hp Hh) as (d & Hd & _ & Hsets & Hidx).
  rewrite Hd. unfold term_set. rewrite Hidx.
  destruct (d !! term) as [l|] eqn:Hl; simpl.
  - destruct (Hsets term l Hl) as [s Hs]. rewrite Hs.
    destruct (alloc_sim s h1) as (l' & h' & -> & _ & Hs'). by eexists _, _.
  - rewrite Hdflt.
    destruct (alloc_sim ∅ h1) as (l' & h' & -> & _ & Hs'). by eexists _, _.
Qed.

Local Abbreviation sim f g :=
  (∀ h v pos', holds h → f = Some (v, pos') →
     ∃ l h', g h = Some (l, pos', h') ∧ Store.get_set l h' = Some v).

Local Abbreviation sim_loop f g :=
  (∀ h lv ll v pos', holds h → Store.get_set ll h = Some lv →
     f lv = Some (v, pos') →
     ∃ l h', g ll h = Some (l, pos', h') ∧ Store.get_set l h' = Some v).

Lemma methods_sim n :
  (∀ pos, sim (parse_primary tokens index all_doc_ids n pos)
              (Store.parse_primary tokens index_ref docs_ref n pos)) ∧
  (∀ pos, sim_loop
       (λ lv, parse_and_loop tokens index all_doc_ids n lv pos)
       (λ ll, Store.parse_and_loop tokens index_ref docs_ref n ll pos)) ∧
  (∀ pos, sim (parse_and tokens index all_doc_ids n pos)
              (Store.parse_and tokens index_ref docs_ref n pos)) ∧
  (∀ pos, sim_loop
       (λ lv, parse_or_loop tokens index all_doc_ids n lv pos)
       (λ ll, Store.parse_or_loop tokens index_ref docs_ref n ll pos)) ∧
  (∀ pos, sim (parse_or tokens index all_doc_ids n pos)
              (Store.parse_or tokens index_ref docs_ref n pos)).
Proof.
  induction n as [|n (IHp & IHal & IHa & IHol & IHo)];
    [by split_and!; intros|].
  destruct (StoreFacts.methods_frame tokens index_ref docs_ref n)
    as (Fp & Fal & Fa & Fol & Fo).
  split_and!;
    [intros pos h v pos' Hh Hr|intros pos h lv ll v pos' Hh Hll Hr
    |intros pos h v pos' Hh Hr|intros pos h lv ll v pos' Hh Hll Hr
    |intros pos h v pos' Hh Hr].
  - rewrite parse_primary_S in Hr. simpl.
    destruct (peek tokens pos) as [t|].
    2: { simplify_eq. eexists _, _. split; [done|].
         apply (StoreFacts.get_set_alloc ∅ h). }
    repeat case_decide.
    + destruct (parse_or _ _ _ n _) as [[s q]|] eqn:Hs; [|done].
      destruct (IHo _ _ _ _ Hh Hs) as (l & h1 & -> & Hl).
      case_decide; simplify_eq; by eexists _, _.
    + destruct (parse_primary _ _ _ n _) as [[s q]|] eqn:Hs; [|done].
      destruct (IHp _ _ _ _ Hh Hs) as (l & h1 & Hrun & Hl). rewrite Hrun.
      apply Fp in Hrun as [Hrun _].
      destruct (holds_prefix _ _ Hrun Hh) as (_ & _ & Hu & _).
      destruct (binop_sim (∖) _ _ _ _ _ Hu Hl) as (l2 & h2 & -> & _ & ?).
      simplify_eq. by eexists _, _.
    + destruct (term_set_sim t h Hh) as (l & h1 & -> & ?).
      simplify_eq. by eexists _, _.
    + simplify_eq. eexists _, _. split; [done|].
      apply (StoreFacts.get_set_alloc ∅ h).
  - rewrite parse_and_loop_S in Hr. simpl.
    case_decide; [|simplify_eq; by eexists _, _].
    destruct (parse_primary _ _ _ n _) as [[s q]|] eqn:Hs; [|done].
    destruct (IHp _ _ _ _ Hh Hs) as (l & h1 & Hrun & Hl). rewrite Hrun.
    apply Fp in Hrun as [Hrun _].
    pose proof (StoreFacts.get_set_prefix _ _ _ _ Hrun Hll) as Hll1.
    destruct (binop_sim (∩) _ _ _ _ _ Hll1 Hl) as (l2 & h2 & -> & Hp2 & Hl2).
    eapply IHal; [|exact Hl2|exact Hr].
    eapply holds_prefix; [|done]. by etrans.
  - rewrite parse_and_S in Hr. simpl.
    destruct (parse_primary _ _ _ n _) as [[s q]|] eqn:Hs; [|done].
    destruct (IHp _ _ _ _ Hh Hs) as (l & h1 & Hrun & Hl). rewrite Hrun.
    apply Fp in Hrun as [Hrun _].
    eapply IHal; [|exact Hl|exact Hr]. by eapply holds_prefix.
  - rewrite parse_or_loop_S in Hr. simpl.
    case_decide; [|simplify_eq; by eexists _, _].
    destruct (parse_and _ _ _ n _) as [[s q]|] eqn:Hs; [|done].
    destruct (IHa _ _ _ _ Hh Hs) as (l & h1 & Hrun & Hl). rewrite Hrun.
    apply Fa in Hrun as [Hrun _].
    pose proof (StoreFacts.get_set_prefix _ _ _ _ Hrun Hll) as Hll1.
    destruct (binop_sim (∪) _ _ _ _ _ Hll1 Hl) as (l2 & h2 & -> & Hp2 & Hl2).
    eapply IHol; [|exact Hl2|exact Hr].
    eapply holds_prefix; [|done]. by etrans.
  - rewrite parse_or_S in Hr. simpl.
    destruct (parse_and _ _ _ n _) as [[s q]|] eqn:Hs; [|done].
    destruct (IHa _ _ _ _ Hh Hs) as (l & h1 & Hrun & Hl). rewrite Hrun.
    apply Fa in Hrun as [Hrun _].
    eapply IHol; [|exact Hl|exact Hr]. by eapply holds_prefix.
Qed.
End Simulation.

(** C8. Run on a store of objects, [boolean_search] changes no object that
    existed before the call: the index dictionary, every posting set it
    refers to and the universe set are the same objects with the same
    contents afterwards; the result is a newly allocated set. On a store
    that holds an index and a universe the call returns, and its result
    is the set that [boolean_search] computes from them. *)
Theorem search_leaves_index_unchanged :
  ∀ ucd (query_str : str) (index_ref docs_ref : nat) (h : list Store.obj),
    (∀ n r h',
       Store.boolean_search ucd n query_str index_ref docs_ref h
         = Some (r, h') →
       (∀ l o, h !! l = Some o → h' !! l = Some o) ∧ length h ≤ r) ∧
    (∀ index all_doc_ids n,
       Store.holds h index_ref docs_ref index all_doc_ids →
       3 * length (tokenize_query ucd query_str) + 3 ≤ n →
       ∃ r h' v,
         Store.boolean_search ucd n query_str index_ref docs_ref h
           = Some (r, h') ∧
         Store.get_set r h' = Some v ∧
         boolean_search ucd n query_str index all_doc_ids = Some v ∧
         Store.holds h' index_ref docs_ref index all_doc_ids).
Proof.
  intros ucd query_str index_ref docs_ref h. split.
  - intros n r h' Hr. unfold Store.boolean_search in Hr.
    assert (h `prefix_of` h' ∧ length h ≤ r) as [Hp Hfresh].
    { destruct (tokenize_query ucd query_str) as [|t ts].
      { injection Hr as <- <-. split; [by apply prefix_app_r|done]. }
      unfold Store.parse in Hr.
      destruct (Store.parse_or _ _ _ n 0 h) as [[[s q] h1]|] eqn:Hs; [|done].
      injection Hr as <- <-.
      by apply (StoreFacts.methods_frame (t :: ts) index_ref docs_ref n) in Hs. }
    split; [|done]. intros l o Hl. by eapply prefix_lookup_Some.
  - intros index all_doc_ids n Hh Hn.
    unfold Store.boolean_search, boolean_search.
    destruct (tokenize_query ucd query_str) as [|t ts] eqn:Ht.
    { eexists _, _, ∅.
      split_and!; [done|apply (StoreFacts.get_set_alloc ∅ h)|done|].
      eapply holds_prefix; [|done]. by apply prefix_app_r. }
    destruct (parse_returns (t :: ts) index all_doc_ids n Hn) as [v Hv].
    rewrite Hv. unfold Store.parse. unfold parse in Hv.
    destruct (parse_or _ _ _ n 0) as [[v' q]|] eqn:Hs; [|done].
    injection Hv as ->.
    destruct (proj2 (proj2 (proj2 (proj2
      (methods_sim (t :: ts) index_ref docs_ref
         index all_doc_ids n)))) 0 h v q Hh Hs) as (l & h' & Hrun & Hl).
    pose proof (proj1 (proj2 (proj2 (proj2 (proj2
      (StoreFacts.methods_frame (t :: ts)
         index_ref docs_ref n)))) 0 h l q h' Hrun)) as Hp.
    rewrite Hrun. exists l, h', v. split_and!; [done..|].
    by eapply holds_prefix.
Qed.

Example zoo_store_scenario4 :
  ∃ r tail_,
    Store.boolean_search ru 30
      (lit "(" ++ kot ++ lit " AND " ++ pyos ++ lit ") OR NOT " ++ pyos)
      0 3 zoo_store = Some (r, zoo_store ++ tail_) ∧
    Store.get_set r (zoo_store ++ tail_) = Some {[1%Z; 2%Z]}.
Proof. eexists _, _. split; vm_compute; reflexivity. Qed.

(** ** The order on strings *)

Global Instance str_le_total : Total str_le.
Proof.
  intros s. unfold str_le. induction s as [|a s IH]; intros [|b t]; simpl;
    [by left|by left|by right|].
  destruct (N.ltb_spec a b); [by left|].
  destruct (N.ltb_spec b a); [by right|].
  assert (a = b) as -> by lia. rewrite N.eqb_refl. simpl. apply IH.
Qed.

Global Instance str_le_trans : Transitive str_le.
Proof.
  intros s. unfold str_le.
  induction s as [|a s IH]; intros [|b t] [|c u]; simpl; try done.
  rewrite !orb_true_iff, !andb_true_iff, !N.ltb_lt, !N.eqb_eq.
  intros [?|[-> ?]] [?|[-> ?]]; [left; lia|by left|by left|].
  right. split; [done|]. by eapply IH.
Qed.

Global Instance str_le_antisymm : AntiSymm (=) str_le.
Proof.
  intros s. unfold str_le.
  induction s as [|a s IH]; intros [|b t]; simpl; try done.
  rewrite !orb_true_iff, !andb_true_iff, !N.ltb_lt, !N.eqb_eq.
  intros [?|[-> ?]] [?|[? ?]]; try lia. f_equal. by apply IH.
Qed.

(** A sorted list without repetitions is strictly sorted. *)
Lemma StronglySorted_strict {A} (R : relation A) l :
  StronglySorted R l → NoDup l → StronglySorted (λ x y, R x y ∧ x ≠ y) l.
Proof.
  induction 1 as [|x l Hl IH Hx]; intros Hnd; [constructor|].
  apply NoDup_cons in Hnd as [Hxl Hnd]. constructor; [by apply IH|].
  apply Forall_forall. intros y Hy. split.
  - by eapply Forall_forall in Hx.
  - by intros ->.
Qed.

Lemma sorted_terms_strict (index : gmap str (gset Z)) :
  StronglySorted str_lt (merge_sort str_le (map fst (map_to_list index))).
Proof.
  apply StronglySorted_strict.
  - apply StronglySorted_merge_sort; apply _.
  - rewrite merge_sort_Permutation. apply NoDup_fst_map_to_list.
Qed.

Global Instance Z_le_total : Total Z.le.
Proof. intros x y. lia. Qed.

Lemma StronglySorted_weaken {A} (R R' : relation A) l :
  (∀ x y, R x y → R' x y) → StronglySorted R l → StronglySorted R' l.
Proof.
  intros HR. induction 1 as [|x l Hl IH Hx]; constructor; [done|].
  eapply Forall_impl; [exact Hx|]. intros y. apply HR.
Qed.

Lemma sorted_doc_ids_strict (s : gset Z) :
  StronglySorted Z.lt (merge_sort Z.le (elements s)).
Proof.
  apply (StronglySorted_weaken (λ x y, (x ≤ y)%Z ∧ x ≠ y)).
  { intros x y [? ?]. lia. }
  apply StronglySorted_strict.
  - apply StronglySorted_merge_sort; apply _.
  - rewrite merge_sort_Permutation. apply NoDup_elements.
Qed.

(** ** What the builder puts into the index *)

Lemma split_from_fields s cur :
  no_space cur → Forall field (split_from cur s).
Proof.
  revert cur. induction s as [|c s IH]; intros cur Hcur; simpl.
  - destruct cur as [|x cur]; [constructor|].
    apply Forall_singleton. split.
    + intros H%(f_equal length). rewrite length_reverse in H.
        discriminate H.
    + by apply Forall_reverse.
  - destruct (is_space c) eqn:Hc.
    + destruct cur as [|x cur]; [by apply IH|].
      constructor; [|apply IH; constructor]. split.
      * intros H%(f_equal length). rewrite length_reverse in H.
        discriminate H.
      * by apply Forall_reverse.
    + apply IH. by constructor.
Qed.

Lemma split_fields s : Forall field (split s).
Proof. apply split_from_fields. constructor. Qed.

Lemma add_line_line_lemma ucd doc_id index line :
  add_line ucd doc_id index line =
  match line_lemma ucd line with
  | Some lemma => <[lemma := posting index lemma ∪ {[doc_id]}]> index
  | None => index
  end.
Proof.
  unfold add_line, line_lemma. destruct (strip line) eqn:Hs; [done|].
  by destruct (split _).
Qed.

Lemma add_line_posting ucd doc_id index line lemma d :
  d ∈ posting (add_line ucd doc_id index line) lemma ↔
  d ∈ posting index lemma ∨ (d = doc_id ∧ line_lemma ucd line = Some lemma).
Proof.
  rewrite add_line_line_lemma. destruct (line_lemma ucd line) as [t|].
  - unfold posting at 1. destruct (decide (t = lemma)) as [->|Hne].
    + rewrite lookup_insert_eq. simpl. rewrite elem_of_union, elem_of_singleton.
      naive_solver.
    + rewrite lookup_insert_ne by done. fold (posting index lemma).
      naive_solver.
  - naive_solver.
Qed.

Lemma add_lines_posting ucd doc_id lines index lemma d :
  d ∈ posting (foldl (add_line ucd doc_id) index lines) lemma ↔
  d ∈ posting index lemma ∨
  (d = doc_id ∧ ∃ line, line ∈ lines ∧ line_lemma ucd line = Some lemma).
Proof.
  revert index. induction lines as [|line lines IH]; intros index; simpl.
  - split; [by left|]. intros [?|(_ & line & []%elem_of_nil & _)]. done.
  - rewrite IH, add_line_posting. setoid_rewrite elem_of_cons.
    naive_solver.
Qed.

Lemma add_page_posting ucd index p lemma d :
  d ∈ posting (add_page ucd index p) lemma ↔
  d ∈ posting index lemma ∨
  (page_number p = Some d ∧
   ∃ text line, lemmas_txt p = Some text ∧ line ∈ readlines text ∧
                line_lemma ucd line = Some lemma).
Proof.
  unfold add_page. destruct (page_number p) as [doc_id|]; [|naive_solver].
  destruct (lemmas_txt p) as [text|]; [|naive_solver].
  rewrite add_lines_posting. naive_solver.
Qed.

Lemma add_pages_posting ucd pages index lemma d :
  d ∈ posting (foldl (add_page ucd) index pages) lemma ↔
  d ∈ posting index lemma ∨ contains ucd pages lemma d.
Proof.
  revert index. induction pages as [|p pages IH]; intros index; simpl.
  - split; [by left|]. intros [?|(p & ? & ? & []%elem_of_nil & _)]. done.
  - rewrite IH, add_page_posting. unfold contains.
    setoid_rewrite elem_of_cons. naive_solver.
Qed.

Lemma build_inverted_index_Some ucd entries :
  build_inverted_index ucd (Some entries) =
  Ok (index_of_pages ucd entries, index_text (index_of_pages ucd entries)).
Proof. reflexivity. Qed.

Lemma index_text_rows index : index_text index = concat (map row_text (rows index)).
Proof. unfold index_text, rows. by rewrite map_map. Qed.

Lemma contains_perm ucd entries entries' lemma d :
  entries ≡ₚ entries' → contains ucd entries lemma d → contains ucd entries' lemma d.
Proof.
  intros Hp (p & text & line & Hin & ?). exists p, text, line.
  split; [by rewrite <-Hp|done].
Qed.

Lemma index_of_pages_posting ucd entries lemma d :
  d ∈ posting (index_of_pages ucd entries) lemma ↔ contains ucd entries lemma d.
Proof.
  unfold index_of_pages. rewrite add_pages_posting. unfold posting at 1.
  rewrite lookup_empty. simpl. rewrite elem_of_empty.
  split.
  - intros [[]|H]. eapply contains_perm; [|done]. apply merge_sort_Permutation.
  - intros H. right. eapply contains_perm; [|done].
    symmetry. apply merge_sort_Permutation.
Qed.

Lemma line_lemma_field ucd line lemma :
  line_lemma ucd line = Some lemma → ∃ f, field f ∧ lemma = u_lower ucd f.
Proof.
  unfold line_lemma. pose proof (split_fields (strip line)) as Hf.
  destruct (split (strip line)) as [|f fs]; [done|]. intros [= <-].
  exists f. split; [|done]. by apply Forall_cons in Hf as [? _].
Qed.

Lemma add_line_well_keyed ucd doc_id index line :
  well_keyed ucd index → well_keyed ucd (add_line ucd doc_id index line).
Proof.
  intros Hidx. rewrite add_line_line_lemma.
  destruct (line_lemma ucd line) as [t|] eqn:Ht; [|done].
  intros term s. destruct (decide (t = term)) as [->|Hne].
  - rewrite lookup_insert_eq. intros [= <-].
    split; [by eapply line_lemma_field|].
    intros H. assert (doc_id ∈ (∅ : gset Z)) as []%elem_of_empty.
    rewrite <-H. apply elem_of_union_r. by apply elem_of_singleton.
  - rewrite lookup_insert_ne by done. apply Hidx.
Qed.

Lemma add_page_well_keyed ucd index p :
  well_keyed ucd index → well_keyed ucd (add_page ucd index p).
Proof.
  intros Hidx. unfold add_page.
  destruct (page_number p) as [doc_id|]; [|done].
  destruct (lemmas_txt p) as [text|]; [|done].
  revert index Hidx. induction (readlines text) as [|line lines IH];
    intros index Hidx; simpl; [done|].
  by apply IH, add_line_well_keyed.
Qed.

Lemma index_of_pages_well_keyed ucd entries :
  well_keyed ucd (index_of_pages ucd entries).
Proof.
  unfold index_of_pages.
  assert (well_keyed ucd ∅) as Hidx by (by intros term s).
  revert Hidx. generalize (∅ : gmap str (gset Z)).
  induction (merge_sort page_key_le entries) as [|p pages IH];
    intros index Hidx; simpl; [done|].
  by apply IH, add_page_well_keyed.
Qed.

(** Two indexes with the same postings are the same dictionary. *)
Lemma index_eq_posting ucd index index' :
  well_keyed ucd index → well_keyed ucd index' →
  (∀ lemma d, d ∈ posting index lemma ↔ d ∈ posting index' lemma) →
  index = index'.
Proof.
  intros Hk Hk' Hp. apply map_eq. intros t.
  assert (posting index t = posting index' t) as Ht
    by (apply set_eq; intros d; apply Hp).
  unfold posting in Ht.
  destruct (index !! t) as [s|] eqn:Hs, (index' !! t) as [s'|] eqn:Hs';
    simpl in Ht; [by rewrite Ht| | |done].
  - destruct (Hk _ _ Hs) as [_ Hne]. done.
  - destruct (Hk' _ _ Hs') as [_ Hne]. done.
Qed.

Lemma index_of_pages_perm ucd entries entries' :
  entries' ≡ₚ entries → index_of_pages ucd entries' = index_of_pages ucd entries.
Proof.
  intros Hp. apply (index_eq_posting ucd);
    [apply index_of_pages_well_keyed..|].
  intros lemma d. rewrite !index_of_pages_posting.
  split; apply contains_perm; [done|by symmetry].
Qed.

Lemma rows_posting index lemma d :
  (∃ ids, (lemma, ids) ∈ rows index ∧ d ∈ ids) ↔ d ∈ posting index lemma.
Proof.
  unfold rows. split.
  - intros (ids & Hin & Hd). apply list_elem_of_fmap in Hin as (t & [= -> ->] & _).
    by rewrite merge_sort_Permutation, elem_of_elements in Hd.
  - intros Hd. exists (merge_sort Z.le (elements (posting index lemma))).
    split; [|by rewrite merge_sort_Permutation, elem_of_elements].
    apply list_elem_of_fmap. exists lemma. split; [done|].
    rewrite merge_sort_Permutation. apply list_elem_of_fmap.
    unfold posting in Hd. destruct (index !! lemma) as [s|] eqn:Hs.
    + exists (lemma, s). split; [done|]. by apply elem_of_map_to_list.
    + by apply elem_of_empty in Hd.
Qed.

Lemma rows_fst index :
  map fst (rows index) = merge_sort str_le (map fst (map_to_list index)).
Proof. unfold rows. rewrite map_map. simpl. apply map_id. Qed.

(** C5. The output file has one line per lemma: the lemma, then its
    document ids, separated by single spaces. The lemmas are in strictly
    ascending order; the ids of a line are in strictly ascending order and
    are the documents that contain the lemma. Two sources in which the
    same documents contain the same lemmas give the same index and the
    same text; in particular the order of the entries does not matter. *)
Theorem build_output_sorted_and_deterministic :
  ∀ ucd (entries : list page_dir),
    ∃ index,
      build_inverted_index ucd (Some entries)
        = Ok (index, concat (map row_text (rows index))) ∧
      StronglySorted str_lt (map fst (rows index)) ∧
      Forall (λ r, StronglySorted Z.lt r.2) (rows index) ∧
      (∀ lemma d,
         (∃ ids, (lemma, ids) ∈ rows index ∧ d ∈ ids) ↔
         contains ucd entries lemma d) ∧
      (∀ entries',
         (∀ lemma d, contains ucd entries' lemma d ↔ contains ucd entries lemma d) →
         build_inverted_index ucd (Some entries')
           = build_inverted_index ucd (Some entries)) ∧
      (∀ entries', entries' ≡ₚ entries →
         build_inverted_index ucd (Some entries')
           = build_inverted_index ucd (Some entries)).
Proof.
  intros ucd entries. exists (index_of_pages ucd entries). split_and!.
  - by rewrite build_inverted_index_Some, index_text_rows.
  - rewrite rows_fst. apply sorted_terms_strict.
  - unfold rows. rewrite Forall_map. apply Forall_forall. intros t _.
    apply sorted_doc_ids_strict.
  - intros lemma d. by rewrite rows_posting, index_of_pages_posting.
  - intros entries' Hsame. rewrite !build_inverted_index_Some.
    assert (index_of_pages ucd entries' = index_of_pages ucd entries) as ->;
      [|done].
    apply (index_eq_posting ucd); [apply index_of_pages_well_keyed..|].
    intros lemma d. by rewrite !index_of_pages_posting.
  - intros entries' Hp.
    by rewrite !build_inverted_index_Some, (index_of_pages_perm _ _ _ Hp).
Qed.

(** ** What the loader does with a field that is no integer *)

Lemma ints_cases ucd xs :
  (∃ ds, ints ucd xs = Ok ds ∧ Forall2 (λ x d, py_int ucd x = Some d) xs ds) ∨
  (∃ y, ints ucd xs = Raise (ValueError y) ∧ y ∈ xs ∧ py_int ucd y = None).
Proof.
  induction xs as [|x xs IH]; simpl.
  - left. exists []. by split.
  - destruct (py_int ucd x) as [d|] eqn:Hx.
    + destruct IH as [(ds & -> & Hds)|(y & -> & Hy & Hbad)].
      * left. exists (d :: ds). split; [done|by constructor].
      * right. exists y. split_and!; [done| |done]. by right.
    + right. exists x. split_and!; [done| |done]. by left.
Qed.

Lemma load_line_cases ucd index line :
  (∃ index', load_line ucd index line = Ok index' ∧
     Forall (λ x, is_Some (py_int ucd x)) (tail (split (strip line)))) ∨
  (∃ y, load_line ucd index line = Raise (ValueError y) ∧
     y ∈ tail (split (strip line)) ∧ py_int ucd y = None).
Proof.
  unfold load_line. destruct (strip line) as [|c s] eqn:Hs.
  { left. eexists. split; [done|]. constructor. }
  destruct (split (c :: s)) as [|p rest].
  { left. eexists. split; [done|]. constructor. }
  simpl. destruct (ints_cases ucd rest) as [(ds & -> & Hds)|(y & -> & ? & ?)].
  - left. eexists. split; [done|].
    clear -Hds. induction Hds; constructor; by eauto.
  - right. by exists y.
Qed.

Lemma load_lines_bad_field ucd index lines x :
  bad_field ucd lines x →
  ∃ y, load_lines ucd index lines = Raise (ValueError y) ∧ bad_field ucd lines y.
Proof.
  intros (line & Hline & Hx & Hbad). revert index.
  induction lines as [|l lines IH]; intros index; [by apply elem_of_nil in Hline|].
  simpl.
  destruct (load_line_cases ucd index l) as [(index' & -> & Hok)|(y & -> & ? & ?)].
  - apply elem_of_cons in Hline as [->|Hline].
    + eapply Forall_forall in Hok as [d Hd]; [|done]. congruence.
    + destruct (IH Hline index') as (y & -> & l' & ? & ? & ?).
      exists y. split; [done|]. exists l'. split; [by right|done].
  - exists y. split; [done|]. exists l. split; [by left|done].
Qed.

(** C3, as stated, at two files: "кот 1 x" is line 1 of [a.txt] and
    "пёс x 2" is line 2 of [b.txt]. Both loads raise the same exception,
    the [ValueError] of [int("x")]: it carries the field and neither the
    file nor the line. *)
Lemma parse_error_counterexample :
  ∃ e,
    load_inverted_index ru (lit "a.txt")
      (Some (kot ++ lit " 1 x" ++ [10%N])) = Raise e ∧
    load_inverted_index ru (lit "b.txt")
      (Some (kot ++ lit " 1" ++ [10%N] ++ pyos ++ lit " x 2" ++ [10%N]))
      = Raise e ∧
    e = ValueError (lit "x").
Proof. eexists. split_and!; vm_compute; reflexivity. Qed.

(** C3, amended. When some field after the lemma is no integer, the load
    fails with the [ValueError] of [int] for such a field of the file; the
    exception carries that field, and it is the same whatever the path of
    the file is. *)
Theorem load_fails_on_non_integer_field :
  ∀ ucd (path : str) (text : str) (x : str),
    bad_field ucd (readlines text) x →
    ∃ y,
      load_inverted_index ucd path (Some text) = Raise (ValueError y) ∧
      bad_field ucd (readlines text) y ∧
      ∀ path', load_inverted_index ucd path' (Some text) = Raise (ValueError y).
Proof.
  intros ucd path text x Hx. unfold load_inverted_index.
  destruct (load_lines_bad_field ucd ∅ _ x Hx) as (y & Hy & Hbad).
  exists y. by split_and!.
Qed.

Lemma load_fails_on_non_integer_field_witness :
  ∃ y,
    load_inverted_index ru (lit "inverted_index.txt")
      (Some (kot ++ lit " 1 x" ++ [10%N])) = Raise (ValueError y) ∧
    bad_field ru (readlines (kot ++ lit " 1 x" ++ [10%N])) y ∧
    ∀ path',
      load_inverted_index ru path' (Some (kot ++ lit " 1 x" ++ [10%N]))
        = Raise (ValueError y).
Proof.
  apply (load_fails_on_non_integer_field ru (lit "inverted_index.txt")
           (kot ++ lit " 1 x" ++ [10%N]) (lit "x")).
  exists (kot ++ lit " 1 x" ++ [10%N]). split_and!.
  - vm_compute. by left.
  - vm_compute. right. by left.
  - vm_compute. reflexivity.
Defined.

(** ** Writing an integer and reading it back *)

Lemma digit_char_digit_of c : digit_char c → is_Some (digit_of c).
Proof.
  unfold digit_char, digit_of. intros Hc.
  repeat match goal with
         | |- context [(c =? ?k)%N] =>
             destruct (N.eqb_spec c k); [by eexists|]
         end.
  lia.
Qed.

Lemma str_of_uint_digits u : Forall digit_char (str_of_uint u).
Proof.
  induction u; simpl; constructor; try done; unfold digit_char; lia.
Qed.

Lemma digits_str_of_uint u : digits (str_of_uint u) = Some u.
Proof. induction u; simpl; [done|by rewrite IHu..]. Qed.

Lemma unsigned_str_of_uint u :
  u ≠ Decimal.Nil → unsigned (str_of_uint u) = Some u.
Proof.
  intros Hu. unfold unsigned.
  pose proof (digits_str_of_uint u) as Hd.
  pose proof (str_of_uint_digits u) as Hc.
  destruct (str_of_uint u) as [|c s] eqn:Hs.
  { destruct u; done. }
  apply Forall_cons in Hc as [[d Hc]%digit_char_digit_of _]. by rewrite Hc.
Qed.

Lemma drop_while_none {A} (p : A → bool) l :
  Forall (λ x, p x = false) l → drop_while p l = l.
Proof. destruct 1 as [|x l Hx Hl]; simpl; [done|]. by rewrite Hx. Qed.

Lemma str_of_int_chars d : Forall int_char (str_of_int d).
Proof.
  unfold str_of_int.
  destruct (Z.to_int d) as [u|u]; [|constructor; [by left|]];
    (eapply Forall_impl; [apply str_of_uint_digits|]); by right.
Qed.

Lemma str_of_int_nonempty d : str_of_int d ≠ [].
Proof.
  unfold str_of_int. destruct d as [|p|p]; simpl; [done| |done].
  pose proof (DecimalPos.Unsigned.to_uint_nonnil p).
  by destruct (Pos.to_uint p).
Qed.

Lemma int_char_ascii ucd c : int_char c → to_ascii ucd c = c.
Proof.
  unfold int_char, digit_char, to_ascii. intros Hc.
  destruct (N.ltb_spec c 127); [done|lia].
Qed.

Lemma int_char_not_c_space c : int_char c → c_space c = false.
Proof.
  unfold int_char, digit_char, c_space. intros Hc.
  apply not_true_is_false.
  rewrite orb_true_iff, andb_true_iff, !N.leb_le, N.eqb_eq. lia.
Qed.

Lemma int_char_not_space c : int_char c → is_space c = false.
Proof.
  unfold int_char, digit_char. intros Hc. apply is_space_false. lia.
Qed.

Lemma py_int_str_of_int ucd d : py_int ucd (str_of_int d) = Some d.
Proof.
  unfold py_int. pose proof (str_of_int_chars d) as Hc.
  assert (map (to_ascii ucd) (str_of_int d) = str_of_int d) as ->.
  { rewrite <-(map_id (str_of_int d)) at 2. apply map_ext_Forall.
    eapply Forall_impl; [exact Hc|]. intros c. apply int_char_ascii. }
  assert (Forall (λ c, c_space c = false) (str_of_int d)) as Hs.
  { eapply Forall_impl; [exact Hc|]. intros c. apply int_char_not_c_space. }
  rewrite (drop_while_none _ _ Hs).
  rewrite drop_while_none by (by apply Forall_reverse).
  rewrite reverse_involutive. clear Hc Hs.
  rewrite <-(DecimalZ.of_to d) at 2. unfold str_of_int.
  assert (∀ u, u ≠ Decimal.Nil →
            ∃ c s, str_of_uint u = c :: s ∧ digit_char c) as Hhead.
  { intros u Hu. pose proof (str_of_uint_digits u) as Hc.
    destruct (str_of_uint u) as [|c s] eqn:Hs; [by destruct u|].
    exists c, s. split; [done|]. by apply Forall_cons in Hc as [? _]. }
  assert (Z.to_int d = Decimal.Pos (Decimal.D0 Decimal.Nil) ∨
          ∃ p, Z.to_int d = Decimal.Pos (Pos.to_uint p) ∨
               Z.to_int d = Decimal.Neg (Pos.to_uint p)) as Hd.
  { destruct d as [|p|p]; [by left|right; exists p; by left
                          |right; exists p; by right]. }
  destruct Hd as [->|(p & [-> | ->])].
  - reflexivity.
  - pose proof (DecimalPos.Unsigned.to_uint_nonnil p) as Hp.
    destruct (Hhead _ Hp) as (c & s & Hcs & Hc).
    rewrite Hcs. unfold digit_char in Hc.
    destruct (N.eqb_spec c 45); [lia|]. destruct (N.eqb_spec c 43); [lia|].
    rewrite <-Hcs. by rewrite unsigned_str_of_uint.
  - pose proof (DecimalPos.Unsigned.to_uint_nonnil p) as Hp.
    rewrite N.eqb_refl. by rewrite unsigned_str_of_uint.
Qed.

Lemma ints_str_of_int ucd ds : ints ucd (map str_of_int ds) = Ok ds.
Proof.
  induction ds as [|d ds IH]; simpl; [done|].
  by rewrite py_int_str_of_int, IH.
Qed.

(** ** Reading the output file back *)

Lemma split_from_spaces cur ws :
  Forall (λ c, is_space c = true) ws →
  split_from cur ws = split_from cur [].
Proof.
  intros Hws. revert cur. induction Hws as [|c ws Hc Hws IH]; intros cur;
    [done|].
  simpl. rewrite Hc. destruct cur; [by rewrite IH|]. by rewrite IH.
Qed.

Lemma split_from_app_spaces cur s ws :
  Forall (λ c, is_space c = true) ws →
  split_from cur (s ++ ws) = split_from cur s.
Proof.
  intros Hws. revert cur. induction s as [|c s IH]; intros cur.
  - by apply split_from_spaces.
  - simpl. destruct (is_space c); [|by rewrite IH].
    destruct cur; by rewrite IH.
Qed.

Lemma split_strip s : split (strip s) = split s.
Proof.
  unfold split, strip.
  destruct (rstrip_spaces (lstrip s)) as (ws & Hs & Hws).
  rewrite <-(split_from_app_spaces _ _ ws Hws), <-Hs. clear ws Hs Hws.
  unfold lstrip. induction s as [|c s IH]; simpl; [done|].
  destruct (is_space c) eqn:Hc; [done|]. simpl. by rewrite Hc.
Qed.

Lemma split_from_field cur w rest :
  no_space w → split_from cur (w ++ rest) = split_from (reverse w ++ cur) rest.
Proof.
  intros Hw. revert cur. induction Hw as [|c w Hc Hw IH]; intros cur; [done|].
  simpl. rewrite Hc, IH. by rewrite reverse_cons, <-app_assoc.
Qed.

Lemma split_join ws tail_ :
  Forall field ws → Forall (λ c, is_space c = true) tail_ →
  split (join (lit " ") ws ++ tail_) = ws.
Proof.
  intros Hws Htail. unfold split.
  induction Hws as [|w ws [Hne Hw] Hws IH].
  { simpl. by rewrite split_from_spaces. }
  assert (∀ rest, split_from [] (w ++ rest) = split_from (reverse w) rest) as Hword.
  { intros rest. by rewrite split_from_field, app_nil_r. }
  assert (reverse w ≠ []) as Hrev.
  { intros H%(f_equal length). rewrite length_reverse in H. by destruct w. }
  destruct ws as [|w' ws].
  - simpl. rewrite Hword, split_from_spaces by done. simpl.
    destruct (reverse w) eqn:Hr; [done|]. by rewrite <-Hr, reverse_involutive.
  - change (join (lit " ") (w :: w' :: ws))
      with (w ++ 32%N :: join (lit " ") (w' :: ws)).
    rewrite <-app_assoc, Hword. simpl.
    destruct (reverse w) eqn:Hr; [done|].
    rewrite <-Hr, reverse_involutive. f_equal. apply IH.
Qed.

Lemma no_space_no_newline s : no_space s → no_newline s.
Proof.
  intros Hs. eapply Forall_impl; [exact Hs|].
  intros c Hc. split; intros ->; by vm_compute in Hc.
Qed.

Lemma readlines_from_line cur body rest :
  no_newline body →
  readlines_from cur (body ++ 10%N :: rest) =
  (reverse cur ++ body ++ [10%N]) :: readlines_from [] rest.
Proof.
  intros Hb. revert cur. induction Hb as [|c body [H10 H13] Hb IH]; intros cur.
  - simpl. by rewrite reverse_cons.
  - simpl. destruct (N.eqb_spec c 10); [done|].
    destruct (N.eqb_spec c 13); [done|].
    rewrite IH, reverse_cons, <-app_assoc. done.
Qed.

Lemma str_of_int_field d : field (str_of_int d).
Proof.
  split; [apply str_of_int_nonempty|].
  eapply Forall_impl; [apply str_of_int_chars|]. apply int_char_not_space.
Qed.

Lemma join_no_space ws :
  Forall no_space ws → no_newline (join (lit " ") ws).
Proof.
  induction 1 as [|w ws Hw Hws IH]; [constructor|].
  destruct ws as [|w' ws]; [by apply no_space_no_newline|].
  change (join (lit " ") (w :: w' :: ws))
    with (w ++ 32%N :: join (lit " ") (w' :: ws)).
  apply Forall_app. split; [by apply no_space_no_newline|].
  constructor; [done|exact IH].
Qed.

(** A line of the output file, split into fields. *)
Lemma row_text_fields r :
  field r.1 →
  ∃ body, row_text r = body ++ [10%N] ∧ no_newline body ∧
          split (strip (row_text r)) = r.1 :: map str_of_int r.2.
Proof.
  intros Hf. destruct r as [t ids]. simpl in *.
  assert (Forall field (t :: map str_of_int ids)) as Hfields.
  { constructor; [done|]. rewrite Forall_map. apply Forall_forall.
    intros d _. apply str_of_int_field. }
  exists (t ++ lit " " ++ join (lit " ") (map str_of_int ids)). split_and!.
  - unfold row_text. simpl. by rewrite <-!app_assoc.
  - apply Forall_app. split; [by apply no_space_no_newline, Hf|].
    constructor; [done|]. apply join_no_space.
    rewrite Forall_map. apply Forall_forall. intros d _.
    apply str_of_int_field.
  - rewrite split_strip. unfold row_text. cbn [fst snd].
    destruct ids as [|d ids].
    + apply (split_join [t] [32%N; 10%N]); [done|].
      by repeat constructor.
    + assert (t ++ lit " " ++ join (lit " ") (map str_of_int (d :: ids))
                ++ [10%N]
              = join (lit " ") (t :: map str_of_int (d :: ids)) ++ [10%N])
        as -> by (cbn [map join]; by rewrite <-!app_assoc).
      apply (split_join (t :: map str_of_int (d :: ids)) [10%N]); [done|].
      by repeat constructor.
Qed.

Lemma readlines_rows rs rest :
  Forall (λ r, field r.1) rs →
  readlines (concat (map row_text rs) ++ rest) =
  map row_text rs ++ readlines rest.
Proof.
  unfold readlines. induction 1 as [|r rs Hr Hrs IH]; [done|].
  simpl. destruct (row_text_fields r Hr) as (body & Hbody & Hnl & _).
  rewrite Hbody at 1. rewrite <-!app_assoc. simpl.
  rewrite readlines_from_line by done. rewrite IH. simpl. by rewrite Hbody.
Qed.

Lemma load_line_row ucd index r :
  field r.1 → u_lower ucd r.1 = r.1 →
  load_line ucd index (row_text r) = Ok (put_row index r).
Proof.
  intros Hf Hl. unfold load_line.
  destruct (row_text_fields r Hf) as (_ & _ & _ & Hsplit).
  destruct (strip (row_text r)) as [|c s] eqn:Hs; [done|].
  rewrite Hsplit. simpl. by rewrite ints_str_of_int, Hl.
Qed.

Lemma load_lines_rows ucd index rs :
  Forall (λ r, field r.1 ∧ u_lower ucd r.1 = r.1) rs →
  load_lines ucd index (map row_text rs) =
  Ok (foldl put_row index rs).
Proof.
  intros Hrs. revert index.
  induction Hrs as [|r rs [Hf Hl] Hrs IH]; intros index; [done|].
  simpl. by rewrite load_line_row, IH.
Qed.

Lemma insert_rows_other (rs : list (str * list Z)) acc k :
  k ∉ map fst rs →
  foldl put_row acc rs !! k = acc !! k.
Proof.
  revert acc. induction rs as [|r rs IH]; intros acc Hk; [done|].
  simpl in *. apply not_elem_of_cons in Hk as [Hne Hk].
  rewrite IH by done. unfold put_row. by rewrite lookup_insert_ne.
Qed.

Lemma insert_rows_key (rs : list (str * list Z)) (acc : gmap str (gset Z)) k ids :
  NoDup (map fst rs) → (k, ids) ∈ rs →
  foldl put_row acc rs !! k
    = Some (list_to_set ids).
Proof.
  revert acc. induction rs as [|r rs IH]; intros acc Hnd Hin;
    [by apply elem_of_nil in Hin|].
  simpl in *. apply NoDup_cons in Hnd as [Hr Hnd].
  apply elem_of_cons in Hin as [<-|Hin].
  - rewrite insert_rows_other by done. unfold put_row. simpl.
    by rewrite lookup_insert_eq.
  - by apply IH.
Qed.

Lemma insert_rows_index (index : gmap str (gset Z)) :
  foldl put_row ∅ (rows index) = index.
Proof.
  apply map_eq. intros k.
  assert (NoDup (map fst (rows index))) as Hnd.
  { rewrite rows_fst, merge_sort_Permutation. apply NoDup_fst_map_to_list. }
  destruct (index !! k) as [s|] eqn:Hs.
  - rewrite (insert_rows_key _ _ k (merge_sort Z.le (elements s))); [|done|].
    + f_equal. apply set_eq. intros d.
      by rewrite elem_of_list_to_set, merge_sort_Permutation, elem_of_elements.
    + unfold rows. apply list_elem_of_fmap. exists k. unfold posting.
      rewrite Hs. split; [done|]. rewrite merge_sort_Permutation.
      apply list_elem_of_fmap. exists (k, s). split; [done|].
      by apply elem_of_map_to_list.
  - rewrite insert_rows_other; [done|].
    rewrite rows_fst, merge_sort_Permutation.
    intros ([k' s] & -> & Hin%elem_of_map_to_list)%list_elem_of_fmap.
    simpl in *. congruence.
Qed.

(** Loading the text that was written for a well-keyed index gives the
    index back. *)
Lemma load_index_text ucd path index :
  unicode_laws ucd → well_keyed ucd index →
  load_inverted_index ucd path (Some (index_text index)) = Ok index.
Proof.
  intros laws Hk. unfold load_inverted_index.
  assert (Forall (λ r, field r.1 ∧ u_lower ucd r.1 = r.1) (rows index)) as Hrows.
  { unfold rows. rewrite Forall_map. apply Forall_forall. intros t Ht.
    rewrite merge_sort_Permutation in Ht.
    apply list_elem_of_fmap in Ht as ([t' s] & -> & Hin%elem_of_map_to_list).
    simpl. destruct (Hk _ _ Hin) as [(f & [Hne Hns] & ->) _].
    split; [split|].
    - by apply (lower_nonempty _ laws).
    - by apply (lower_no_space _ laws).
    - apply (lower_lower _ laws). }
  rewrite index_text_rows.
  rewrite <-(app_nil_r (concat _)), readlines_rows, app_nil_r.
  - by rewrite load_lines_rows, insert_rows_index.
  - eapply Forall_impl; [exact Hrows|]. by intros r [? _].
Qed.

(** C4. Loading the text that [build_inverted_index] writes gives, for
    every lemma, the set of the documents of the source that contain the
    lemma (and the index that the build returned). *)
Theorem load_build_round_trip :
  ∀ ucd (entries : list page_dir) (path : str),
    unicode_laws ucd →
    ∃ index text loaded,
      build_inverted_index ucd (Some entries) = Ok (index, text) ∧
      load_inverted_index ucd path (Some text) = Ok loaded ∧
      loaded = index ∧
      ∀ lemma d, d ∈ posting loaded lemma ↔ contains ucd entries lemma d.
Proof.
  intros ucd entries path laws.
  exists (index_of_pages ucd entries),
    (index_text (index_of_pages ucd entries)), (index_of_pages ucd entries).
  split_and!; [done| |done|].
  - apply load_index_text; [done|]. apply index_of_pages_well_keyed.
  - intros lemma d. apply index_of_pages_posting.
Qed.

Lemma load_build_round_trip_witness :
  ∃ index text loaded,
    build_inverted_index ru (Some zoo_pages) = Ok (index, text) ∧
    load_inverted_index ru (lit "inverted_index.txt") (Some text) = Ok loaded ∧
    loaded = index ∧
    ∀ lemma d, d ∈ posting loaded lemma ↔ contains ru zoo_pages lemma d.
Proof.
  exact (load_build_round_trip ru zoo_pages (lit "inverted_index.txt") ru_laws).
Defined.

(** ** Whitespace at the ends of a string *)

Lemma drop_while_stop {A} (p : A → bool) l :
  (∀ x, head l = Some x → p x = false) → drop_while p l = l.
Proof. destruct l as [|x l]; [done|]. intros H. simpl. by rewrite (H x). Qed.

Lemma drop_while_head {A} (p : A → bool) l x :
  head (drop_while p l) = Some x → p x = false.
Proof.
  induction l as [|y l IH]; simpl; [done|].
  destruct (p y) eqn:Hy; [done|]. simpl. by intros [= <-].
Qed.

Lemma drop_while_app_all {A} (p : A → bool) l1 l2 :
  Forall (λ x, p x = true) l1 → drop_while p (l1 ++ l2) = drop_while p l2.
Proof. induction 1 as [|x l1 Hx Hl IH]; simpl; [done|]. by rewrite Hx. Qed.

Lemma strip_unique l m r :
  Forall (λ c, is_space c = true) l → Forall (λ c, is_space c = true) r →
  trimmed m → strip (l ++ m ++ r) = m.
Proof.
  intros Hl Hr [Hh Hla]. unfold strip, lstrip, rstrip.
  rewrite drop_while_app_all by done.
  destruct m as [|c m].
  { simpl. rewrite <-(app_nil_r r), drop_while_app_all by done. done. }
  rewrite (drop_while_stop _ ((c :: m) ++ r))
    by (intros x [= <-]; by apply Hh).
  rewrite reverse_app, drop_while_app_all by (by apply Forall_reverse).
  rewrite drop_while_stop; [by rewrite reverse_involutive|].
  intros x Hx. apply Hla. by rewrite <-head_reverse.
Qed.

Lemma strip_decomp s :
  ∃ l r, s = l ++ strip s ++ r ∧
    Forall (λ c, is_space c = true) l ∧ Forall (λ c, is_space c = true) r ∧
    trimmed (strip s).
Proof.
  destruct (rstrip_spaces (lstrip s)) as (r & Hr & Hrs).
  exists (take_while is_space s), r. split_and!.
  - unfold strip. rewrite <-Hr. unfold lstrip. by rewrite take_drop_while.
  - apply take_while_Forall.
  - done.
  - split.
    + intros c Hc. unfold strip in Hc.
      apply (drop_while_head is_space s). fold (lstrip s).
      rewrite Hr. destruct (rstrip (lstrip s)); [done|]. done.
    + intros c Hc. unfold strip, rstrip in Hc.
      rewrite <-head_reverse, reverse_involutive in Hc.
      by apply drop_while_head in Hc.
Qed.

Lemma strip_trimmed s : trimmed (strip s).
Proof. by destruct (strip_decomp s) as (? & ? & ? & ? & ? & ?). Qed.

Lemma strip_id s : trimmed s → strip s = s.
Proof.
  intros Hs. rewrite <-(app_nil_r s) at 1.
  by apply (strip_unique [] s []).
Qed.

Lemma strip_strip s : strip (strip s) = strip s.
Proof. apply strip_id, strip_trimmed. Qed.

Lemma strip_app_spaces s ws :
  Forall (λ c, is_space c = true) ws → strip (s ++ ws) = strip s.
Proof.
  intros Hws. destruct (strip_decomp s) as (l & r & Hs & Hl & Hr & Ht).
  rewrite Hs at 1. rewrite <-!app_assoc.
  apply strip_unique; [done| |done]. by apply Forall_app.
Qed.

Lemma strip_Forall (P : N → Prop) s : Forall P s → Forall P (strip s).
Proof.
  destruct (strip_decomp s) as (l & r & Hs & _). rewrite Hs at 1.
  rewrite !Forall_app. tauto.
Qed.

(** ** The crawler *)

Lemma readlines_from_lines cur s :
  no_newline cur →
  Forall (λ line, ∃ body, no_newline body ∧
            (line = body ++ [10%N] ∨ line = body))
    (readlines_from cur s).
Proof.
  revert cur. induction s as [|c s IH]; intros cur Hcur; simpl.
  - destruct cur as [|x cur]; [constructor|]. apply Forall_singleton.
    exists (reverse (x :: cur)). split; [by apply Forall_reverse|by right].
  - assert (∃ body, no_newline body ∧
              (reverse (10%N :: cur) = body ++ [10%N] ∨
               reverse (10%N :: cur) = body)) as Hline.
    { exists (reverse cur). split; [by apply Forall_reverse|].
      left. by rewrite reverse_cons. }
    destruct (N.eqb_spec c 10) as [->|H10].
    { constructor; [done|]. apply IH. constructor. }
    destruct (N.eqb_spec c 13) as [->|H13].
    { destruct s as [|c' s]; [by apply Forall_singleton|].
      destruct (N.eqb_spec c' 10) as [->|H10'].
      - constructor; [done|].
        assert (Forall (λ line, ∃ body, no_newline body ∧
                  (line = body ++ [10%N] ∨ line = body))
                  (readlines_from [] (10%N :: s))) as H
          by (apply IH; constructor).
        simpl in H. by apply Forall_cons in H as [_ H].
      - constructor; [done|]. apply IH. constructor. }
    apply IH. by constructor.
Qed.

Lemma strip_line_no_newline line :
  (∃ body, no_newline body ∧ (line = body ++ [10%N] ∨ line = body)) →
  no_newline (strip line).
Proof.
  intros (body & Hb & [->| ->]).
  - rewrite strip_app_spaces by (by repeat constructor).
    by apply strip_Forall.
  - by apply strip_Forall.
Qed.

Lemma load_urls_clean path text :
  ∃ urls, Crawler.load_urls path (Some text) = Ok urls ∧ Forall clean urls.
Proof.
  eexists. split; [reflexivity|].
  rewrite Forall_map. apply Forall_forall. intros line Hin.
  apply list_elem_of_filter in Hin as [Hne Hin].
  split_and!; [done|apply strip_trimmed|].
  apply strip_line_no_newline.
  pose proof (readlines_from_lines [] text) as H.
  rewrite Forall_forall in H. apply H; [constructor|done].
Qed.

Section RunFacts.
Context (Request : str → option Crawler.exception).
Context (urlopen : nat → str → (str * str * str) + Crawler.exception).

Local Abbreviation fetch_url := (Crawler.fetch_url Request urlopen).
Local Abbreviation run_loop := (Crawler.run_loop Request urlopen).

(** The variables when the loop is left, by a [break], at the end of the
    list or by an exception. *)
Lemma run_loop_spec urls i st m :
  Crawler.saved st = Z.of_nat m → Crawler.file_index st = Z.of_nat m →
  let pages := take (100 - m) (fetched fetch_url i urls) in
  (run_loop i urls st).1 =
  {| Crawler.written := Crawler.written st ++ page_files m pages;
     Crawler.index_entries := Crawler.index_entries st ++ page_entries m pages;
     Crawler.file_index := Z.of_nat (m + length pages);
     Crawler.saved := Z.of_nat (m + length pages) |}.
Proof.
  assert (∀ st m, Crawler.saved st = Z.of_nat m →
            Crawler.file_index st = Z.of_nat m →
            st = {| Crawler.written := Crawler.written st ++ page_files m [];
                    Crawler.index_entries :=
                      Crawler.index_entries st ++ page_entries m [];
                    Crawler.file_index := Z.of_nat (m + 0);
                    Crawler.saved := Z.of_nat (m + 0) |}) as Hsame.
  { intros st' m' Hs Hf. simpl. rewrite !app_nil_r, Nat.add_0_r, <-Hs.
    rewrite Hs at 1. rewrite <-Hf. by destruct st'. }
  revert i st m. induction urls as [|url urls IH]; intros i st m Hs Hf; simpl.
  { rewrite take_nil. by apply Hsame. }
  unfold Crawler.MIN_PAGES. destruct (decide _) as [Hge|Hlt].
  { replace (100 - m) with 0 by lia. by apply Hsame. }
  destruct (fetch_url i url) as [[[[body final_url] content_type]|]|e].
  - rewrite (IH _ _ (S m)) by (simpl; lia). simpl.
    replace (100 - m) with (S (100 - S m)) by lia. simpl.
    unfold page_files, page_entries. simpl.
    rewrite <-!app_assoc. simpl.
    rewrite Hf, Nat.add_0_r.
    replace (Z.of_nat m + 1)%Z with (Z.of_nat (S m)) by lia.
    f_equal.
    + do 2 f_equal. unfold page_path. apply imap_ext. intros k p _. simpl.
      by replace (m + S k) with (S (m + k)) by lia.
    + do 2 f_equal. apply imap_ext. intros k p _. simpl.
      by replace (m + S k) with (S (m + k)) by lia.
    + f_equal. lia.
    + f_equal. lia.
  - by apply IH.
  - rewrite take_nil. by apply Hsame.
Qed.




Lemma fetched_clean i urls :
  Forall clean urls → Forall (λ p, clean p.1) (fetched fetch_url i urls).
Proof.
  intros H. revert i. induction H as [|u urls Hu Hus IH]; intros i; simpl;
    [constructor|].
  destruct (fetch_url i u) as [[[[body ?] ?]|]|e];
    [|by apply IH|constructor].
  constructor; [done|by apply IH].
Qed.

(** How [run] ends, and what it has written by then. *)
Lemma run_ending text urls :
  Crawler.load_urls Crawler.URLS_FILE (Some text) = Ok urls →
  let pages := take 100 (fetched fetch_url 1 urls) in
  Crawler.run Request urlopen (Some text) =
  match (run_loop 1 urls
           {| Crawler.written := []; Crawler.index_entries := [];
              Crawler.file_index := 0; Crawler.saved := 0 |}).2 with
  | Some e => Crawler.Aborted (page_files 0 pages) e
  | None =>
      Crawler.Finished
        (page_files 0 pages ++
         [(Crawler.INDEX_FILE, Crawler.index_txt (page_entries 0 pages))])
  end.
Proof.
  intros Hu. unfold Crawler.run. rewrite Hu.
  pose proof (run_loop_spec urls 1
    {| Crawler.written := []; Crawler.index_entries := [];
       Crawler.file_index := 0; Crawler.saved := 0 |} 0 eq_refl eq_refl) as H.
  destruct (run_loop 1 urls _) as [st [e|]]; simpl in *; by rewrite H.
Qed.
End RunFacts.

(** ** Reading [index.txt] back *)

Lemma split_once_from_app sep cur a b :
  Forall (λ c, c ≠ sep) a →
  split_once_from sep cur (a ++ sep :: b) = [reverse cur ++ a; b].
Proof.
  intros Ha. revert cur. induction Ha as [|c a Hc Ha IH]; intros cur; simpl.
  - by rewrite N.eqb_refl, app_nil_r.
  - destruct (N.eqb_spec c sep); [done|].
    by rewrite IH, reverse_cons, <-app_assoc.
Qed.

Lemma str_of_int_head d c : head (str_of_int d) = Some c → int_char c.
Proof.
  intros Hc. pose proof (str_of_int_chars d) as H.
  destruct (str_of_int d) as [|x s]; [done|].
  injection Hc as ->. by apply Forall_cons in H as [? _].
Qed.

Lemma last_app_ne {A} (l1 l2 : list A) : l2 ≠ [] → last (l1 ++ l2) = last l2.
Proof.
  intros Hne. destruct (last l2) as [x|] eqn:Hl.
  - apply last_Some in Hl as [l' ->]. by rewrite app_assoc, last_snoc.
  - by apply last_None in Hl.
Qed.

(** The line that the crawler writes for a page, read by the loader. *)
Lemma load_url_line_entry ucd u_digit urls k url :
  clean url →
  load_url_line ucd u_digit urls (str_of_int k ++ [9%N] ++ url ++ [10%N])
  = Ok (<[k := url]> urls).
Proof.
  intros (Hne & Htr & Hnl). unfold load_url_line.
  assert (trimmed (str_of_int k ++ 9%N :: url)) as Hline.
  { split.
    - intros c Hc. apply int_char_not_space, (str_of_int_head k).
      pose proof (str_of_int_nonempty k). by destruct (str_of_int k).
    - intros c Hc. apply Htr.
      rewrite (last_app_ne _ (9%N :: url)) in Hc by done.
      destruct url; [done|exact Hc]. }
  assert (strip (str_of_int k ++ [9%N] ++ url ++ [10%N])
          = str_of_int k ++ 9%N :: url) as ->.
  { change (str_of_int k ++ [9%N] ++ url ++ [10%N])
      with ([] ++ str_of_int k ++ [9%N] ++ url ++ [10%N]).
    assert (str_of_int k ++ [9%N] ++ url ++ [10%N]
            = (str_of_int k ++ 9%N :: url) ++ [10%N]) as ->
      by (by rewrite <-!app_assoc).
    apply strip_unique; [constructor|by repeat constructor|done]. }
  destruct (str_of_int k ++ 9%N :: url) as [|c s] eqn:Hs.
  { by destruct (str_of_int k). }
  rewrite <-Hs. unfold split_once. rewrite split_once_from_app.
  - simpl. rewrite py_int_str_of_int. by rewrite strip_id.
  - eapply Forall_impl; [apply str_of_int_chars|].
    intros x [->|Hx]; [done|]. unfold digit_char in Hx. lia.
Qed.

Lemma readlines_bodies bodies rest :
  Forall no_newline bodies →
  readlines (concat (map (λ b, b ++ [10%N]) bodies) ++ rest)
  = map (λ b, b ++ [10%N]) bodies ++ readlines rest.
Proof.
  unfold readlines. induction 1 as [|b bodies Hb Hbs IH]; [done|].
  simpl. rewrite <-!app_assoc. simpl.
  by rewrite readlines_from_line, IH.
Qed.

Lemma load_url_lines_entries ucd u_digit urls (entries : list (Z * str)) :
  Forall (λ e, clean e.2) entries →
  load_url_lines ucd u_digit urls
    (map (λ e, str_of_int e.1 ++ [9%N] ++ e.2 ++ [10%N]) entries)
  = Ok (foldl (λ urls e, <[e.1 := e.2]> urls) urls entries).
Proof.
  intros He. revert urls.
  induction He as [|e entries He Hes IH]; intros urls; [done|].
  simpl. change (str_of_int e.1 ++ 9%N :: e.2 ++ [10%N])
    with (str_of_int e.1 ++ [9%N] ++ e.2 ++ [10%N]).
  by rewrite load_url_line_entry, IH.
Qed.

Lemma load_doc_urls_index_txt ucd u_digit (entries : list (Z * str)) :
  Forall (λ e, clean e.2) entries →
  load_doc_urls ucd u_digit (Some (Crawler.index_txt entries))
  = Ok (foldl (λ urls e, <[e.1 := e.2]> urls) ∅ entries).
Proof.
  intros He. unfold load_doc_urls, Crawler.index_txt.
  assert (map (λ e : Z * str, str_of_int e.1 ++ [9%N] ++ e.2 ++ [10%N]) entries
          = map (λ b, b ++ [10%N])
              (map (λ e : Z * str, str_of_int e.1 ++ 9%N :: e.2) entries)) as Hmap.
  { rewrite map_map. apply map_ext. intros e. simpl.
    by rewrite <-app_assoc. }
  rewrite Hmap, <-(app_nil_r (concat _)), readlines_bodies, app_nil_r.
  - rewrite <-Hmap. by apply load_url_lines_entries.
  - rewrite Forall_map. eapply Forall_impl; [exact He|].
    intros e (_ & _ & Hnl). simpl. apply Forall_app. split.
    + eapply Forall_impl; [apply str_of_int_chars|].
      intros x [->|Hx]; [done|]. unfold digit_char in Hx. lia.
    + by constructor.
Qed.

Lemma foldl_insert_lookup (entries : list (Z * str)) (acc : gmap Z str) k v :
  NoDup (map fst entries) →
  foldl (λ urls e, <[e.1 := e.2]> urls) acc entries !! k = Some v ↔
  (k, v) ∈ entries ∨ ((k ∉ map fst entries) ∧ acc !! k = Some v).
Proof.
  revert acc. induction entries as [|[k' v'] entries IH]; intros acc Hnd.
  { simpl. split; [intros H; right; split; [apply not_elem_of_nil|done]|].
    intros [[]%elem_of_nil|[_ H]]. done. }
  apply NoDup_cons in Hnd as [Hk' Hnd]. simpl in *. rewrite IH by done.
  rewrite elem_of_cons, not_elem_of_cons. split.
  - intros [Hin|[Hnin Hacc]]; [by left; right|].
    destruct (decide (k = k')) as [->|Hne].
    + rewrite lookup_insert_eq in Hacc. injection Hacc as ->. by left; left.
    + rewrite lookup_insert_ne in Hacc by done. by right.
  - intros [[[= -> ->]|Hin]|[[Hne Hnin] Hacc]].
    + right. split; [done|]. by rewrite lookup_insert_eq.
    + by left.
    + right. split; [done|]. by rewrite lookup_insert_ne.
Qed.

Lemma page_entries_lookup m pages i e :
  page_entries m pages !! i = Some e ↔
  ∃ p, pages !! i = Some p ∧ e = (Z.of_nat (S (m + i)), p.1).
Proof.
  unfold page_entries. rewrite list_lookup_imap.
  destruct (pages !! i) as [p|]; simpl; [|naive_solver].
  split; [intros [= <-]; by exists p|by intros (p' & [= <-] & ->)].
Qed.

Lemma page_entries_NoDup m pages : NoDup (map fst (page_entries m pages)).
Proof.
  apply NoDup_alt. intros i j k Hi Hj.
  rewrite list_lookup_fmap in Hi, Hj.
  destruct (page_entries m pages !! i) as [e|] eqn:He; [|done].
  destruct (page_entries m pages !! j) as [e'|] eqn:He'; [|done].
  apply page_entries_lookup in He as (p & _ & ->).
  apply page_entries_lookup in He' as (p' & _ & ->).
  simpl in *. injection Hi as <-. injection Hj as Hj. lia.
Qed.

(** X1. [load_urls] fails without the file; otherwise it returns the lines
    of the file that are not blank, without the whitespace around them:
    every address it returns is not empty, has no whitespace at its ends
    and no line end in it. A list of such addresses written one per line
    is read back as it is. *)
Theorem load_urls_returns_clean_addresses :
  ∀ (path : str),
    Crawler.load_urls path None = Raise (FileNotFoundError path) ∧
    (∀ text, ∃ urls,
       Crawler.load_urls path (Some text) = Ok urls ∧ Forall clean urls) ∧
    (∀ urls, Forall clean urls →
       Crawler.load_urls path (Some (concat (map (λ u, u ++ [10%N]) urls)))
         = Ok urls).
Proof.
  intros path. split_and!; [done|apply load_urls_clean|].
  intros urls Hu. unfold Crawler.load_urls. f_equal.
  rewrite <-(app_nil_r (concat _)), readlines_bodies, app_nil_r.
  - induction Hu as [|u urls (Hne & Htr & Hnl) Hu IH]; [done|].
    simpl. rewrite filter_cons.
    rewrite strip_app_spaces, strip_id by (done || by repeat constructor).
    rewrite decide_True by done. simpl.
    rewrite strip_app_spaces, strip_id by (done || by repeat constructor).
    by rewrite IH.
  - eapply Forall_impl; [exact Hu|]. by intros u (_ & _ & ?).
Qed.



(** X3. The table that a crawl writes when it comes to its end is the
    table that the search program reads: loading the [index.txt] of the
    crawl gives, for every number [k], the address of the [k]-th saved
    page, whose body is in the [k]-th file written, [pages/k.txt]. *)
Theorem crawler_table_round_trip :
  ∀ (ucd : unicode) (u_digit : N → bool)
    (Request : str → option Crawler.exception)
    (urlopen : nat → str → (str * str * str) + Crawler.exception)
    (text : str) (files : list (str * str)),
    Crawler.run Request urlopen (Some text) = Crawler.Finished files →
    ∃ urls written index_text doc_urls,
      Crawler.load_urls Crawler.URLS_FILE (Some text) = Ok urls ∧
      files = written ++ [(Crawler.INDEX_FILE, index_text)] ∧
      load_doc_urls ucd u_digit (Some index_text) = Ok doc_urls ∧
      ∀ k url,
        doc_urls !! k = Some url ↔
        ∃ i body,
          k = Z.of_nat (S i) ∧
          take 100 (fetched (Crawler.fetch_url Request urlopen) 1 urls) !! i
            = Some (url, body) ∧
          written !! i = Some (page_path (S i), body).
Proof.
  intros ucd u_digit Request urlopen text files Hrun.
  destruct (load_urls_clean Crawler.URLS_FILE text) as (urls & Hu & Hclean).
  set (pages := take 100 (fetched (Crawler.fetch_url Request urlopen) 1 urls)).
  assert (Forall (λ p, clean p.1) pages) as Hpages
    by (by apply Forall_take, fetched_clean).
  exists urls, (page_files 0 pages),
    (Crawler.index_txt (page_entries 0 pages)),
    (foldl (λ urls e, <[e.1 := e.2]> urls) ∅ (page_entries 0 pages)).
  split_and!; [done| | |].
  - rewrite (run_ending Request urlopen text urls Hu) in Hrun.
    cbv zeta in Hrun. fold pages in Hrun.
    destruct (Crawler.run_loop _ _ _ _ _).2; by simplify_eq.
  - apply load_doc_urls_index_txt. apply Forall_forall.
    intros e (i & He)%list_elem_of_lookup_1.
    apply page_entries_lookup in He as (p & Hp & ->). simpl.
    rewrite Forall_forall in Hpages. apply Hpages.
    by apply list_elem_of_lookup_2 in Hp.
  - intros k url. rewrite foldl_insert_lookup by apply page_entries_NoDup.
    rewrite lookup_empty. split.
    + intros [(i & He)%list_elem_of_lookup_1|[_ [=]]].
      apply page_entries_lookup in He as ([u body] & Hp & [= -> ->]).
      exists i, body. split_and!; [done..|].
      unfold page_files. by rewrite list_lookup_imap, Hp.
    + intros (i & body & -> & Hp & _). left.
      apply (list_elem_of_lookup_2 _ i), page_entries_lookup.
      by exists (url, body).
Qed.

Lemma crawler_table_round_trip_witness :
  let Request := λ url : str, @None Crawler.exception in
  let urlopen := λ (i : nat) (url : str),
    @inl _ Crawler.exception (lit "<p>", url, lit "text/html") in
  let text := lit "http://a" ++ [10%N] ++ lit "http://b" ++ [10%N] in
  ∃ urls written index_text doc_urls,
    Crawler.load_urls Crawler.URLS_FILE (Some text) = Ok urls ∧
    [(lit "pages/1.txt", lit "<p>"); (lit "pages/2.txt", lit "<p>");
     (lit "index.txt",
      lit "1" ++ [9%N] ++ lit "http://a" ++ [10%N]
      ++ lit "2" ++ [9%N] ++ lit "http://b" ++ [10%N])]
      = written ++ [(Crawler.INDEX_FILE, index_text)] ∧
    load_doc_urls ru latin1_digit (Some index_text) = Ok doc_urls ∧
    ∀ k url,
      doc_urls !! k = Some url ↔
      ∃ i body,
        k = Z.of_nat (S i) ∧
        take 100 (fetched (Crawler.fetch_url Request urlopen) 1 urls) !! i
          = Some (url, body) ∧
        written !! i = Some (page_path (S i), body).
Proof.
  intros Request urlopen text.
  apply (crawler_table_round_trip ru latin1_digit Request urlopen text).
  vm_compute. reflexivity.
Defined.

(** ** The command line program *)

Lemma boolean_search_enough ucd query_str index all_doc_ids :
  ∃ v, searches ucd index all_doc_ids query_str v ∧
       ∀ n, 3 * length (tokenize_query ucd query_str) + 3 ≤ n →
         boolean_search ucd n query_str index all_doc_ids = Some v.
Proof.
  destruct (parse_returns (tokenize_query ucd query_str) index all_doc_ids
              _ (le_n _)) as [v Hv].
  exists v. split.
  - apply searches_parses. by eexists.
  - intros n Hn. rewrite boolean_search_parse by lia.
    by apply (parse_stable _ _ _ _ _ _ Hv).
Qed.

Lemma foldl_union_elem (l : list (gset Z)) (acc : gset Z) d :
  d ∈ foldl (λ all_doc_ids doc_set, all_doc_ids ∪ doc_set) acc l ↔
  d ∈ acc ∨ ∃ s, s ∈ l ∧ d ∈ s.
Proof.
  revert acc. induction l as [|s l IH]; intros acc; simpl.
  - split; [by left|]. intros [?|(s & []%elem_of_nil & _)]. done.
  - rewrite IH, elem_of_union. setoid_rewrite elem_of_cons. naive_solver.
Qed.

(** X4. The universe of the search, which is what NOT is taken against:
    when [index.txt] gives at least one document, the universe is the
    documents of that table; when the table is empty or missing, it is
    the documents that occur in some posting set of the index. *)
Theorem universe_is_table_or_index :
  ∀ (index : gmap str (gset Z)) (doc_urls : gmap Z str) (d : Z),
    d ∈ universe index doc_urls ↔
      (doc_urls ≠ ∅ ∧ is_Some (doc_urls !! d)) ∨
      (doc_urls = ∅ ∧ ∃ t s, index !! t = Some s ∧ d ∈ s).
Proof.
  intros index doc_urls d. unfold universe.
  destruct (decide (doc_urls = ∅)) as [->|Hne].
  - rewrite decide_True by done. rewrite foldl_union_elem, elem_of_empty.
    split.
    + intros [[]|(s & Hs & Hd)]. right. split; [done|].
      apply list_elem_of_fmap in Hs as ([t s'] & -> & Hin).
      apply elem_of_map_to_list in Hin. by exists t, s'.
    + intros [[[] _]|(_ & t & s & Hts & Hd)]; [done|]. right.
      exists s. split; [|done]. apply list_elem_of_fmap.
      exists (t, s). split; [done|]. by apply elem_of_map_to_list.
  - rewrite decide_False by (by rewrite dom_empty_iff_L).
    rewrite elem_of_dom. naive_solver.
Qed.

(** X5. With both files loaded and a query that is not empty, the program
    prints the number of documents found and then one line per document,
    in strictly ascending order of the numbers: two spaces, the number, a
    tab, and the address that [index.txt] gives for the number (nothing
    for a number that is not in the table). The documents are the result
    of [boolean_search] for the query over the loaded index and the
    universe. *)
Theorem main_lists_results :
  ∀ (ucd : unicode) (u_digit : N → bool)
    (inverted_index_file index_txt : option str)
    (argv : list str) (stdin : option str)
    (index : gmap str (gset Z)) (doc_urls : gmap Z str)
    (printed : list str) (query_str : str),
    load_inverted_index ucd INVERTED_INDEX_FILE inverted_index_file
      = Ok index →
    load_doc_urls ucd u_digit index_txt = Ok doc_urls →
    read_query argv stdin = (printed, query_str) →
    query_str ≠ [] →
    ∃ doc_ids ids,
      searches ucd index (universe index doc_urls) query_str doc_ids ∧
      StronglySorted Z.lt ids ∧
      (∀ d, d ∈ ids ↔ d ∈ doc_ids) ∧
      ∀ n, 3 * length (tokenize_query ucd query_str) + 3 ≤ n →
        main ucd u_digit n inverted_index_file index_txt argv stdin =
        Some (Ok (printed
                  ++ [FOUND ++ str_of_int (Z.of_nat (length ids))]
                  ++ map (result_line doc_urls) ids)).
Proof.
  intros ucd u_digit inv idx argv stdin index doc_urls printed query_str
    Hinv Hidx Hq Hne.
  destruct (boolean_search_enough ucd query_str index
              (universe index doc_urls)) as (v & Hv & Hn).
  exists v, (merge_sort Z.le (elements v)). split_and!.
  - done.
  - apply sorted_doc_ids_strict.
  - intros d. by rewrite merge_sort_Permutation, elem_of_elements.
  - intros n Hle. unfold main. rewrite Hinv, Hidx, Hq.
    destruct query_str; [done|]. by rewrite Hn.
Qed.

Lemma strip_spaces ws : Forall (λ c, is_space c = true) ws → strip ws = [].
Proof.
  intros Hws. rewrite <-(app_nil_l ws), strip_app_spaces by done.
  reflexivity.
Qed.

(** X6. A blank query. Typed at the prompt (or at the end of the input) it
    is rejected: the program prints its banner and the message that the
    query is empty, and does not search. Given as an argument on the
    command line it is searched like any query, and no document is
    found. *)
Theorem main_blank_query :
  ∀ (ucd : unicode) (u_digit : N → bool)
    (inverted_index_file index_txt : option str)
    (index : gmap str (gset Z)) (doc_urls : gmap Z str) (prog : str),
    load_inverted_index ucd INVERTED_INDEX_FILE inverted_index_file
      = Ok index →
    load_doc_urls ucd u_digit index_txt = Ok doc_urls →
    (∀ n, main ucd u_digit n inverted_index_file index_txt [prog] None
          = Some (Ok (BANNER ++ [EMPTY_QUERY]))) ∧
    (∀ n line, Forall (λ c, is_space c = true) line →
       main ucd u_digit n inverted_index_file index_txt [prog] (Some line)
         = Some (Ok (BANNER ++ [EMPTY_QUERY]))) ∧
    (∀ n arg stdin, arg ≠ [] → Forall (λ c, is_space c = true) arg →
       main ucd u_digit n inverted_index_file index_txt [prog; arg] stdin
         = Some (Ok [FOUND ++ lit "0"])).
Proof.
  intros ucd u_digit inv idx index doc_urls prog Hinv Hidx. split_and!.
  - intros n. unfold main. by rewrite Hinv, Hidx.
  - intros n line Hline. unfold main. rewrite Hinv, Hidx.
    unfold read_query. simpl. by rewrite strip_spaces.
  - intros n arg stdin Hne Harg. unfold main. rewrite Hinv, Hidx.
    unfold read_query. simpl. destruct arg as [|c arg]; [done|].
    unfold boolean_search, tokenize_query. by rewrite strip_spaces.
Qed.

Lemma main_lists_results_witness :
  ∃ doc_ids ids,
    searches ru zoo_loaded (universe zoo_loaded zoo_urls)
      (join (lit " ") [kot; lit "OR"; pyos]) doc_ids ∧
    StronglySorted Z.lt ids ∧
    (∀ d, d ∈ ids ↔ d ∈ doc_ids) ∧
    ∀ n, 3 * length (tokenize_query ru (join (lit " ") [kot; lit "OR"; pyos]))
           + 3 ≤ n →
      main ru latin1_digit n (Some zoo_inverted_index_txt) (Some zoo_index_txt)
        [lit "boolean_search.py"; kot; lit "OR"; pyos] None =
      Some (Ok ([] ++ [FOUND ++ str_of_int (Z.of_nat (length ids))]
                ++ map (result_line zoo_urls) ids)).
Proof.
  apply (main_lists_results ru latin1_digit
           (Some zoo_inverted_index_txt) (Some zoo_index_txt)
           [lit "boolean_search.py"; kot; lit "OR"; pyos] None
           zoo_loaded zoo_urls []).
  - vm_compute. reflexivity.
  - vm_compute. reflexivity.
  - reflexivity.
  - discriminate.
Defined.

Example main_ex :
  main ru latin1_digit 20 (Some zoo_inverted_index_txt) (Some zoo_index_txt)
    [lit "boolean_search.py"; kot; lit "OR"; pyos] None =
  Some (Ok [FOUND ++ lit "2";
            lit "  1" ++ [9%N] ++ lit "http://a";
            lit "  2" ++ [9%N] ++ lit "http://b"]).
Proof. vm_compute. reflexivity. Qed.

Lemma main_blank_query_witness :
  (∀ n, main ru latin1_digit n (Some zoo_inverted_index_txt)
          (Some zoo_index_txt) [lit "boolean_search.py"] None
        = Some (Ok (BANNER ++ [EMPTY_QUERY]))) ∧
  (∀ n line, Forall (λ c, is_space c = true) line →
     main ru latin1_digit n (Some zoo_inverted_index_txt)
       (Some zoo_index_txt) [lit "boolean_search.py"] (Some line)
       = Some (Ok (BANNER ++ [EMPTY_QUERY]))) ∧
  (∀ n arg stdin, arg ≠ [] → Forall (λ c, is_space c = true) arg →
     main ru latin1_digit n (Some zoo_inverted_index_txt)
       (Some zoo_index_txt) [lit "boolean_search.py"; arg] stdin
       = Some (Ok [FOUND ++ lit "0"])).
Proof.
  apply (main_blank_query ru latin1_digit
           (Some zoo_inverted_index_txt) (Some zoo_index_txt)
           zoo_loaded zoo_urls (lit "boolean_search.py")).
  - vm_compute. reflexivity.
  - vm_compute. reflexivity.
Defined.

(** ** The index loader: the last line of a lemma wins *)

Lemma line_entry_lemma ucd line t s :
  line_entry ucd line = Some (t, s) → line_lemma ucd line = Some t.
Proof.
  unfold line_entry, line_lemma.
  destruct (split (strip line)) as [|f rest]; [done|].
  destruct (ints ucd rest); [|done]. by intros [= <- _].
Qed.

Lemma load_line_entry ucd index line index' :
  load_line ucd index line = Ok index' →
  (line_lemma ucd line = None ∧ index' = index) ∨
  (∃ t s, line_entry ucd line = Some (t, s) ∧ index' = <[t := s]> index).
Proof.
  unfold load_line, line_entry, line_lemma.
  destruct (strip line) as [|c l] eqn:Hs.
  { intros [= <-]. by left. }
  destruct (split (c :: l)) as [|f rest].
  { intros [= <-]. by left. }
  destruct (ints ucd rest) as [ds|e]; [|done].
  intros [= <-]. right. by eexists _, _.
Qed.

Lemma load_lines_last ucd lines acc index t s :
  load_lines ucd acc lines = Ok index →
  index !! t = Some s ↔
    (∃ i line, lines !! i = Some line ∧ line_entry ucd line = Some (t, s) ∧
       ∀ j line', i < j → lines !! j = Some line' →
         line_lemma ucd line' ≠ Some t) ∨
    ((∀ line, line ∈ lines → line_lemma ucd line ≠ Some t) ∧
     acc !! t = Some s).
Proof.
  revert acc. induction lines as [|line lines IH]; intros acc; simpl.
  { intros [= <-]. split; [intros H; right; split; [|done]|].
    - by intros line []%elem_of_nil.
    - by intros [(i & line & [=] & _)|[_ H]]. }
  destruct (load_line ucd acc line) as [acc'|e] eqn:Hline; [|done].
  intros Hload. rewrite (IH _ Hload). clear IH Hload.
  apply load_line_entry in Hline. split.
  - intros [(i & l & Hi & He & Hlater)|[Hnone Hacc]].
    + left. exists (S i), l. split_and!; [done..|].
      intros [|j] l' Hj Hl'; [lia|]. apply (Hlater j); [lia|done].
    + destruct Hline as [[Hblank ->]|(t0 & s0 & He & ->)].
      * right. split; [|done].
        intros l [->|Hl]%elem_of_cons; [by rewrite Hblank|by apply Hnone].
      * destruct (decide (t = t0)) as [->|Hne].
        -- rewrite lookup_insert_eq in Hacc. injection Hacc as ->.
           left. exists 0, line. split_and!; [done..|].
           intros [|j] l' Hj Hl'; [lia|]. apply Hnone.
           by apply (list_elem_of_lookup_2 _ j).
        -- rewrite lookup_insert_ne in Hacc by done. right. split; [|done].
           intros l [->|Hl]%elem_of_cons; [|by apply Hnone].
           rewrite (line_entry_lemma _ _ _ _ He). congruence.
  - intros [(i & l & Hi & He & Hlater)|[Hnone Hacc]].
    + destruct i as [|i].
      * injection Hi as ->. right. split.
        -- intros l' (j & Hj)%list_elem_of_lookup_1.
           apply (Hlater (S j)); [lia|done].
        -- destruct Hline as [[Hblank _]|(t0 & s0 & He0 & ->)].
           ++ by rewrite (line_entry_lemma _ _ _ _ He) in Hblank.
           ++ rewrite He in He0. injection He0 as <- <-.
              by rewrite lookup_insert_eq.
      * left. exists i, l. split_and!; [done..|].
        intros j l' Hj Hl'. apply (Hlater (S j)); [lia|done].
    + right. split.
      * intros l Hl. apply Hnone. by right.
      * destruct Hline as [[_ ->]|(t0 & s0 & He & ->)]; [done|].
        rewrite lookup_insert_ne; [done|]. intros ->.
        apply (Hnone line); [by left|]. by apply line_entry_lemma in He.
Qed.

(** X7. What a successful load returns. A lemma is a key of the index
    when some line of the file starts with it (in any case: keys are
    lower-cased), and its posting set is the set of the numbers on the
    last such line: a later line for a lemma replaces an earlier one, the
    sets are not united. *)
Theorem load_keeps_last_line :
  ∀ (ucd : unicode) (path text : str) (index : gmap str (gset Z)),
    load_inverted_index ucd path (Some text) = Ok index →
    ∀ t s,
      index !! t = Some s ↔
      ∃ i line,
        readlines text !! i = Some line ∧
        line_entry ucd line = Some (t, s) ∧
        ∀ j line', i < j → readlines text !! j = Some line' →
          line_lemma ucd line' ≠ Some t.
Proof.
  intros ucd path text index Hload t s. unfold load_inverted_index in Hload.
  rewrite (load_lines_last _ _ _ _ t s Hload), lookup_empty.
  split; [|by left]. by intros [?|[_ [=]]].
Qed.

Lemma load_keeps_last_line_witness :
  (<[kot := {[3%Z]}]> ∅ : gmap str (gset Z)) !! kot = Some {[3%Z]} ↔
  ∃ i line,
    readlines (kot ++ lit " 1 2" ++ [10%N]
               ++ [1050; 1086; 1090]%N ++ lit " 3" ++ [10%N]) !! i
      = Some line ∧
    line_entry ru line = Some (kot, {[3%Z]}) ∧
    ∀ j line', i < j →
      readlines (kot ++ lit " 1 2" ++ [10%N]
                 ++ [1050; 1086; 1090]%N ++ lit " 3" ++ [10%N]) !! j
        = Some line' →
      line_lemma ru line' ≠ Some kot.
Proof.
  apply (load_keeps_last_line ru (lit "inverted_index.txt")
           (kot ++ lit " 1 2" ++ [10%N]
            ++ [1050; 1086; 1090]%N ++ lit " 3" ++ [10%N])).
  vm_compute. reflexivity.
Defined.

(** ** The table of addresses: lines without a tab *)

Lemma readlines_from_no_newline cur s :
  no_newline s → reverse cur ++ s ≠ [] →
  readlines_from cur s = [reverse cur ++ s].
Proof.
  intros Hs. revert cur. induction Hs as [|c s [H10 H13] Hs IH]; intros cur Hne.
  - simpl. rewrite app_nil_r in *. destruct cur; [done|done].
  - simpl. destruct (N.eqb_spec c 10); [done|].
    destruct (N.eqb_spec c 13); [done|].
    rewrite IH; rewrite reverse_cons, <-app_assoc; [done|].
    by destruct (reverse cur).
Qed.

Lemma split_once_from_none sep cur s :
  Forall (λ c, c ≠ sep) s → split_once_from sep cur s = [reverse cur ++ s].
Proof.
  intros Hs. revert cur. induction Hs as [|c s Hc Hs IH]; intros cur; simpl.
  - by rewrite app_nil_r.
  - destruct (N.eqb_spec c sep); [done|].
    by rewrite IH, reverse_cons, <-app_assoc.
Qed.

Lemma str_of_int_neg d : (d < 0)%Z → ∃ s, str_of_int d = 45%N :: s.
Proof. destruct d; try lia. intros _. by eexists. Qed.

Lemma str_of_int_trimmed d : trimmed (str_of_int d).
Proof.
  pose proof (str_of_int_chars d) as H. split; intros c Hc.
  - apply int_char_not_space. by apply (str_of_int_head d).
  - apply int_char_not_space. apply last_Some in Hc as [l Hl].
    rewrite Hl, Forall_app, Forall_singleton in H. apply H.
Qed.

Lemma str_of_int_no_tab d : Forall (λ c, c ≠ 9%N) (str_of_int d).
Proof.
  eapply Forall_impl; [apply str_of_int_chars|].
  intros x [->|Hx]; [done|]. unfold digit_char in Hx. lia.
Qed.

Lemma str_of_int_no_newline d : no_newline (str_of_int d).
Proof.
  eapply Forall_impl; [apply str_of_int_chars|].
  intros x [->|Hx]; [done|]. unfold digit_char in Hx. lia.
Qed.

(** X8. A line of [index.txt] without a tab is taken for a document
    number only when [str.isdigit] holds for it, and [str.isdigit] and
    [int] do not accept the same strings. A negative number, which [int]
    accepts, is skipped without a word when no tab follows it. A
    character that is a digit but no decimal digit (the superscript two,
    for one) passes [str.isdigit] and makes the load fail with the
    [ValueError] of [int]. A missing file is an empty table. *)
Theorem load_doc_urls_line_without_tab :
  ∀ (ucd : unicode) (u_digit : N → bool),
    load_doc_urls ucd u_digit None = Ok ∅ ∧
    (∀ d, (d < 0)%Z → u_digit 45%N = false →
       load_doc_urls ucd u_digit (Some (str_of_int d)) = Ok ∅) ∧
    (∀ d, load_doc_urls ucd u_digit (Some (str_of_int d ++ [9%N; 10%N]))
          = load_doc_urls ucd u_digit (Some (str_of_int d))) ∧
    (∀ c, (127 ≤ c)%N → is_space c = false →
       u_digit c = true → u_decimal ucd c = None →
       load_doc_urls ucd u_digit (Some [c]) = Raise (ValueError [c])).
Proof.
  intros ucd u_digit. split_and!; [done| | |].
  - intros d Hd H45. unfold load_doc_urls, readlines.
    rewrite (readlines_from_no_newline [] (str_of_int d))
      by (apply str_of_int_no_newline || apply str_of_int_nonempty).
    simpl. unfold load_url_line.
    rewrite strip_id by apply str_of_int_trimmed.
    destruct (str_of_int_neg d Hd) as [s Hs].
    unfold split_once.
    rewrite split_once_from_none by apply str_of_int_no_tab.
    rewrite Hs. simpl. by rewrite H45.
  - intros d. unfold load_doc_urls, readlines.
    rewrite (readlines_from_no_newline [] (str_of_int d))
      by (apply str_of_int_no_newline || apply str_of_int_nonempty).
    assert (str_of_int d ++ [9%N; 10%N] = (str_of_int d ++ [9%N]) ++ 10%N :: [])
      as -> by (by rewrite <-app_assoc).
    rewrite readlines_from_line.
    2:{ apply Forall_app. split; [apply str_of_int_no_newline|].
        by repeat constructor. }
    simpl. unfold load_url_line.
    assert ((str_of_int d ++ [9%N]) ++ [10%N] = str_of_int d ++ [9%N; 10%N])
      as -> by (by rewrite <-app_assoc).
    by rewrite strip_app_spaces by (by repeat constructor).
  - intros c Hc Hsp Hdig Hdec. unfold load_doc_urls, readlines.
    rewrite (readlines_from_no_newline [] [c]); [|repeat constructor; lia|done].
    simpl. unfold load_url_line.
    rewrite strip_id by (split; intros x [= <-]; done).
    unfold split_once. simpl.
    destruct (N.eqb_spec c 9); [lia|]. simpl. rewrite Hdig. simpl.
    unfold py_int, to_ascii. simpl.
    destruct (N.ltb_spec c 127); [lia|]. by rewrite Hsp, Hdec.
Qed.

Example load_doc_urls_ex :
  load_doc_urls ru latin1_digit (Some (lit "-5")) = Ok ∅ ∧
  load_doc_urls ru latin1_digit (Some (lit "-5" ++ [9%N] ++ lit "u"))
    = Ok (<[(-5)%Z := lit "u"]> ∅) ∧
  load_doc_urls ru latin1_digit (Some [178%N]) = Raise (ValueError [178%N]) ∧
  load_doc_urls ru latin1_digit (Some (lit "x" ++ [9%N] ++ lit "u"))
    = Raise (ValueError (lit "x")) ∧
  load_doc_urls ru latin1_digit (Some (lit "7")) = Ok (<[7%Z := []]> ∅).
Proof. split_and!; vm_compute; reflexivity. Qed.

(** ** Where the documents of a result come from *)

Section Within.
Context (tokens : list str) (index : gmap str (gset Z)) (all_doc_ids : gset Z).

Local Abbreviation within := (within tokens index all_doc_ids).

Lemma within_empty : within ∅.
Proof. by intros d Hd%elem_of_empty. Qed.

Lemma within_union v w : within v → within w → within (v ∪ w).
Proof. intros Hv Hw d [?|?]%elem_of_union; auto. Qed.

Lemma within_intersection v w : within v → within (v ∩ w).
Proof. intros Hv d [? _]%elem_of_intersection. auto. Qed.

Lemma within_difference w : within (all_doc_ids ∖ w).
Proof. intros d [? _]%elem_of_difference. by left. Qed.

Lemma within_term pos t : peek tokens pos = Some t → within (term_set index t).
Proof.
  intros Ht d Hd. right. exists t. split; [|done].
  by apply list_elem_of_lookup_2 in Ht.
Qed.

Lemma methods_within n :
  (∀ pos v pos',
     parse_primary tokens index all_doc_ids n pos = Some (v, pos') →
     within v) ∧
  (∀ l pos v pos', within l →
     parse_and_loop tokens index all_doc_ids n l pos = Some (v, pos') →
     within v) ∧
  (∀ pos v pos',
     parse_and tokens index all_doc_ids n pos = Some (v, pos') → within v) ∧
  (∀ l pos v pos', within l →
     parse_or_loop tokens index all_doc_ids n l pos = Some (v, pos') →
     within v) ∧
  (∀ pos v pos',
     parse_or tokens index all_doc_ids n pos = Some (v, pos') → within v).
Proof.
  induction n as [|n (IHp & IHal & IHa & IHol & IHo)];
    [by split_and!; intros|].
  split_and!.
  - intros pos v pos' Hr. rewrite parse_primary_S in Hr.
    destruct (peek tokens pos) as [t|] eqn:Ht.
    2:{ injection Hr as <- _. apply within_empty. }
    destruct (decide (t = LPAREN_TOK)).
    { destruct (parse_or _ _ _ n _) as [[s q]|] eqn:Ho; [|done].
      apply IHo in Ho. by destruct (decide _); injection Hr as <- _. }
    destruct (decide (t = NOT_OP)).
    { destruct (parse_primary _ _ _ n _) as [[s q]|] eqn:Hp; [|done].
      injection Hr as <- _. apply within_difference. }
    destruct (decide _); injection Hr as <- _;
      [by eapply within_term|apply within_empty].
  - intros l pos v pos' Hl Hr. rewrite parse_and_loop_S in Hr.
    destruct (decide _); [|by injection Hr as <- _].
    destruct (parse_primary _ _ _ n _) as [[s q]|] eqn:Hp; [|done].
    eapply IHal; [|exact Hr]. by apply within_intersection.
  - intros pos v pos' Hr. rewrite parse_and_S in Hr.
    destruct (parse_primary _ _ _ n _) as [[s q]|] eqn:Hp; [|done].
    eapply IHal; [|exact Hr]. by eapply IHp.
  - intros l pos v pos' Hl Hr. rewrite parse_or_loop_S in Hr.
    destruct (decide _); [|by injection Hr as <- _].
    destruct (parse_and _ _ _ n _) as [[s q]|] eqn:Ha; [|done].
    eapply IHol; [|exact Hr]. apply within_union; [done|by eapply IHa].
  - intros pos v pos' Hr. rewrite parse_or_S in Hr.
    destruct (parse_and _ _ _ n _) as [[s q]|] eqn:Ha; [|done].
    eapply IHol; [|exact Hr]. by eapply IHa.
Qed.
End Within.

Lemma search_within ucd index all_doc_ids query_str v :
  searches ucd index all_doc_ids query_str v →
  within (tokenize_query ucd query_str) index all_doc_ids v.
Proof.
  intros [n Hn]%searches_parses. unfold parse in Hn.
  destruct (parse_or _ _ _ n 0) as [[s q]|] eqn:Ho; [|done].
  injection Hn as <-.
  by apply (methods_within _ index all_doc_ids n) in Ho.
Qed.

(** X9. A search invents no document. Every document of the result is in
    the universe or in the posting set that the index holds for one of
    the tokens of the query; so when every posting set of the index lies
    within the universe, so does every result. *)
Theorem search_result_within_index_and_universe :
  ∀ (ucd : unicode) (index : gmap str (gset Z)) (all_doc_ids : gset Z)
    (query_str : str) (v : gset Z),
    searches ucd index all_doc_ids query_str v →
    (∀ d, d ∈ v →
       d ∈ all_doc_ids ∨
       ∃ t s, t ∈ tokenize_query ucd query_str ∧ index !! t = Some s ∧ d ∈ s) ∧
    ((∀ t s, index !! t = Some s → s ⊆ all_doc_ids) → v ⊆ all_doc_ids).
Proof.
  intros ucd index all_doc_ids query_str v Hv%search_within.
  assert (∀ d, d ∈ v →
       d ∈ all_doc_ids ∨
       ∃ t s, t ∈ tokenize_query ucd query_str ∧ index !! t = Some s ∧ d ∈ s)
    as Hd.
  { intros d [?|(t & Ht & Hin)]%Hv; [by left|right].
    unfold term_set in Hin. destruct (index !! t) as [s|] eqn:Hs.
    - by exists t, s.
    - by apply elem_of_empty in Hin. }
  split; [done|]. intros Hsub d [?|(t & s & _ & Hs & Hin)]%Hd; [done|].
  by apply (Hsub t s).
Qed.

Lemma search_result_within_index_and_universe_witness :
  (∀ d, d ∈ ({[1%Z; 2%Z; 3%Z]} : gset Z) →
     d ∈ zoo_docs ∨
     ∃ t s, t ∈ tokenize_query ru (kot ++ lit " OR " ++ pyos) ∧
            zoo_index !! t = Some s ∧ d ∈ s) ∧
  ((∀ t s, zoo_index !! t = Some s → s ⊆ zoo_docs) →
   ({[1%Z; 2%Z; 3%Z]} : gset Z) ⊆ zoo_docs).
Proof.
  apply (search_result_within_index_and_universe ru zoo_index zoo_docs
           (kot ++ lit " OR " ++ pyos)).
  exists 20. vm_compute. reflexivity.
Defined.

(** ** The tokenizer: parentheses separate *)

Lemma is_paren_spec c : is_paren c = true ↔ c = 40%N ∨ c = 41%N.
Proof.
  unfold is_paren, LPAREN, RPAREN.
  rewrite orb_true_iff, !N.eqb_eq. done.
Qed.

Lemma keyword_stops_at_paren w c :
  keyword w → is_paren c = true → Forall (λ l, ci_literal l c = false) w.
Proof.
  intros [_ Hw] Hc. apply Forall_forall. intros l Hl%list_elem_of_In.
  pose proof (proj1 (forallb_forall _ _) Hw l Hl) as Hu.
  unfold ascii_upper_letter in Hu.
  apply andb_true_iff in Hu as [?%N.leb_le ?%N.leb_le].
  unfold ci_literal. apply is_paren_spec in Hc. apply orb_false_iff.
  split; apply N.eqb_neq; lia.
Qed.

Lemma is_paren_not_term_char c : is_paren c = true → term_char c = false.
Proof. intros Hc. unfold term_char. rewrite Hc. apply andb_false_r. Qed.

Section Parentheses.
Context (ucd : unicode) (laws : unicode_laws ucd).

Lemma is_word_paren c : is_paren c = true → is_word ucd (Some c) = false.
Proof.
  intros Hc%is_paren_spec. simpl. rewrite (word_ascii _ laws) by lia.
  by destruct Hc as [-> | ->].
Qed.

Lemma match_keyword_app_paren w prev s1 c s2 :
  keyword w → is_paren c = true → s1 ≠ [] →
  match_keyword ucd w prev (s1 ++ c :: s2) = match_keyword ucd w prev s1.
Proof.
  intros Hw Hc Hs1. unfold match_keyword.
  rewrite (ci_prefix_app_stop w s1 c s2)
    by (by apply keyword_stops_at_paren).
  assert (head (s1 ++ c :: s2) = head s1) as -> by (by destruct s1).
  destruct (ci_prefix w s1) eqn:Hpre; [|by rewrite !andb_false_r].
  apply ci_prefix_length in Hpre.
  rewrite take_app_le, drop_app_le by done.
  assert (is_word ucd (head (drop (length w) s1 ++ c :: s2))
          = is_word ucd (head (drop (length w) s1))) as Hnext.
  { destruct (drop (length w) s1); [|done]. by apply is_word_paren. }
  unfold word_boundary. by rewrite Hnext.
Qed.

Lemma match_at_app_paren prev s1 c s2 :
  is_paren c = true → s1 ≠ [] →
  match_at ucd prev (s1 ++ c :: s2) = match_at ucd prev s1.
Proof.
  intros Hc Hs1. unfold match_at.
  rewrite !match_keyword_app_paren
    by auto using keyword_AND, keyword_OR, keyword_NOT.
  unfold match_run.
  rewrite take_while_app_stop by (by apply is_paren_not_term_char).
  by destruct s1.
Qed.

Lemma match_at_paren prev c s :
  is_paren c = true → match_at ucd prev (c :: s) = Some 1.
Proof. intros Hc. unfold match_at. by rewrite Hc. Qed.

Lemma findall_from_app_paren n prev s1 c s2 :
  is_paren c = true → length (s1 ++ c :: s2) ≤ n →
  findall_from ucd n prev (s1 ++ c :: s2) =
  findall_from ucd n prev s1 ++ [c] :: findall_from ucd n (Some c) s2.
Proof.
  intros Hc. revert prev s1.
  induction n as [|n IH]; intros prev s1 Hn.
  { rewrite length_app in Hn. simpl in Hn. lia. }
  rewrite length_app in Hn. simpl in Hn.
  destruct s1 as [|x s1].
  { change ([] ++ c :: s2) with (c :: s2).
    rewrite (findall_from_S ucd n prev (c :: s2)).
    rewrite (findall_from_S ucd n prev []).
    rewrite match_at_paren by done.
    change (take 1 (c :: s2)) with [c]. change (drop 1 (c :: s2)) with s2.
    change (last [c]) with (Some c). change ([] ++ ?x) with x. f_equal.
    apply findall_from_steps; simpl in Hn; lia. }
  rewrite (findall_from_S ucd n prev ((x :: s1) ++ c :: s2)).
  rewrite (findall_from_S ucd n prev (x :: s1)).
  rewrite <-app_comm_cons. rewrite app_comm_cons.
  rewrite match_at_app_paren by done.
  simpl in Hn.
  destruct (match_at ucd prev (x :: s1)) as [k|] eqn:Hk.
  - apply match_at_length in Hk as [? ?].
    rewrite take_app_le, drop_app_le by done.
    rewrite IH by (rewrite length_app, length_drop; simpl in *; lia).
    rewrite <-app_comm_cons. do 3 f_equal.
    apply findall_from_steps; lia.
  - rewrite IH by (rewrite length_app; simpl; lia).
    do 2 f_equal. apply findall_from_steps; lia.
Qed.

Lemma classify_paren c : is_paren c = true → classify ucd [c] = [[c]].
Proof.
  intros Hc. pose proof Hc as Hc'%is_paren_spec. unfold classify.
  rewrite strip_id.
  2:{ split; intros x [= <-]; destruct Hc' as [-> | ->]; done. }
  rewrite (upper_ascii _ laws)
    by (apply Forall_singleton; destruct Hc' as [-> | ->]; lia).
  by destruct Hc' as [-> | ->].
Qed.

Lemma tokenize_query_paren s1 c s2 :
  is_paren c = true →
  tokenize_query ucd (s1 ++ c :: s2) =
  tokenize_query ucd s1 ++ [c] :: tokenize_query ucd s2.
Proof.
  intros Hc. rewrite !(tokenize_query_findall ucd laws). unfold findall.
  rewrite findall_from_app_paren by done.
  rewrite map_app, concat_app. rewrite length_app. simpl.
  rewrite classify_paren by done. simpl. f_equal.
  - f_equal. f_equal. apply findall_from_steps; lia.
  - f_equal. f_equal. f_equal.
    rewrite (findall_from_prev ucd _ (Some c) None)
      by (by apply is_word_paren).
    apply findall_from_steps; lia.
Qed.
End Parentheses.

Lemma tokenize_query_spaces_app ucd ws s :
  unicode_laws ucd → Forall (λ c, is_space c = true) ws →
  tokenize_query ucd (ws ++ s) = tokenize_query ucd s.
Proof.
  intros laws Hws. induction Hws as [|c ws Hc Hws IH]; [done|].
  change ((c :: ws) ++ s) with ([] ++ c :: (ws ++ s)).
  by rewrite (tokenize_query_space ucd laws), IH.
Qed.

Lemma tokenize_query_app_spaces ucd s ws :
  unicode_laws ucd → Forall (λ c, is_space c = true) ws →
  tokenize_query ucd (s ++ ws) = tokenize_query ucd s.
Proof.
  intros laws Hws. destruct Hws as [|c ws Hc Hws]; [by rewrite app_nil_r|].
  rewrite (tokenize_query_space ucd laws) by done.
  rewrite <-(app_nil_r ws), tokenize_query_spaces_app by done.
  apply app_nil_r.
Qed.

(** X10. Whitespace and parentheses separate tokens, wherever they stand.
    The tokens of a string with a whitespace character in it are the
    tokens of the part before it followed by the tokens of the part
    after it; a parenthesis is a token of its own between the tokens of
    the two parts. So whitespace next to a parenthesis makes no
    difference. *)
Theorem tokenize_splits_at_whitespace_and_parentheses :
  ∀ (ucd : unicode),
    unicode_laws ucd →
    (∀ s1 c s2, is_space c = true →
       tokenize_query ucd (s1 ++ c :: s2)
       = tokenize_query ucd s1 ++ tokenize_query ucd s2) ∧
    (∀ s1 c s2, is_paren c = true →
       tokenize_query ucd (s1 ++ c :: s2)
       = tokenize_query ucd s1 ++ [c] :: tokenize_query ucd s2) ∧
    (∀ s1 ws1 c ws2 s2,
       is_paren c = true →
       Forall (λ x, is_space x = true) ws1 →
       Forall (λ x, is_space x = true) ws2 →
       tokenize_query ucd (s1 ++ ws1 ++ c :: ws2 ++ s2)
       = tokenize_query ucd (s1 ++ c :: s2)).
Proof.
  intros ucd laws. split_and!.
  - intros s1 c s2. by apply tokenize_query_space.
  - intros s1 c s2. by apply tokenize_query_paren.
  - intros s1 ws1 c ws2 s2 Hc H1 H2.
    rewrite app_assoc, !(tokenize_query_paren ucd laws) by done.
    by rewrite tokenize_query_app_spaces, tokenize_query_spaces_app.
Qed.

Lemma tokenize_splits_at_whitespace_and_parentheses_witness :
  (∀ s1 c s2, is_space c = true →
     tokenize_query ru (s1 ++ c :: s2)
     = tokenize_query ru s1 ++ tokenize_query ru s2) ∧
  (∀ s1 c s2, is_paren c = true →
     tokenize_query ru (s1 ++ c :: s2)
     = tokenize_query ru s1 ++ [c] :: tokenize_query ru s2) ∧
  (∀ s1 ws1 c ws2 s2,
     is_paren c = true →
     Forall (λ x, is_space x = true) ws1 →
     Forall (λ x, is_space x = true) ws2 →
     tokenize_query ru (s1 ++ ws1 ++ c :: ws2 ++ s2)
     = tokenize_query ru (s1 ++ c :: s2)).
Proof. exact (tokenize_splits_at_whitespace_and_parentheses ru ru_laws). Defined.

Example tokenize_parentheses_ex :
  tokenize_query ru (lit "not(a)and(b") =
  [NOT_OP; lit "("; lit "a"; lit ")"; AND_OP; lit "("; lit "b"].
Proof. vm_compute. reflexivity. Qed.

(** ** The names of the page directories *)

Lemma ru_decimal_table : decimal_table ru.
Proof.
  intros c d. simpl. unfold ascii_decimal, ascii_digit.
  destruct (N.leb_spec 48 c); simpl; [|done].
  destruct (N.leb_spec c 57); simpl; [|done].
  intros [= <-]. split; [lia|]. apply is_space_false. lia.
Qed.

Lemma digits_digit_chars s :
  Forall digit_char s → ∃ u, s = str_of_uint u.
Proof.
  induction 1 as [|c s Hc Hs (u & ->)]; [by exists Decimal.Nil|].
  unfold digit_char in Hc.
  assert (c = 48 ∨ c = 49 ∨ c = 50 ∨ c = 51 ∨ c = 52 ∨ c = 53 ∨ c = 54
          ∨ c = 55 ∨ c = 56 ∨ c = 57)%N as Hcases by lia.
  destruct Hcases as [->|[->|[->|[->|[->|[->|[->|[->|[->| ->]]]]]]]]].
  - by exists (Decimal.D0 u).
  - by exists (Decimal.D1 u).
  - by exists (Decimal.D2 u).
  - by exists (Decimal.D3 u).
  - by exists (Decimal.D4 u).
  - by exists (Decimal.D5 u).
  - by exists (Decimal.D6 u).
  - by exists (Decimal.D7 u).
  - by exists (Decimal.D8 u).
  - by exists (Decimal.D9 u).
Qed.

Lemma digit_char_int_char c : digit_char c → int_char c.
Proof. by right. Qed.

(** [int] of a string of ASCII digits, leading zeros included. *)
Lemma py_int_str_of_uint ucd u :
  u ≠ Decimal.Nil →
  py_int ucd (str_of_uint u) = Some (Z.of_int (Decimal.Pos u)).
Proof.
  intros Hu. unfold py_int. pose proof (str_of_uint_digits u) as Hc.
  assert (map (to_ascii ucd) (str_of_uint u) = str_of_uint u) as ->.
  { rewrite <-(map_id (str_of_uint u)) at 2. apply map_ext_Forall.
    eapply Forall_impl; [exact Hc|]. intros c ?.
    by apply int_char_ascii, digit_char_int_char. }
  assert (Forall (λ c, c_space c = false) (str_of_uint u)) as Hs.
  { eapply Forall_impl; [exact Hc|]. intros c ?.
    by apply int_char_not_c_space, digit_char_int_char. }
  rewrite (drop_while_none _ _ Hs).
  rewrite drop_while_none by (by apply Forall_reverse).
  rewrite reverse_involutive.
  destruct (str_of_uint u) as [|c s] eqn:Hcs; [by destruct u|].
  apply Forall_cons in Hc as [Hc _]. unfold digit_char in Hc.
  destruct (N.eqb_spec c 45); [lia|]. destruct (N.eqb_spec c 43); [lia|].
  rewrite <-Hcs. by rewrite unsigned_str_of_uint.
Qed.

Lemma is_prefix_spec t s : is_prefix t s = true ↔ ∃ r, s = t ++ r.
Proof.
  revert s. induction t as [|a t IH]; intros s; simpl.
  - split; [by exists s|done].
  - destruct s as [|b s]; [split; [done|by intros [r [=]]]|].
    rewrite andb_true_iff, N.eqb_eq, IH. split.
    + intros [-> [r ->]]. by exists r.
    + intros [r [= -> ->]]. split; [done|by exists r].
Qed.

Section Decimals.
Context (ucd : unicode) (laws : unicode_laws ucd) (table : decimal_table ucd).

Lemma to_ascii_decimal c :
  is_decimal ucd c = true → digit_char (to_ascii ucd c).
Proof.
  unfold is_decimal, to_ascii. destruct (u_decimal ucd c) as [d|] eqn:Hd; [|done].
  intros _. destruct (N.ltb_spec c 127).
  - rewrite (decimal_ascii _ laws) in Hd by lia.
    unfold ascii_decimal, ascii_digit in Hd. unfold digit_char.
    destruct (N.leb_spec 48 c); simpl in Hd; [|done].
    destruct (N.leb_spec c 57); simpl in Hd; [|done]. lia.
  - destruct (table c d Hd) as [Hle ->]. unfold digit_char. lia.
Qed.

Lemma to_ascii_digit_char c : digit_char c → to_ascii ucd c = c.
Proof. intros Hc. by apply int_char_ascii, digit_char_int_char. Qed.

Lemma digit_char_decimal c : digit_char c → is_decimal ucd c = true.
Proof.
  unfold digit_char, is_decimal. intros Hc.
  rewrite (decimal_ascii _ laws) by lia.
  unfold ascii_decimal, ascii_digit.
  destruct (N.leb_spec 48 c); [|lia]. destruct (N.leb_spec c 57); [|lia]. done.
Qed.

(** [int] does not fail on a string of decimal digits. *)
Lemma py_int_decimals g :
  g ≠ [] → Forall (λ c, is_decimal ucd c = true) g → is_Some (py_int ucd g).
Proof.
  intros Hne Hg.
  assert (Forall digit_char (map (to_ascii ucd) g)) as Hd.
  { rewrite Forall_map. eapply Forall_impl; [exact Hg|].
    intros c. apply to_ascii_decimal. }
  destruct (digits_digit_chars _ Hd) as [u Hu].
  assert (map (to_ascii ucd) (map (to_ascii ucd) g) = map (to_ascii ucd) g)
    as Hidem.
  { rewrite <-(map_id (map (to_ascii ucd) g)) at 2. apply map_ext_Forall.
    eapply Forall_impl; [exact Hd|]. intros c. apply to_ascii_digit_char. }
  assert (py_int ucd g = py_int ucd (str_of_uint u)) as ->.
  { unfold py_int. by rewrite <-Hu, Hidem. }
  rewrite py_int_str_of_uint; [done|].
  intros ->. destruct g; [done|discriminate Hu].
Qed.

Lemma match_digits_spec s g :
  match_digits ucd s = Some g →
  ∃ rest, s = g ++ rest ∧ g ≠ [] ∧
          Forall (λ c, is_decimal ucd c = true) g ∧ at_end rest = true.
Proof.
  revert g. induction s as [|c s IH]; intros g; simpl; [done|].
  destruct (is_decimal ucd c) eqn:Hc; [|done].
  destruct (match_digits ucd s) as [g'|].
  - intros [= <-]. destruct (IH g' eq_refl) as (rest & -> & _ & Hg & Hr).
    exists rest. split_and!; [done|done|by constructor|done].
  - destruct (at_end s) eqn:Hs; [|done]. intros [= <-].
    exists s. split_and!; [done|done|by repeat constructor|done].
Qed.

Lemma match_digits_all g :
  g ≠ [] → Forall (λ c, is_decimal ucd c = true) g →
  match_digits ucd g = Some g.
Proof.
  intros Hne Hg. induction Hg as [|c g Hc Hg IH]; [done|].
  simpl. rewrite Hc. destruct g as [|c' g]; [done|].
  by rewrite IH.
Qed.

Lemma search_spec p g :
  PAGE_DIR_PATTERN_search ucd p = Some g →
  ∃ pre rest, p = pre ++ lit "page" ++ g ++ rest ∧ g ≠ [] ∧
    Forall (λ c, is_decimal ucd c = true) g ∧ at_end rest = true.
Proof.
  induction p as [|c p IH]; simpl; [done|].
  destruct (match_page ucd (c :: p)) as [g'|] eqn:Hm.
  - intros [= ->]. unfold match_page in Hm.
    destruct (is_prefix (lit "page") (c :: p)) eqn:Hpre; [|done].
    apply match_digits_spec in Hm as (rest & Hrest & Hne & Hg & Hr).
    exists [], rest. split_and!; [|done..].
    apply is_prefix_spec in Hpre as [r Hr']. rewrite Hr' in Hrest |- *.
    change (drop 4 (lit "page" ++ r)) with r in Hrest. by rewrite Hrest.
  - intros (pre & rest & -> & ?)%IH. by exists (c :: pre), rest.
Qed.

Lemma search_skip c p :
  c ≠ 112%N →
  PAGE_DIR_PATTERN_search ucd (c :: p) = PAGE_DIR_PATTERN_search ucd p.
Proof.
  intros Hc.
  change (PAGE_DIR_PATTERN_search ucd (c :: p))
    with (match match_page ucd (c :: p) with
          | Some g => Some g
          | None => PAGE_DIR_PATTERN_search ucd p
          end).
  assert (match_page ucd (c :: p) = None) as ->; [|done].
  unfold match_page.
  change (is_prefix (lit "page") (c :: p))
    with ((112 =? c)%N && is_prefix (lit "age") p).
  destruct (N.eqb_spec 112 c); [congruence|done].
Qed.

Lemma search_tokenized_dir g :
  g ≠ [] → Forall (λ c, is_decimal ucd c = true) g →
  PAGE_DIR_PATTERN_search ucd (TOKENIZED_DIR ++ lit "/" ++ lit "page" ++ g)
  = Some g.
Proof.
  intros Hne Hg.
  change (TOKENIZED_DIR ++ lit "/" ++ lit "page" ++ g)
    with (lit "tokenized_" ++ 112%N :: lit "ages/" ++ lit "page" ++ g).
  assert (∀ l p, Forall (λ c, c ≠ 112%N) l →
            PAGE_DIR_PATTERN_search ucd (l ++ p)
            = PAGE_DIR_PATTERN_search ucd p) as Hskip.
  { intros l p Hl. induction Hl as [|c l Hc Hl IH]; [done|].
    simpl app. by rewrite search_skip. }
  rewrite Hskip by (repeat constructor; done).
  assert (PAGE_DIR_PATTERN_search ucd
            (112%N :: lit "ages/" ++ lit "page" ++ g)
          = PAGE_DIR_PATTERN_search ucd (lit "ages/" ++ lit "page" ++ g)) as ->.
  { change (PAGE_DIR_PATTERN_search ucd
              (112%N :: lit "ages/" ++ lit "page" ++ g))
      with (match match_page ucd (112%N :: lit "ages/" ++ lit "page" ++ g) with
            | Some g => Some g
            | None => PAGE_DIR_PATTERN_search ucd
                        (lit "ages/" ++ lit "page" ++ g)
            end).
    assert (match_page ucd (112%N :: lit "ages/" ++ lit "page" ++ g) = None)
      as ->; [|done].
    unfold match_page. simpl. unfold is_decimal.
    by rewrite (decimal_ascii _ laws) by lia. }
  rewrite Hskip by (repeat constructor; done).
  change (lit "page" ++ g) with (112%N :: lit "age" ++ g).
  change (PAGE_DIR_PATTERN_search ucd (112%N :: lit "age" ++ g))
    with (match match_page ucd (112%N :: lit "age" ++ g) with
          | Some g => Some g
          | None => PAGE_DIR_PATTERN_search ucd (lit "age" ++ g)
          end).
  assert (match_page ucd (112%N :: lit "age" ++ g) = Some g) as ->; [|done].
  unfold match_page. simpl. by apply match_digits_all.
Qed.
End Decimals.

Lemma at_end_spec s : at_end s = true ↔ s = [] ∨ s = [10%N].
Proof.
  destruct s as [|c [|c' s]]; simpl.
  - naive_solver.
  - rewrite N.eqb_eq. naive_solver.
  - naive_solver.
Qed.

Lemma str_of_int_nonneg k :
  (0 ≤ k)%Z →
  ∃ u, str_of_int k = str_of_uint u ∧ u ≠ Decimal.Nil ∧
       Z.of_int (Decimal.Pos u) = k.
Proof.
  intros Hk. pose proof (DecimalZ.of_to k) as Hof. unfold str_of_int.
  destruct k as [|p|p]; [| |lia]; simpl in *.
  - by exists (Decimal.D0 Decimal.Nil).
  - exists (Pos.to_uint p). split_and!; [done| |done].
    apply DecimalPos.Unsigned.to_uint_nonnil.
Qed.

Lemma leading_zeros n u :
  ∃ u', replicate n 48%N ++ str_of_uint u = str_of_uint u' ∧
        (u ≠ Decimal.Nil → u' ≠ Decimal.Nil) ∧
        Z.of_int (Decimal.Pos u') = Z.of_int (Decimal.Pos u).
Proof.
  induction n as [|n (u' & Hu' & Hne & Hz)]; [by exists u|].
  exists (Decimal.D0 u'). split_and!; [|done|].
  - change (replicate (S n) 48%N ++ str_of_uint u)
      with (48%N :: (replicate n 48%N ++ str_of_uint u)).
    by rewrite Hu'.
  - by transitivity (Z.of_int (Decimal.Pos u')).
Qed.

Lemma page_directory_names_for ucd :
  unicode_laws ucd → decimal_table ucd →
  ∀ k zeros, (0 ≤ k)%Z →
    page_number_of ucd
      (TOKENIZED_DIR ++ lit "/" ++ lit "page"
       ++ replicate zeros 48%N ++ str_of_int k) = Some k.
Proof.
  intros laws table k zeros Hk. unfold page_number_of.
  destruct (str_of_int_nonneg k Hk) as (u & Hu & Hne & Hz).
  destruct (leading_zeros zeros u) as (u' & Hu' & Hne' & Hz').
  rewrite Hu, Hu'.
  rewrite (search_tokenized_dir ucd laws).
  - rewrite py_int_str_of_uint by auto. by rewrite Hz', Hz.
  - intros H. apply Hne'; [done|]. by destruct u'.
  - eapply Forall_impl; [apply str_of_uint_digits|].
    intros c. by apply digit_char_decimal.
Qed.

(** X11. How [build_inverted_index] reads the number of a document from
    the path of its directory. The pattern finds the digits that end the
    path after the last "page" (a line end may follow them), and [int]
    does not fail on what the pattern finds; a path that does not end
    this way has no number and is skipped. The directory [page] followed
    by the decimal form of a number that is not negative has that number,
    also with zeros in front: [page7] and [page007] are the same
    document. *)
Theorem page_directory_names :
  ∀ (ucd : unicode),
    unicode_laws ucd → decimal_table ucd →
    (∀ p g, PAGE_DIR_PATTERN_search ucd p = Some g →
       (∃ pre rest, p = pre ++ lit "page" ++ g ++ rest ∧
                    (rest = [] ∨ rest = [10%N])) ∧
       g ≠ [] ∧ Forall (λ c, is_decimal ucd c = true) g ∧
       is_Some (py_int ucd g)) ∧
    (∀ p, page_number_of ucd p = None ↔
          PAGE_DIR_PATTERN_search ucd p = None) ∧
    (∀ k zeros, (0 ≤ k)%Z →
       page_number_of ucd
         (TOKENIZED_DIR ++ lit "/" ++ lit "page"
          ++ replicate zeros 48%N ++ str_of_int k) = Some k).
Proof.
  intros ucd laws table.
  assert (∀ p g, PAGE_DIR_PATTERN_search ucd p = Some g →
       (∃ pre rest, p = pre ++ lit "page" ++ g ++ rest ∧
                    (rest = [] ∨ rest = [10%N])) ∧
       g ≠ [] ∧ Forall (λ c, is_decimal ucd c = true) g ∧
       is_Some (py_int ucd g)) as Hspec.
  { intros p g (pre & rest & -> & Hne & Hg & Hr%at_end_spec)%search_spec.
    split_and!; [by exists pre, rest|done|done|].
    by apply py_int_decimals. }
  split_and!; [done| |].
  - intros p. unfold page_number_of.
    destruct (PAGE_DIR_PATTERN_search ucd p) as [g|] eqn:Hs; [|done].
    destruct (Hspec p g Hs) as (_ & _ & _ & [d Hd]). by rewrite Hd.
  - by apply page_directory_names_for.
Qed.

Lemma page_directory_names_witness :
  (∀ p g, PAGE_DIR_PATTERN_search ru p = Some g →
     (∃ pre rest, p = pre ++ lit "page" ++ g ++ rest ∧
                  (rest = [] ∨ rest = [10%N])) ∧
     g ≠ [] ∧ Forall (λ c, is_decimal ru c = true) g ∧
     is_Some (py_int ru g)) ∧
  (∀ p, page_number_of ru p = None ↔ PAGE_DIR_PATTERN_search ru p = None) ∧
  (∀ k zeros, (0 ≤ k)%Z →
     page_number_of ru
       (TOKENIZED_DIR ++ lit "/" ++ lit "page"
        ++ replicate zeros 48%N ++ str_of_int k) = Some k).
Proof. exact (page_directory_names ru ru_laws ru_decimal_table). Defined.

Example page_number_of_ex :
  map (page_number_of ru)
    [lit "tokenized_pages/page12"; lit "tokenized_pages/page007";
     lit "tokenized_pages/pageX"; lit "tokenized_pages/page1page23";
     lit "tokenized_pages/page12a"; lit "tokenized_pages/page12" ++ [10%N]]
  = [Some 12%Z; Some 7%Z; None; Some 23%Z; None; Some 12%Z].
Proof. vm_compute. reflexivity. Qed.

(** ** The number of a page, from the crawler to the index *)

Lemma rfind_from_none c i p :
  Forall (λ x, x ≠ c) p → LemmaTokenBuilder.rfind_from c i p = None.
Proof.
  intros Hp. revert i. induction Hp as [|x p Hx Hp IH]; intros i; simpl; [done|].
  rewrite IH. by destruct (N.eqb_spec x c).
Qed.

Lemma rfind_from_last c i a b :
  Forall (λ x, x ≠ c) b →
  LemmaTokenBuilder.rfind_from c i (a ++ c :: b) = Some (i + length a).
Proof.
  intros Hb. revert i. induction a as [|x a IH]; intros i; simpl.
  - rewrite rfind_from_none by done. rewrite N.eqb_refl. f_equal. lia.
  - rewrite IH. f_equal. lia.
Qed.

Lemma basename_pages name :
  Forall (λ x, x ≠ 47%N) name →
  LemmaTokenBuilder.basename
    (LemmaTokenBuilder.path_join LemmaTokenBuilder.PAGES_DIR name) = name.
Proof.
  intros Hn. unfold LemmaTokenBuilder.basename, LemmaTokenBuilder.rfind.
  change (LemmaTokenBuilder.path_join LemmaTokenBuilder.PAGES_DIR name)
    with (lit "pages" ++ 47%N :: name).
  by rewrite rfind_from_last.
Qed.

Lemma splitext_txt stem :
  stem ≠ [] → Forall (λ x, x ≠ 47%N ∧ x ≠ 46%N) stem →
  LemmaTokenBuilder.splitext (stem ++ lit ".txt") = (stem, lit ".txt").
Proof.
  intros Hne Hs. unfold LemmaTokenBuilder.splitext, LemmaTokenBuilder.rfind.
  change (stem ++ lit ".txt") with (stem ++ 46%N :: lit "txt").
  rewrite rfind_from_last by (repeat constructor; done).
  rewrite rfind_from_none.
  2:{ apply Forall_app. split.
      - eapply Forall_impl; [exact Hs|]. by intros x [? _].
      - repeat constructor; done. }
  cbn [Nat.add]. rewrite decide_True by lia.
  rewrite Nat.sub_0_r, take_app_length, drop_app_length.
  destruct stem as [|x stem]; [done|].
  apply Forall_cons in Hs as [[_ Hx] _]. simpl.
  by destruct (N.eqb_spec x 46).
Qed.

Lemma str_of_int_no_slash_dot k :
  Forall (λ x, x ≠ 47%N ∧ x ≠ 46%N) (str_of_int k).
Proof.
  eapply Forall_impl; [apply str_of_int_chars|].
  intros x [->|Hx]; [done|]. unfold digit_char in Hx. lia.
Qed.

Lemma base_safe_filename k :
  LemmaTokenBuilder.base
    (LemmaTokenBuilder.path_join LemmaTokenBuilder.PAGES_DIR
       (Crawler.safe_filename k)) = str_of_int k.
Proof.
  unfold LemmaTokenBuilder.base, Crawler.safe_filename.
  rewrite basename_pages.
  - by rewrite splitext_txt
      by (apply str_of_int_nonempty || apply str_of_int_no_slash_dot).
  - apply Forall_app. split; [|repeat constructor; done].
    eapply Forall_impl; [apply str_of_int_no_slash_dot|]. by intros x [? _].
Qed.

(** X12. The number of a page is the same at every stage. The crawler
    writes its [k]-th page to [pages/k.txt]. [lemma_token_builder] finds
    this file, sorts it under the number [k] and writes its lemmas below
    [tokenized_pages/pagek]; and [build_inverted_index] reads the number
    [k] from the path of that directory, which is the number under which
    [index.txt] has the address of the page. *)
Theorem page_numbers_agree :
  ∀ (ucd : unicode) (k : Z) (text : str),
    unicode_laws ucd → decimal_table ucd → (0 ≤ k)%Z →
    let path := LemmaTokenBuilder.path_join LemmaTokenBuilder.PAGES_DIR
                  (Crawler.safe_filename k) in
    path = Crawler.path_join Crawler.PAGES_DIR (Crawler.safe_filename k) ∧
    LemmaTokenBuilder.glob_txt LemmaTokenBuilder.PAGES_DIR
      [(Crawler.safe_filename k, text)] = [(path, text)] ∧
    LemmaTokenBuilder.page_number ucd path = k ∧
    LemmaTokenBuilder.page_dir path
      = TOKENIZED_DIR ++ lit "/" ++ lit "page" ++ str_of_int k ∧
    page_number_of ucd (LemmaTokenBuilder.page_dir path) = Some k.
Proof.
  intros ucd k text laws table Hk path. subst path. split_and!.
  - done.
  - unfold LemmaTokenBuilder.glob_txt. rewrite filter_cons, decide_True.
    + by rewrite filter_nil.
    + cbn [fst]. unfold Crawler.safe_filename. split.
      * pose proof (str_of_int_chars k) as Hc.
        pose proof (str_of_int_nonempty k) as Hne.
        destruct (str_of_int k) as [|c s]; [done|].
        apply Forall_cons in Hc as [[->|Hc] _]; simpl; [done|].
        unfold digit_char in Hc. intros [= ->]. lia.
      * apply is_prefix_spec. exists (reverse (str_of_int k)).
        by rewrite reverse_app.
  - unfold LemmaTokenBuilder.page_number.
    by rewrite base_safe_filename, py_int_str_of_int.
  - unfold LemmaTokenBuilder.page_dir. by rewrite base_safe_filename.
  - unfold LemmaTokenBuilder.page_dir. rewrite base_safe_filename.
    apply (page_directory_names_for ucd laws table k 0 Hk).
Qed.

Lemma page_numbers_agree_witness :
  let path := LemmaTokenBuilder.path_join LemmaTokenBuilder.PAGES_DIR
                (Crawler.safe_filename 7) in
  path = Crawler.path_join Crawler.PAGES_DIR (Crawler.safe_filename 7) ∧
  LemmaTokenBuilder.glob_txt LemmaTokenBuilder.PAGES_DIR
    [(Crawler.safe_filename 7, lit "<p>")] = [(path, lit "<p>")] ∧
  LemmaTokenBuilder.page_number ru path = 7%Z ∧
  LemmaTokenBuilder.page_dir path
    = TOKENIZED_DIR ++ lit "/" ++ lit "page" ++ str_of_int 7 ∧
  page_number_of ru (LemmaTokenBuilder.page_dir path) = Some 7%Z.
Proof.
  apply (page_numbers_agree ru 7 (lit "<p>") ru_laws ru_decimal_table). lia.
Defined.

(** ** The words of a page: [tokenize] *)

Lemma take_take_while {A} (p : A → bool) l :
  take (length (take_while p l)) l = take_while p l.
Proof.
  rewrite <-(take_drop_while p l) at 2. by rewrite take_app_length.
Qed.

Lemma drop_take_while {A} (p : A → bool) l :
  drop (length (take_while p l)) l = drop_while p l.
Proof.
  rewrite <-(take_drop_while p l) at 2. by rewrite drop_app_length.
Qed.

Lemma take_while_app_all {A} (p : A → bool) a b :
  Forall (λ x, p x = true) a → take_while p (a ++ b) = a ++ take_while p b.
Proof. induction 1 as [|x a Hx Ha IH]; simpl; [done|]. by rewrite Hx, IH. Qed.

Lemma drop_while_app_stop {A} (p : A → bool) a y b :
  p y = false → drop_while p (a ++ y :: b) = drop_while p a ++ y :: b.
Proof.
  intros Hy. induction a as [|x a IH]; simpl; [by rewrite Hy|].
  by destruct (p x).
Qed.

Lemma take_while_nil_head {A} (p : A → bool) l :
  take_while p l = [] → ∀ x, head l = Some x → p x = false.
Proof.
  destruct l as [|y l]; simpl; [done|].
  destruct (p y) eqn:Hy; [done|]. by intros _ x [= <-].
Qed.

Lemma drop_while_word_end s :
  word_end (drop_while LemmaTokenBuilder.ru_letter s).
Proof. intros c Hc. by apply drop_while_head in Hc. Qed.

Lemma take_while_word_end t post :
  Forall (λ c, LemmaTokenBuilder.ru_letter c = true) t → word_end post →
  take_while LemmaTokenBuilder.ru_letter (t ++ post) = t ∧
  drop_while LemmaTokenBuilder.ru_letter (t ++ post) = post.
Proof.
  intros Ht Hp.
  assert (take_while LemmaTokenBuilder.ru_letter post = []) as Hnil.
  { destruct post as [|c post]; [done|]. simpl. by rewrite (Hp c). }
  split.
  - by rewrite take_while_app_all, Hnil, app_nil_r.
  - rewrite drop_while_app_all by done. by apply drop_while_stop.
Qed.

Lemma word_start_snoc before c :
  word_start (before ++ [c]) ↔ LemmaTokenBuilder.ru_letter c = false.
Proof.
  unfold word_start. rewrite last_snoc. split; [by intros H; apply H|].
  by intros H x [= <-].
Qed.

Lemma word_start_app before pre :
  pre ≠ [] → word_start (before ++ pre) ↔ word_start pre.
Proof. intros Hne. unfold word_start. by rewrite last_app_ne. Qed.

Lemma findall_from_spec n s before t :
  length s ≤ n → word_start before ∨ word_end s →
  t ∈ LemmaTokenBuilder.findall_from n s ↔
  ∃ pre post,
    s = pre ++ t ++ post ∧ 2 ≤ length t ∧
    Forall (λ c, LemmaTokenBuilder.ru_letter c = true) t ∧
    word_start (before ++ pre) ∧ word_end post.
Proof.
  revert s before. induction n as [|n IH]; intros s before Hn Hb.
  { destruct s; [|simpl in Hn; lia]. simpl. split; [by intros []%elem_of_nil|].
    intros (pre & post & Hs & Ht & _). symmetry in Hs.
    apply app_eq_nil in Hs as [_ [-> _]%app_eq_nil]. simpl in Ht. lia. }
  destruct s as [|c s].
  { simpl. split; [by intros []%elem_of_nil|].
    intros (pre & post & Hs & Ht & _). symmetry in Hs.
    apply app_eq_nil in Hs as [_ [-> _]%app_eq_nil]. simpl in Ht. lia. }
  change (LemmaTokenBuilder.findall_from (S n) (c :: s))
    with (match LemmaTokenBuilder.match_word (c :: s) with
          | Some k => take k (c :: s)
                      :: LemmaTokenBuilder.findall_from n (drop k (c :: s))
          | None => LemmaTokenBuilder.findall_from n s
          end).
  unfold LemmaTokenBuilder.match_word.
  set (run := take_while LemmaTokenBuilder.ru_letter (c :: s)).
  set (rest := drop_while LemmaTokenBuilder.ru_letter (c :: s)).
  assert (c :: s = run ++ rest) as Hsplit
    by (symmetry; apply take_drop_while).
  assert (Forall (λ c, LemmaTokenBuilder.ru_letter c = true) run) as Hrun
    by apply take_while_Forall.
  simpl in Hn. cbv zeta. destruct (decide (2 ≤ length run)) as [Hlen|Hlen].
  - (* a word starts here *)
    assert (LemmaTokenBuilder.ru_letter c = true) as Hc.
    { destruct run as [|x run'] eqn:Hr; [simpl in Hlen; lia|].
      injection Hsplit as -> _. by apply Forall_cons in Hrun as [? _]. }
    assert (word_start before) as Hbefore.
    { destruct Hb as [?|Hb]; [done|]. specialize (Hb c eq_refl). congruence. }
    assert (take (length run) (c :: s) = run) as ->
      by apply take_take_while.
    assert (drop (length run) (c :: s) = rest) as ->
      by apply drop_take_while.
    rewrite elem_of_cons.
    rewrite (IH rest (before ++ run)).
    2:{ apply (f_equal length) in Hsplit. rewrite length_app in Hsplit.
        simpl in Hsplit. lia. }
    2:{ right. apply drop_while_word_end. }
    split.
    + intros [->|(pre & post & Hrest & Ht & Hall & Hs & He)].
      * exists [], rest. rewrite app_nil_r.
        split_and!; [done..|apply drop_while_word_end].
      * exists (run ++ pre), post. rewrite <-app_assoc, <-Hrest.
        split_and!; [done..| |done]. by rewrite app_assoc.
    + intros (pre & post & Hs & Ht & Hall & Hst & He).
      destruct pre as [|x pre0].
      * left. simpl in Hs.
        destruct (take_while_word_end t post Hall He) as [Htake _].
        unfold run. by rewrite Hs, Htake.
      * right.
        assert (x :: pre0 ≠ []) as Hne by done.
        apply word_start_app in Hst; [|done].
        destruct (last (x :: pre0)) as [y|] eqn:Hlast;
          [|by apply last_None in Hlast].
        apply last_Some in Hlast as [a Ha].
        assert (LemmaTokenBuilder.ru_letter y = false) as Hy.
        { apply Hst. by rewrite Ha, last_snoc. }
        rewrite Ha, <-app_assoc in Hs. simpl in Hs.
        exists (drop_while LemmaTokenBuilder.ru_letter a ++ [y]), post.
        split_and!; [|done|done| |done].
        -- unfold rest. rewrite Hs, drop_while_app_stop by done.
           by rewrite <-app_assoc.
        -- rewrite !app_assoc. by apply word_start_snoc.
  - (* no word starts here *)
    rewrite (IH s (before ++ [c])); [|lia|].
    2:{ destruct (LemmaTokenBuilder.ru_letter c) eqn:Hc.
        - right. intros x Hx. unfold run in Hlen. simpl in Hlen.
          rewrite Hc in Hlen. simpl in Hlen.
          apply (take_while_nil_head LemmaTokenBuilder.ru_letter s); [|done].
          destruct (take_while LemmaTokenBuilder.ru_letter s); [done|].
          simpl in Hlen. lia.
        - left. by apply word_start_snoc. }
    split.
    + intros (pre & post & -> & Ht & Hall & Hst & He).
      exists (c :: pre), post. split_and!; [done..| |done].
      by rewrite <-app_assoc in Hst.
    + intros (pre & post & Hs & Ht & Hall & Hst & He).
      destruct pre as [|x pre0].
      * exfalso. simpl in Hs.
        destruct (take_while_word_end t post Hall He) as [Htake _].
        unfold run in Hlen. rewrite Hs, Htake in Hlen. lia.
      * injection Hs as <- ->. exists pre0, post.
        split_and!; [done..| |done]. by rewrite <-app_assoc.
Qed.

Lemma findall_spec s t :
  t ∈ LemmaTokenBuilder.findall s ↔ run_of_letters s t ∧ 2 ≤ length t.
Proof.
  unfold LemmaTokenBuilder.findall.
  rewrite (findall_from_spec _ s [] t) by (done || by left).
  unfold run_of_letters. simpl. naive_solver.
Qed.

(** X13. The words of a text are the maximal runs of two to forty Russian
    letters of the lower-cased text: a letter that stands alone is no
    word, and a run of more than forty letters is dropped as a whole, not
    cut. *)
Theorem tokenize_gives_runs_of_letters :
  ∀ (ucd : unicode) (text : str),
    (∀ t, t ∈ LemmaTokenBuilder.tokenize ucd text ↔
          run_of_letters (u_lower ucd text) t ∧ 2 ≤ length t ≤ 40) ∧
    (40 < length (u_lower ucd text) →
     Forall (λ c, LemmaTokenBuilder.ru_letter c = true) (u_lower ucd text) →
     LemmaTokenBuilder.tokenize ucd text = []).
Proof.
  intros ucd text. split.
  - intros t. unfold LemmaTokenBuilder.tokenize.
    rewrite list_elem_of_filter, findall_spec. naive_solver lia.
  - intros Hlen Hall.
    destruct (LemmaTokenBuilder.tokenize ucd text) as [|w ws] eqn:Htok;
      [done|exfalso].
    assert (w ∈ LemmaTokenBuilder.tokenize ucd text) as Hin
      by (rewrite Htok; by left).
    unfold LemmaTokenBuilder.tokenize in Hin.
    apply list_elem_of_filter in Hin as [Hw Hin].
    apply findall_spec in Hin as [(pre & post & Hs & _ & Hpre & Hpost) _].
    assert (pre = [] ∧ post = []) as [-> ->].
    { rewrite Hs, !Forall_app in Hall. destruct Hall as (Ha & _ & Hb).
      split.
      - destruct (last pre) as [c|] eqn:Hl; [|by apply last_None].
        specialize (Hpre c Hl). apply last_Some in Hl as [a ->].
        rewrite Forall_app, Forall_singleton in Ha. destruct Ha. congruence.
      - destruct post as [|c post]; [done|].
        specialize (Hpost c eq_refl). apply Forall_cons in Hb as [? _].
        congruence. }
    rewrite Hs, app_nil_r in Hlen. simpl in Hlen. lia.
Qed.

(** ** The text of a page: [HTMLTextExtractor] *)

Section Extractor.
Context (ucd : unicode).

Local Abbreviation feed_all := (foldl (LemmaTokenBuilder.handle ucd)).

Lemma handle_skip_nonneg self e :
  (0 ≤ LemmaTokenBuilder._skip self)%Z →
  (0 ≤ LemmaTokenBuilder._skip (LemmaTokenBuilder.handle ucd self e))%Z.
Proof.
  intros Hs. destruct e as [tag|tag|data]; simpl;
    destruct (decide _) as [H|H]; simpl; lia.
Qed.

Lemma feed_skip_nonneg evs self :
  (0 ≤ LemmaTokenBuilder._skip self)%Z →
  (0 ≤ LemmaTokenBuilder._skip (feed_all self evs))%Z.
Proof.
  revert self. induction evs as [|e evs IH]; intros self Hs; [done|].
  simpl. by apply IH, handle_skip_nonneg.
Qed.

(** While the counter is positive, events that close nothing change
    neither the text nor the sign of the counter. *)
Lemma feed_hidden evs self :
  (0 < LemmaTokenBuilder._skip self)%Z →
  Forall (λ e, ¬ closes ucd e) evs →
  LemmaTokenBuilder._parts (feed_all self evs)
    = LemmaTokenBuilder._parts self ∧
  (0 < LemmaTokenBuilder._skip (feed_all self evs))%Z.
Proof.
  intros Hs Hevs. revert self Hs.
  induction Hevs as [|e evs He Hevs IH]; intros self Hs; [done|].
  simpl.
  assert (LemmaTokenBuilder._parts (LemmaTokenBuilder.handle ucd self e)
            = LemmaTokenBuilder._parts self ∧
          (0 < LemmaTokenBuilder._skip (LemmaTokenBuilder.handle ucd self e))%Z)
    as [Hp Hk].
  { destruct e as [tag|tag|data]; simpl in *.
    - destruct (decide _); simpl; split; (done || lia).
    - destruct (decide _) as [[Hin _]|_]; [done|by split].
    - destruct (decide _) as [[H0 _]|_]; [lia|by split]. }
  destruct (IH _ Hk) as [-> ?]. by split.
Qed.

(** Plain events under a positive counter change nothing at all. *)
Lemma feed_hidden_plain evs self :
  (0 < LemmaTokenBuilder._skip self)%Z →
  Forall (plain ucd) evs → feed_all self evs = self.
Proof.
  intros Hs Hevs. revert self Hs.
  induction Hevs as [|e evs [Ho Hc] Hevs IH]; intros self Hs; [done|].
  simpl.
  assert (LemmaTokenBuilder.handle ucd self e = self) as ->.
  { destruct e as [tag|tag|data]; simpl in *.
    - by rewrite decide_False.
    - rewrite decide_False; [done|]. by intros [? _].
    - rewrite decide_False; [done|]. intros [? _]. lia. }
  by apply IH.
Qed.

(** Plain events under the counter 0 add their data to the text. *)
Lemma feed_plain evs self :
  LemmaTokenBuilder._skip self = 0%Z →
  Forall (plain ucd) evs →
  feed_all self evs =
  {| LemmaTokenBuilder._parts := LemmaTokenBuilder._parts self ++ data_of evs;
     LemmaTokenBuilder._skip := 0 |}.
Proof.
  intros Hs Hevs. revert self Hs.
  induction Hevs as [|e evs [Ho Hc] Hevs IH]; intros self Hs.
  { simpl. rewrite app_nil_r, <-Hs. by destruct self. }
  simpl. destruct e as [tag|tag|data]; simpl in *.
  - rewrite decide_False by done. by apply IH.
  - rewrite decide_False by (by intros [? _]). by apply IH.
  - destruct data as [|c data].
    + rewrite decide_False by (by intros [_ ?]). by apply IH.
    + rewrite decide_True by done. rewrite IH by done. simpl.
      by rewrite <-app_assoc.
Qed.
End Extractor.

(** X14. What [HTMLTextExtractor] keeps of a page. The counter of open
    [script], [style] and [noscript] elements never gets negative: an end
    tag without a start tag is ignored. After the start tag of such an
    element no text is collected until an end tag of such an element
    comes; the element with everything in it leaves the extractor as it
    was. Outside of such elements all data that is not empty is
    collected, and [get_text] joins it with single spaces: the text of a
    page without such elements is all its data. *)
Theorem extractor_drops_skipped_elements :
  ∀ (ucd : unicode) (self : LemmaTokenBuilder.HTMLTextExtractor),
    (0 ≤ LemmaTokenBuilder._skip self)%Z →
    (∀ evs,
       (0 ≤ LemmaTokenBuilder._skip
              (foldl (LemmaTokenBuilder.handle ucd) self evs))%Z) ∧
    (∀ e inner,
       opens ucd e → Forall (λ e, ¬ closes ucd e) inner →
       LemmaTokenBuilder._parts
         (foldl (LemmaTokenBuilder.handle ucd) self (e :: inner))
       = LemmaTokenBuilder._parts self) ∧
    (∀ e inner e',
       opens ucd e → Forall (plain ucd) inner → closes ucd e' →
       foldl (LemmaTokenBuilder.handle ucd) self (e :: inner ++ [e'])
       = self) ∧
    (∀ evs,
       LemmaTokenBuilder._skip self = 0%Z → Forall (plain ucd) evs →
       LemmaTokenBuilder.get_text
         (foldl (LemmaTokenBuilder.handle ucd) self evs)
       = join (lit " ") (LemmaTokenBuilder._parts self ++ data_of evs)) ∧
    (∀ feed html,
       Forall (plain ucd) (feed html) →
       LemmaTokenBuilder.html_to_text ucd feed html
       = join (lit " ") (data_of (feed html))).
Proof.
  intros ucd self Hs. split_and!.
  - intros evs. by apply feed_skip_nonneg.
  - intros [tag| |] inner Ho Hinner; [|done..].
    simpl in Ho. simpl. rewrite decide_True by done.
    by destruct (feed_hidden ucd inner
      {| LemmaTokenBuilder._parts := LemmaTokenBuilder._parts self;
         LemmaTokenBuilder._skip := LemmaTokenBuilder._skip self + 1 |})
      as [-> _]; [simpl; lia|done|].
  - intros [tag| |] inner [|tag'|] Ho Hinner Hc; try done.
    simpl in Ho, Hc. simpl. rewrite decide_True by done. rewrite foldl_app.
    rewrite (feed_hidden_plain ucd inner); [|simpl; lia|exact Hinner].
    simpl. rewrite decide_True by (split; [done|lia]).
    destruct self as [parts skip]. simpl. f_equal. lia.
  - intros evs H0 Hevs. by rewrite feed_plain.
  - intros feed html Hevs. unfold LemmaTokenBuilder.html_to_text.
    by rewrite feed_plain.
Qed.

Lemma extractor_drops_skipped_elements_witness :
  let self := {| LemmaTokenBuilder._parts := [lit "a"];
                 LemmaTokenBuilder._skip := 0 |} in
  (∀ evs,
     (0 ≤ LemmaTokenBuilder._skip
            (foldl (LemmaTokenBuilder.handle ru) self evs))%Z) ∧
  (∀ e inner,
     opens ru e → Forall (λ e, ¬ closes ru e) inner →
     LemmaTokenBuilder._parts
       (foldl (LemmaTokenBuilder.handle ru) self (e :: inner))
     = LemmaTokenBuilder._parts self) ∧
  (∀ e inner e',
     opens ru e → Forall (plain ru) inner → closes ru e' →
     foldl (LemmaTokenBuilder.handle ru) self (e :: inner ++ [e']) = self) ∧
  (∀ evs,
     LemmaTokenBuilder._skip self = 0%Z → Forall (plain ru) evs →
     LemmaTokenBuilder.get_text
       (foldl (LemmaTokenBuilder.handle ru) self evs)
     = join (lit " ") (LemmaTokenBuilder._parts self ++ data_of evs)) ∧
  (∀ feed html,
     Forall (plain ru) (feed html) →
     LemmaTokenBuilder.html_to_text ru feed html
     = join (lit " ") (data_of (feed html))).
Proof.
  apply (extractor_drops_skipped_elements ru
           {| LemmaTokenBuilder._parts := [lit "a"];
              LemmaTokenBuilder._skip := 0 |}).
  simpl. lia.
Defined.

Example extractor_ex :
  LemmaTokenBuilder.get_text
    (foldl (LemmaTokenBuilder.handle ru)
       {| LemmaTokenBuilder._parts := []; LemmaTokenBuilder._skip := 0 |}
       [LemmaTokenBuilder.handle_endtag (lit "script");
        LemmaTokenBuilder.handle_data (lit "a");
        LemmaTokenBuilder.handle_starttag (lit "SCRIPT");
        LemmaTokenBuilder.handle_data (lit "x");
        LemmaTokenBuilder.handle_starttag (lit "b");
        LemmaTokenBuilder.handle_endtag (lit "style");
        LemmaTokenBuilder.handle_data [];
        LemmaTokenBuilder.handle_data (lit "c")])
  = lit "a c".
Proof. vm_compute. reflexivity. Qed.

(** ** The lemmas of a page: [process_page] *)

Section ProcessPage.
Context (u_digit : N → bool).
Context (morph_parse : str → list (option str * str)).
Context (bad_pos : gset str).

Local Abbreviation kept := (kept u_digit morph_parse bad_pos).
Local Abbreviation process_token :=
  (LemmaTokenBuilder.process_token u_digit morph_parse bad_pos).

Lemma kept_unique tok lemma lemma' : kept tok lemma → kept tok lemma' → lemma = lemma'.
Proof.
  intros (_ & pos & rest & H1 & _) (_ & pos' & rest' & H2 & _). congruence.
Qed.

Lemma process_token_cases st tok :
  (∃ lemma, kept tok lemma ∧
     process_token st tok =
       (st.1 ∪ {[tok]}, <[lemma := group st.2 lemma ∪ {[tok]}]> st.2)) ∨
  ((∀ lemma, ¬ kept tok lemma) ∧ process_token st tok = st).
Proof.
  destruct st as [ts m]. unfold LemmaTokenBuilder.process_token.
  destruct (existsb u_digit tok) eqn:Hd.
  { right. split; [|done]. intros lemma [H _]. congruence. }
  destruct (morph_parse tok) as [|[pos lemma] rest] eqn:Hm.
  { right. split; [|done]. intros l (_ & pos' & rest' & H & _).
    by rewrite Hm in H. }
  destruct (LemmaTokenBuilder.pos_in pos bad_pos) eqn:Hpos.
  { right. split; [|done]. intros l (_ & pos' & rest' & H & Hp & _).
    rewrite Hm in H. injection H as <- <- <-. congruence. }
  destruct (LemmaTokenBuilder.fullmatch lemma) eqn:Hfull; simpl.
  2:{ right. split; [|done]. intros l (_ & pos' & rest' & H & _ & Hf & _).
      rewrite Hm in H. injection H as <- <- <-. congruence. }
  destruct (bool_decide (2 ≤ length lemma ≤ 40)) eqn:Hlen; simpl.
  2:{ right. split; [|done].
      intros l (_ & pos' & rest' & H & _ & Hf & Hl).
      rewrite Hm in H. injection H as <- <- <-.
      apply bool_decide_eq_false in Hlen. apply Hlen. split; [|done].
      unfold LemmaTokenBuilder.fullmatch in Hf.
      by apply andb_true_iff in Hf as [Hf%Nat.leb_le _]. }
  left. exists lemma. split; [|done].
  apply bool_decide_eq_true in Hlen.
  split; [done|]. exists pos, rest. split_and!; [done..|lia].
Qed.

Lemma process_tokens_spec toks st :
  let st' := foldl process_token st toks in
  (∀ tok, tok ∈ st'.1 ↔
     tok ∈ st.1 ∨ (tok ∈ toks ∧ ∃ lemma, kept tok lemma)) ∧
  (∀ tok lemma, tok ∈ group st'.2 lemma ↔
     tok ∈ group st.2 lemma ∨ (tok ∈ toks ∧ kept tok lemma)) ∧
  (∀ lemma g, st'.2 !! lemma = Some g →
     st.2 !! lemma = Some g ∨
     (g ≠ ∅ ∧ ∃ tok, tok ∈ toks ∧ kept tok lemma)).
Proof.
  revert st. induction toks as [|tok0 toks IH]; intros st; simpl.
  { split_and!.
    - intros tok. split; [by left|]. by intros [?|[[]%elem_of_nil _]].
    - intros tok lemma. split; [by left|]. by intros [?|[[]%elem_of_nil _]].
    - intros lemma g ?. by left. }
  pose proof (IH (process_token st tok0)) as IH'. cbv zeta in IH'.
  destruct IH' as (IH1 & IH2 & IH3). clear IH.
  destruct (process_token_cases st tok0)
    as [(lemma0 & Hk & Heq)|[Hnk Heq]];
    rewrite Heq in IH1, IH2, IH3 |- *; cbn [fst snd] in *.
  - split_and!.
    + intros tok. rewrite IH1, elem_of_union, elem_of_singleton, elem_of_cons.
      split; [|naive_solver]. intros [[?| ->]|[? ?]]; [by left|right|right].
      * split; [by left|by exists lemma0].
      * split; [by right|done].
    + intros tok lemma. rewrite IH2, elem_of_cons. unfold group at 1.
      destruct (decide (lemma = lemma0)) as [->|Hne].
      * rewrite lookup_insert_eq. simpl.
        rewrite elem_of_union, elem_of_singleton. naive_solver.
      * rewrite lookup_insert_ne by done. fold (group st.2 lemma).
        split; [naive_solver|]. intros [?|[[->|?] Hk']]; [by left| |by right].
        destruct Hne. by apply (kept_unique tok0).
    + intros lemma g Hg. destruct (IH3 lemma g Hg) as [Hin|(Hne & tok & ? & ?)].
      * destruct (decide (lemma = lemma0)) as [->|Hne].
        -- rewrite lookup_insert_eq in Hin. injection Hin as <-. right. split.
           ++ intros Hempty. assert (tok0 ∈ (∅ : gset str)) as []%elem_of_empty.
              rewrite <-Hempty. apply elem_of_union_r. by apply elem_of_singleton.
           ++ exists tok0. split; [by left|done].
        -- rewrite lookup_insert_ne in Hin by done. by left.
      * right. split; [done|]. exists tok. split; [by right|done].
  - split_and!.
    + intros tok. rewrite IH1, elem_of_cons. split; [naive_solver|].
      intros [?|[[->|?] [l Hl]]]; [by left|by destruct (Hnk l)|].
      right. split; [done|by exists l].
    + intros tok lemma. rewrite IH2, elem_of_cons. split; [naive_solver|].
      intros [?|[[->|?] Hl]]; [by left|by destruct (Hnk lemma)|by right].
    + intros lemma g Hg. destruct (IH3 lemma g Hg) as [?|(Hne & tok & ? & ?)];
        [by left|].
      right. split; [done|]. exists tok. split; [by right|done].
Qed.
End ProcessPage.

Lemma sorted_strs_strict (s : gset str) :
  StronglySorted str_lt (merge_sort str_le (elements s)).
Proof.
  apply StronglySorted_strict.
  - apply StronglySorted_merge_sort; apply _.
  - rewrite merge_sort_Permutation. apply NoDup_elements.
Qed.

Lemma process_page_Some ucd u_digit feed morph_parse html bad_pos :
  let st := foldl (LemmaTokenBuilder.process_token u_digit morph_parse bad_pos)
              (∅, ∅)
              (LemmaTokenBuilder.tokenize ucd
                 (LemmaTokenBuilder.html_to_text ucd feed html)) in
  LemmaTokenBuilder.process_page ucd u_digit feed morph_parse html bad_pos
  = (merge_sort str_le (elements st.1), st.2).
Proof.
  unfold LemmaTokenBuilder.process_page. simpl.
  by destruct (foldl _ _ _).
Qed.

(** X15. What [process_page] returns for a page. A word of the text of the
    page is filed under a lemma when it has no digit in it, the first
    parse of the analyser gives it that lemma as its normal form with a
    part of speech that is not excluded, and the lemma is a run of two to
    forty letters; other words are left out. The list of tokens is the
    words that are filed under some lemma, in strictly ascending order;
    no lemma has an empty set of words. *)
Theorem process_page_files_words_under_lemmas :
  ∀ (ucd : unicode) (u_digit : N → bool)
    (feed : str → list LemmaTokenBuilder.event)
    (morph_parse : str → list (option str * str))
    (html : str) (bad_pos : gset str),
    ∃ tokens_list lemma_to_tokens,
      LemmaTokenBuilder.process_page ucd u_digit feed morph_parse html bad_pos
        = (tokens_list, lemma_to_tokens) ∧
      StronglySorted str_lt tokens_list ∧
      (∀ tok lemma,
         tok ∈ group lemma_to_tokens lemma ↔
         tok ∈ LemmaTokenBuilder.tokenize ucd
                 (LemmaTokenBuilder.html_to_text ucd feed html) ∧
         kept u_digit morph_parse bad_pos tok lemma) ∧
      (∀ tok, tok ∈ tokens_list ↔ ∃ lemma, tok ∈ group lemma_to_tokens lemma) ∧
      (∀ lemma g, lemma_to_tokens !! lemma = Some g →
         g ≠ ∅ ∧ LemmaTokenBuilder.fullmatch lemma = true ∧
         length lemma ≤ 40).
Proof.
  intros ucd u_digit feed morph_parse html bad_pos.
  rewrite process_page_Some. cbv zeta.
  set (toks := LemmaTokenBuilder.tokenize ucd
                 (LemmaTokenBuilder.html_to_text ucd feed html)).
  pose proof (process_tokens_spec u_digit morph_parse bad_pos toks (∅, ∅))
    as H. cbv zeta in H. cbn [fst snd] in H.
  destruct H as (H1 & H2 & H3).
  assert (∀ l, group (∅ : gmap str (gset str)) l = ∅) as Hempty
    by (intros l; unfold group; by rewrite lookup_empty).
  set (st := foldl _ _ toks) in *.
  exists (merge_sort str_le (elements st.1)), st.2. split_and!.
  - done.
  - apply sorted_strs_strict.
  - intros tok lemma. rewrite H2, Hempty, elem_of_empty. naive_solver.
  - intros tok. rewrite merge_sort_Permutation, elem_of_elements, H1.
    rewrite elem_of_empty. setoid_rewrite H2. setoid_rewrite Hempty.
    setoid_rewrite elem_of_empty. naive_solver.
  - intros lemma g Hg.
    destruct (H3 lemma g Hg) as [Hin|(Hne & tok & _ & Hk)].
    { by rewrite lookup_empty in Hin. }
    destruct Hk as (_ & pos & rest & _ & _ & Hf & Hl). done.
Qed.

(** ** From the lemma files to the inverted index *)

(** A line made of fields, split into its fields. *)
Lemma fields_line f rest :
  field f → Forall field rest →
  no_newline (f ++ lit " " ++ join (lit " ") rest) ∧
  split (strip (f ++ lit " " ++ join (lit " ") rest ++ [10%N])) = f :: rest.
Proof.
  intros Hf Hrest. split.
  - apply Forall_app. split; [by apply no_space_no_newline, Hf|].
    constructor; [done|]. apply join_no_space.
    eapply Forall_impl; [exact Hrest|]. by intros w [_ ?].
  - rewrite split_strip. destruct rest as [|w rest].
    + apply (split_join [f] [32%N; 10%N]); [by constructor|].
      by repeat constructor.
    + assert (f ++ lit " " ++ join (lit " ") (w :: rest) ++ [10%N]
              = join (lit " ") (f :: w :: rest) ++ [10%N]) as ->
        by (cbn [join]; by rewrite <-!app_assoc).
      apply (split_join (f :: w :: rest) [10%N]); [by constructor|].
      by repeat constructor.
Qed.

Lemma ru_letter_not_space c :
  LemmaTokenBuilder.ru_letter c = true → is_space c = false.
Proof.
  unfold LemmaTokenBuilder.ru_letter.
  rewrite !orb_true_iff, !andb_true_iff, !N.leb_le, !N.eqb_eq.
  intros Hc. apply not_true_is_false. rewrite is_space_spec. lia.
Qed.

Lemma letters_field t :
  t ≠ [] → Forall (λ c, LemmaTokenBuilder.ru_letter c = true) t → field t.
Proof.
  intros Hne Ht. split; [done|].
  eapply Forall_impl; [exact Ht|]. apply ru_letter_not_space.
Qed.

Lemma fullmatch_field l : LemmaTokenBuilder.fullmatch l = true → field l.
Proof.
  unfold LemmaTokenBuilder.fullmatch.
  intros [Hlen%Nat.leb_le Hall]%andb_true_iff. apply letters_field.
  - intros ->. simpl in Hlen. lia.
  - apply Forall_forall. intros c Hc%list_elem_of_In.
    by apply (proj1 (forallb_forall _ _) Hall).
Qed.

(** A dictionary from lemma to words whose lemmas and words are
    fields. *)
Lemma lemmas_txt_lines (ucd : unicode) (m : gmap str (gset str)) (lemma : str) :
  (∀ l g, m !! l = Some g → field l ∧ ∀ t, t ∈ g → field t) →
  (∃ line, line ∈ readlines (LemmaTokenBuilder.lemmas_txt m) ∧
           line_lemma ucd line = Some lemma) ↔
  (∃ l, is_Some (m !! l) ∧ lemma = u_lower ucd l).
Proof.
  intros Hm.
  set (keys := merge_sort str_le (map fst (map_to_list m))).
  assert (∀ l, l ∈ keys ↔ is_Some (m !! l)) as Hkeys.
  { intros l. unfold keys. rewrite merge_sort_Permutation, list_elem_of_fmap.
    split.
    - intros ([l' g] & -> & Hin%elem_of_map_to_list). by exists g.
    - intros [g Hg]. exists (l, g). split; [done|].
      by apply elem_of_map_to_list. }
  assert (∀ l, l ∈ keys →
            field l ∧
            Forall field (merge_sort str_le (elements (default ∅ (m !! l)))))
    as Hfields.
  { intros l [g Hg]%Hkeys. rewrite Hg. simpl.
    destruct (Hm l g Hg) as [Hl Hg']. split; [done|].
    apply Forall_forall. intros t Ht.
    rewrite merge_sort_Permutation, elem_of_elements in Ht. by apply Hg'. }
  assert (readlines (LemmaTokenBuilder.lemmas_txt m)
          = map (LemmaTokenBuilder.lemmas_line m) keys) as ->.
  { unfold LemmaTokenBuilder.lemmas_txt. fold keys.
    assert (map (LemmaTokenBuilder.lemmas_line m) keys
            = map (λ b, b ++ [10%N])
                (map (λ l, l ++ lit " " ++ join (lit " ")
                        (merge_sort str_le (elements (default ∅ (m !! l)))))
                   keys)) as Hmap.
    { rewrite map_map. apply map_ext. intros l.
      unfold LemmaTokenBuilder.lemmas_line. by rewrite <-!app_assoc. }
    rewrite Hmap, <-(app_nil_r (concat _)), readlines_bodies, app_nil_r;
      [done|].
    rewrite Forall_map. apply Forall_forall. intros l Hl.
    destruct (Hfields l Hl) as [Hf Hr]. by apply fields_line. }
  split.
  - intros (line & (l & -> & Hl)%list_elem_of_fmap & Hlemma).
    exists l. split; [by apply Hkeys|].
    destruct (Hfields l Hl) as [Hf Hr].
    unfold line_lemma, LemmaTokenBuilder.lemmas_line in Hlemma.
    rewrite (proj2 (fields_line _ _ Hf Hr)) in Hlemma. congruence.
  - intros (l & Hl%Hkeys & ->). exists (LemmaTokenBuilder.lemmas_line m l).
    split; [apply list_elem_of_fmap; by exists l|].
    destruct (Hfields l Hl) as [Hf Hr].
    unfold line_lemma, LemmaTokenBuilder.lemmas_line.
    by rewrite (proj2 (fields_line _ _ Hf Hr)).
Qed.

Lemma process_page_fields ucd u_digit feed morph_parse html bad_pos l g :
  (LemmaTokenBuilder.process_page ucd u_digit feed morph_parse html bad_pos).2
    !! l = Some g →
  field l ∧ ∀ t, t ∈ g → field t.
Proof.
  rewrite process_page_Some. cbv zeta. cbn [snd].
  set (toks := LemmaTokenBuilder.tokenize ucd
                 (LemmaTokenBuilder.html_to_text ucd feed html)).
  pose proof (process_tokens_spec u_digit morph_parse bad_pos toks (∅, ∅))
    as H. cbv zeta in H. cbn [fst snd] in H.
  destruct H as (_ & H2 & H3). intros Hg. split.
  - destruct (H3 l g Hg) as [Hin|(_ & tok & _ & Hk)].
    { by rewrite lookup_empty in Hin. }
    destruct Hk as (_ & pos & rest & _ & _ & Hf & _).
    by apply fullmatch_field.
  - intros t Ht.
    assert (t ∈ group (foldl
              (LemmaTokenBuilder.process_token u_digit morph_parse bad_pos)
              (∅, ∅) toks).2 l) as Hin
      by (unfold group; by rewrite Hg).
    apply H2 in Hin as [Hin|[Hin _]].
    { unfold group in Hin. rewrite lookup_empty in Hin.
      by apply elem_of_empty in Hin. }
    unfold toks, LemmaTokenBuilder.tokenize in Hin.
    apply list_elem_of_filter in Hin as [Hlen Hin].
    apply findall_spec in Hin as [(pre & post & _ & Hall & _) _].
    apply letters_field; [|done]. intros ->. simpl in Hlen. lia.
Qed.

Lemma page_dirs_pages (ucd : unicode) (pages : list (Z * str))
    (lemmas_of : str → gmap str (gset str)) :
  unicode_laws ucd → decimal_table ucd →
  Forall (λ p, (0 ≤ p.1)%Z) pages →
  page_dirs ucd
    (map (λ p, (lit "page" ++ str_of_int p.1,
                Some (LemmaTokenBuilder.lemmas_txt (lemmas_of p.2)))) pages)
  = map (λ p, {| page_number := Some p.1;
                 lemmas_txt :=
                   Some (LemmaTokenBuilder.lemmas_txt (lemmas_of p.2)) |})
        pages.
Proof.
  intros laws table Hpages. unfold page_dirs.
  induction Hpages as [|[k html] pages Hk Hpages IH]; [done|].
  cbn [map]. rewrite filter_cons, decide_True.
  2:{ cbn [fst]. apply is_prefix_spec. by eexists. }
  cbn [map fst snd]. rewrite IH. f_equal. f_equal.
  apply (page_directory_names_for ucd laws table k 0 Hk).
Qed.

(** X16. The inverted index over the lemma files. When the directory of
    every page [k] is [pagek] and holds the [lemmas.txt] that
    [lemma_token_builder] writes for the text of the page,
    [build_inverted_index] returns the index in which the posting set of
    a lemma is the set of the pages under whose lemmas it is; the lemmas
    are compared in lower case. *)
Theorem lemma_files_feed_the_builder :
  ∀ (ucd : unicode) (u_digit : N → bool)
    (feed : str → list LemmaTokenBuilder.event)
    (morph_parse : str → list (option str * str))
    (pages : list (Z * str)),
    unicode_laws ucd → decimal_table ucd →
    Forall (λ p, (0 ≤ p.1)%Z) pages →
    let lemmas_of html :=
      (LemmaTokenBuilder.process_page ucd u_digit feed morph_parse html
         LemmaTokenBuilder.BAD_POS).2 in
    let tokenized_dir :=
      map (λ p, (lit "page" ++ str_of_int p.1,
                 Some (LemmaTokenBuilder.lemmas_txt (lemmas_of p.2)))) pages in
    ∃ index text,
      build_inverted_index ucd (Some (page_dirs ucd tokenized_dir))
        = Ok (index, text) ∧
      ∀ lemma d,
        d ∈ posting index lemma ↔
        ∃ html l, (d, html) ∈ pages ∧ is_Some (lemmas_of html !! l) ∧
                  lemma = u_lower ucd l.
Proof.
  intros ucd u_digit feed morph_parse pages laws table Hpages
    lemmas_of tokenized_dir.
  unfold tokenized_dir. rewrite (page_dirs_pages ucd pages lemmas_of) by done.
  eexists _, _. split; [apply build_inverted_index_Some|].
  intros lemma d. rewrite index_of_pages_posting. unfold contains. split.
  - intros (p & text & line & Hp & Hnum & Htxt & Hline & Hlemma).
    apply list_elem_of_fmap in Hp as ([k html] & -> & Hin).
    simpl in Hnum, Htxt. injection Hnum as ->. injection Htxt as <-.
    destruct (proj1 (lemmas_txt_lines ucd (lemmas_of html) lemma
                       (process_page_fields _ _ _ _ _ _)))
      as (l & Hl & ->); [by exists line|].
    exists html, l. by split_and!.
  - intros (html & l & Hin & Hl & ->).
    destruct (proj2 (lemmas_txt_lines ucd (lemmas_of html) (u_lower ucd l)
                       (process_page_fields _ _ _ _ _ _)))
      as (line & Hline & Hlemma); [by exists l|].
    exists {| page_number := Some d;
              lemmas_txt :=
                Some (LemmaTokenBuilder.lemmas_txt (lemmas_of html)) |},
      (LemmaTokenBuilder.lemmas_txt (lemmas_of html)), line.
    split_and!; [|done..].
    apply list_elem_of_fmap. by exists (d, html).
Qed.

Lemma lemma_files_feed_the_builder_witness :
  let feed := λ html, [LemmaTokenBuilder.handle_data html] in
  let morph_parse := λ tok : str, [(None : option str, tok)] in
  let pages := [(1%Z, kot ++ lit " " ++ pyos)] in
  let lemmas_of html :=
    (LemmaTokenBuilder.process_page ru latin1_digit feed morph_parse html
       LemmaTokenBuilder.BAD_POS).2 in
  let tokenized_dir :=
    map (λ p : Z * str,
           (lit "page" ++ str_of_int p.1,
            Some (LemmaTokenBuilder.lemmas_txt (lemmas_of p.2)))) pages in
  ∃ index text,
    build_inverted_index ru (Some (page_dirs ru tokenized_dir))
      = Ok (index, text) ∧
    ∀ lemma d,
      d ∈ posting index lemma ↔
      ∃ html l, (d, html) ∈ pages ∧ is_Some (lemmas_of html !! l) ∧
                lemma = u_lower ru l.
Proof.
  intros feed morph_parse pages.
  apply (lemma_files_feed_the_builder ru latin1_digit feed morph_parse pages
           ru_laws ru_decimal_table).
  repeat constructor. simpl. lia.
Defined.

Example process_page_ex :
  let feed := λ html, [LemmaTokenBuilder.handle_data html] in
  let morph_parse := λ tok : str, [(None : option str, tok)] in
  let '(tokens_list, lemma_to_tokens) :=
    LemmaTokenBuilder.process_page ru latin1_digit feed morph_parse
      ([1050; 1086; 1090]%N ++ lit ", " ++ pyos ++ lit " x " ++ kot)
      LemmaTokenBuilder.BAD_POS in
  tokens_list = [kot; pyos] ∧
  LemmaTokenBuilder.tokens_txt tokens_list = kot ++ [10%N] ++ pyos ++ [10%N] ∧
  LemmaTokenBuilder.lemmas_txt lemma_to_tokens
    = kot ++ lit " " ++ kot ++ [10%N] ++ pyos ++ lit " " ++ pyos ++ [10%N].
Proof. vm_compute. split_and!; reflexivity. Qed.

(** ** The program [lemma_token_builder.py] *)

Lemma insert_by_perm {A} (key : A → Z) x l :
  LemmaTokenBuilder.insert_by key x l ≡ₚ x :: l.
Proof.
  induction l as [|y l IH]; simpl; [done|].
  destruct (decide _); [|done]. rewrite IH. apply Permutation_swap.
Qed.

Lemma sorted_by_perm {A} (key : A → Z) l :
  LemmaTokenBuilder.sorted_by key l ≡ₚ l.
Proof.
  unfold LemmaTokenBuilder.sorted_by.
  assert (∀ acc, foldl (λ acc x, LemmaTokenBuilder.insert_by key x acc) acc l
                 ≡ₚ acc ++ l) as H; [|apply (H [])].
  induction l as [|x l IH]; intros acc; simpl; [by rewrite app_nil_r|].
  rewrite IH, insert_by_perm. simpl. apply Permutation_middle.
Qed.

Lemma insert_by_sorted {A} (key : A → Z) x l :
  StronglySorted (λ a b, (key a ≤ key b)%Z) l →
  StronglySorted (λ a b, (key a ≤ key b)%Z)
    (LemmaTokenBuilder.insert_by key x l).
Proof.
  induction 1 as [|y l Hl IH Hy]; simpl; [by repeat constructor|].
  destruct (decide _) as [Hle|Hgt].
  - constructor; [done|]. rewrite insert_by_perm. by constructor.
  - constructor; [by constructor|]. constructor; [lia|].
    eapply Forall_impl; [exact Hy|]. intros z ?. simpl in *. lia.
Qed.

Lemma sorted_by_sorted {A} (key : A → Z) l :
  StronglySorted (λ a b, (key a ≤ key b)%Z)
    (LemmaTokenBuilder.sorted_by key l).
Proof.
  unfold LemmaTokenBuilder.sorted_by.
  assert (∀ acc, StronglySorted (λ a b, (key a ≤ key b)%Z) acc →
            StronglySorted (λ a b, (key a ≤ key b)%Z)
              (foldl (λ acc x, LemmaTokenBuilder.insert_by key x acc) acc l))
    as H; [|apply H; constructor].
  induction l as [|x l IH]; intros acc Hacc; simpl; [done|].
  by apply IH, insert_by_sorted.
Qed.

(** X17. The program fails when there is no directory [pages] and when no
    entry of it has a name that ends in ".txt" and does not start with a
    dot. Otherwise it goes through these page files once each, in
    ascending order of their numbers (a name that is no number counts as
    0), and writes for each the two files of [process_page] into the
    directory named after the file. *)
Theorem lemma_token_builder_processes_every_page :
  ∀ (ucd : unicode) (u_digit : N → bool)
    (feed : str → list LemmaTokenBuilder.event)
    (morph_parse : str → list (option str * str)),
    LemmaTokenBuilder.main ucd u_digit feed morph_parse None
      = Raise (FileNotFoundError LemmaTokenBuilder.PAGES_DIR) ∧
    (∀ entries,
       LemmaTokenBuilder.glob_txt LemmaTokenBuilder.PAGES_DIR entries = [] →
       LemmaTokenBuilder.main ucd u_digit feed morph_parse (Some entries)
       = Raise (FileNotFoundError (lit "pages/*.txt"))) ∧
    (∀ entries,
       LemmaTokenBuilder.glob_txt LemmaTokenBuilder.PAGES_DIR entries ≠ [] →
       ∃ files,
         files ≡ₚ LemmaTokenBuilder.glob_txt LemmaTokenBuilder.PAGES_DIR
                    entries ∧
         StronglySorted
           (λ f g, (LemmaTokenBuilder.page_number ucd f.1
                    ≤ LemmaTokenBuilder.page_number ucd g.1)%Z) files ∧
         LemmaTokenBuilder.main ucd u_digit feed morph_parse (Some entries)
         = Ok (concat (map (λ f,
                 LemmaTokenBuilder.page_output ucd u_digit feed morph_parse
                   f.1 f.2) files))) ∧
    (∀ path file, ∃ tokens_list lemma_to_tokens,
       LemmaTokenBuilder.process_page ucd u_digit feed morph_parse
         (concat (readlines file)) LemmaTokenBuilder.BAD_POS
         = (tokens_list, lemma_to_tokens) ∧
       LemmaTokenBuilder.page_output ucd u_digit feed morph_parse path file
       = [ (LemmaTokenBuilder.page_dir path ++ lit "/tokens.txt",
            LemmaTokenBuilder.tokens_txt tokens_list);
           (LemmaTokenBuilder.page_dir path ++ lit "/lemmas.txt",
            LemmaTokenBuilder.lemmas_txt lemma_to_tokens) ]).
Proof.
  intros ucd u_digit feed morph_parse. split_and!.
  - done.
  - intros entries Hglob. unfold LemmaTokenBuilder.main. by rewrite Hglob.
  - intros entries Hglob.
    set (key := λ f : str * str, LemmaTokenBuilder.page_number ucd f.1).
    exists (LemmaTokenBuilder.sorted_by key
              (LemmaTokenBuilder.glob_txt LemmaTokenBuilder.PAGES_DIR entries)).
    split_and!.
    + apply sorted_by_perm.
    + apply (sorted_by_sorted key).
    + unfold LemmaTokenBuilder.main. fold key.
      destruct (LemmaTokenBuilder.sorted_by key _) as [|f files] eqn:Hs;
        [|done].
      destruct Hglob. apply Permutation_nil_r. rewrite <-Hs.
      symmetry. apply sorted_by_perm.
  - intros path file. unfold LemmaTokenBuilder.page_output.
    destruct (LemmaTokenBuilder.process_page _ _ _ _ _ _)
      as [tokens_list lemma_to_tokens].
    by exists tokens_list, lemma_to_tokens.
Qed.

Example lemma_token_builder_ex :
  let feed := λ html, [LemmaTokenBuilder.handle_data html] in
  let morph_parse := λ tok : str, [(None : option str, tok)] in
  LemmaTokenBuilder.main ru latin1_digit feed morph_parse
    (Some [(lit "10.txt", pyos); (lit "notes.md", kot); (lit "2.txt", kot);
           (lit ".txt", kot)])
  = Ok [ (lit "tokenized_pages/page2/tokens.txt", kot ++ [10%N]);
         (lit "tokenized_pages/page2/lemmas.txt",
          kot ++ lit " " ++ kot ++ [10%N]);
         (lit "tokenized_pages/page10/tokens.txt", pyos ++ [10%N]);
         (lit "tokenized_pages/page10/lemmas.txt",
          pyos ++ lit " " ++ pyos ++ [10%N]) ].
Proof. vm_compute. reflexivity. Qed.

(** ** A query of one word, from the lemma source to the result *)

Lemma ru_letter_spec c :
  LemmaTokenBuilder.ru_letter c = true ↔
  (1072 ≤ c ≤ 1103 ∨ c = 1105 ∨ 1040 ≤ c ≤ 1071 ∨ c = 1025
   ∨ 7296 ≤ c ≤ 7302)%N.
Proof.
  unfold LemmaTokenBuilder.ru_letter.
  rewrite !orb_true_iff, !andb_true_iff, !N.leb_le, !N.eqb_eq. tauto.
Qed.

Lemma ru_upper_char_letter c :
  LemmaTokenBuilder.ru_letter c = true → (1024 ≤ ru_upper_char c)%N.
Proof.
  intros Hc%ru_letter_spec. unfold ru_upper_char, ascii_lower_letter.
  cases_on_tests; lia.
Qed.

Lemma ru_lower_char_letter c :
  LemmaTokenBuilder.ru_letter c = true → (1024 ≤ ru_lower_char c)%N.
Proof.
  intros Hc%ru_letter_spec.
  destruct (ru_lower_char_spec c) as [[? ->]|[[? ->]|[? ->]]]; lia.
Qed.

Lemma match_keyword_not_ascii ucd w prev c s :
  keyword w → (128 ≤ c)%N → match_keyword ucd w prev (c :: s) = None.
Proof.
  intros [Hne Hw] Hc. unfold match_keyword.
  destruct w as [|l w]; [done|]. simpl in Hw.
  apply andb_true_iff in Hw as [Hl _]. unfold ascii_upper_letter in Hl.
  apply andb_true_iff in Hl as [?%N.leb_le ?%N.leb_le].
  assert (ci_prefix (l :: w) (c :: s) = false) as ->.
  { simpl. unfold ci_literal.
    destruct (N.eqb_spec c l); [lia|]. destruct (N.eqb_spec c (l + 32)); [lia|].
    done. }
  by rewrite andb_false_r.
Qed.

Lemma str_in_not_paren t s :
  (∀ c, head t = Some c → is_paren c = false) → t ≠ [] →
  Forall (λ c, is_paren c = true) s → str_in t s = false.
Proof.
  intros Ht Hne Hs. destruct t as [|c t]; [done|].
  specialize (Ht c eq_refl).
  induction Hs as [|x s Hx Hs IH]; [done|].
  simpl. rewrite IH, orb_false_r.
  destruct (N.eqb_spec c x) as [->|]; [congruence|done].
Qed.

(** A word of Russian letters is one token: the word in lower case. *)
Lemma tokenize_query_ru_word w :
  w ≠ [] → Forall (λ c, LemmaTokenBuilder.ru_letter c = true) w →
  tokenize_query ru w = [u_lower ru w].
Proof.
  intros Hne Hw. rewrite (tokenize_query_findall ru ru_laws).
  destruct w as [|c w']; [done|]. clear Hne.
  pose proof Hw as [Hc _]%Forall_cons.
  pose proof Hc as Hc'%ru_letter_spec.
  rewrite (run_is_one_match ru (c :: w')); [|done| | | |].
  - cbn [map concat]. rewrite app_nil_r. unfold classify.
    rewrite strip_id.
    2:{ split; intros x Hx; apply ru_letter_not_space.
        - by injection Hx as <-.
        - apply last_Some in Hx as [l Hl]. rewrite Hl in Hw.
          rewrite Forall_app, Forall_singleton in Hw. apply Hw. }
    pose proof (ru_upper_char_letter c Hc) as Hu.
    change (u_upper ru (c :: w'))
      with (ru_upper_char c :: map ru_upper_char w').
    rewrite decide_False by (intros [= H _]; rewrite H in Hu; lia).
    rewrite decide_False by (intros [= H _]; rewrite H in Hu; lia).
    rewrite decide_False by (intros [= H _]; rewrite H in Hu; lia).
    rewrite str_in_not_paren; [done| |done|by repeat constructor].
    intros x [= <-]. apply not_true_is_false. rewrite is_paren_spec. lia.
  - eapply Forall_impl; [exact Hw|]. intros x Hx. unfold term_char.
    rewrite (ru_letter_not_space x Hx). simpl.
    apply negb_true_iff, not_true_is_false. rewrite is_paren_spec.
    apply ru_letter_spec in Hx. lia.
  - apply match_keyword_not_ascii; [apply keyword_AND|lia].
  - apply match_keyword_not_ascii; [apply keyword_OR|lia].
  - apply match_keyword_not_ascii; [apply keyword_NOT|lia].
Qed.

Lemma ru_word_is_term w :
  w ≠ [] → Forall (λ c, LemmaTokenBuilder.ru_letter c = true) w →
  is_term (u_lower ru w).
Proof.
  intros Hne Hw. destruct w as [|c w]; [done|].
  apply Forall_cons in Hw as [Hc%ru_lower_char_letter _].
  unfold is_term.
  change (u_lower ru (c :: w)) with (ru_lower_char c :: map ru_lower_char w).
  rewrite !not_elem_of_cons.
  split_and!;
    [intros [= H _]; unfold LPAREN, RPAREN in H; rewrite H in Hc; lia..
    |apply not_elem_of_nil].
Qed.

(** X18. A query of one Russian word, in any case, over the whole chain:
    when the index is built from a lemma source, written, and loaded
    again, the search for the word returns the documents of the source
    that contain the word in lower case as a lemma, whatever the universe
    is. *)
Theorem one_word_query_finds_the_documents :
  ∀ (entries : list page_dir) (path : str) (all_doc_ids : gset Z) (w : str),
    w ≠ [] → Forall (λ c, LemmaTokenBuilder.ru_letter c = true) w →
    ∃ index text loaded v,
      build_inverted_index ru (Some entries) = Ok (index, text) ∧
      load_inverted_index ru path (Some text) = Ok loaded ∧
      searches ru loaded all_doc_ids w v ∧
      ∀ d, d ∈ v ↔ contains ru entries (u_lower ru w) d.
Proof.
  intros entries path all_doc_ids w Hne Hw.
  exists (index_of_pages ru entries),
    (index_text (index_of_pages ru entries)), (index_of_pages ru entries),
    (term_set (index_of_pages ru entries) (u_lower ru w)).
  split_and!.
  - apply build_inverted_index_Some.
  - apply load_index_text; [apply ru_laws|apply index_of_pages_well_keyed].
  - exists 3. rewrite boolean_search_parse by lia.
    apply (single_term_parse _ _ _ 0 (u_lower ru w)).
    + by apply tokenize_query_ru_word.
    + by apply ru_word_is_term.
  - intros d. apply index_of_pages_posting.
Qed.

Lemma one_word_query_finds_the_documents_witness :
  ∃ index text loaded v,
    build_inverted_index ru (Some zoo_pages) = Ok (index, text) ∧
    load_inverted_index ru (lit "inverted_index.txt") (Some text) = Ok loaded ∧
    searches ru loaded zoo_docs [1050; 1054; 1058]%N v ∧
    ∀ d, d ∈ v ↔ contains ru zoo_pages (u_lower ru [1050; 1054; 1058]%N) d.
Proof.
  apply (one_word_query_finds_the_documents zoo_pages
           (lit "inverted_index.txt") zoo_docs [1050; 1054; 1058]%N).
  - discriminate.
  - repeat constructor.
Defined.
